(** * go-qrcode: a shallow embedding of the encoder core

    The Go sources embedded here are [internal/bitset/bitset.go],
    [internal/reedsolomon] (polynomials and [Encode]), [symbol.go]
    (module grid and penalty rules), [encoder.go] (segment classifier)
    and [qrcode.go] ([New], [encode], padding and block interleaving).

    Conventions.  A Go [int] is a [Z]: every length handled here is bounded
    by the size of a slice, far below 2^63, so no wrap-around is written.
    The private counter [numBits] of a bit buffer starts at 0 and only
    grows; the embedding follows the source for [0 <= numBits].
    A [byte] and a [gfElement] are a [Z] in [0, 256); operations that can
    leave that range in Go ([<<=] on a byte) carry an explicit [mod 256].
    Integer division and remainder are Go's truncating ones, [Z.quot] and
    [Z.rem].  A slice is a [list]; indexing outside it is a run-time panic,
    written [Panic]. *)

From Stdlib Require Import ZArith List Bool Lia Sorted.
From Stdlib Require String.
Import ListNotations.
Import String.StringSyntax.
Delimit Scope string_scope with string.
Open Scope Z_scope.

(** ** Results of Go calls *)

(** A Go call either returns, returns a non-nil [error] (kept with its
    message, format verbs left as in the source), or panics.  [Exhausted]
    is the model's own outcome for a loop that was given too little fuel. *)
Inductive outcome (A : Type) : Type :=
| Ret (a : A)
| Err (msg : String.string)
| Panic
| Exhausted.
Arguments Ret {A} a.
Arguments Err {A} msg.
Arguments Panic {A}.
Arguments Exhausted {A}.

Definition bind {A B : Type} (m : outcome A) (k : A -> outcome B) : outcome B :=
  match m with
  | Ret a => k a
  | Err msg => Err msg
  | Panic => Panic
  | Exhausted => Exhausted
  end.

Notation "x <- m ;; k" := (bind m (fun x => k))
  (at level 61, m at next level, right associativity).

(** [l[i]] for a Go slice: [None] stands for the index-out-of-range panic. *)
Definition index {A : Type} (l : list A) (i : Z) : option A :=
  if i <? 0 then None else nth_error l (Z.to_nat i).

(** [l[i] = f(l[i])] in place. *)
Fixpoint modify {A : Type} (f : A -> A) (n : nat) (l : list A) : list A :=
  match l, n with
  | [], _ => []
  | x :: t, O => f x :: t
  | x :: t, S m => x :: modify f m t
  end.

Definition len {A : Type} (l : list A) : Z := Z.of_nat (length l).

(** [l[i]] of a slice of integers, for an index the caller keeps inside it. *)
Definition at_ (l : list Z) (i : Z) : Z := nth (Z.to_nat i) l 0.

(** The integers [lo, lo+1, ..., lo+n-1]: the values a counting [for] loop
    takes. *)
Definition upto (lo : Z) (n : nat) : list Z :=
  map (fun j => lo + Z.of_nat j) (seq 0 n).

(** A [for] loop whose body may fail, over the values of its counter. *)
Fixpoint forM {S A : Type} (xs : list A) (body : S -> A -> outcome S) (s : S)
  : outcome S :=
  match xs with
  | [] => Ret s
  | x :: t => s' <- body s x ;; forM t body s'
  end.

(** ** internal/bitset *)

Module bitset.

Record Bitset : Type := mkBitset {
  numBits : Z;        (* The number of bits stored. *)
  bits : list Z       (* Storage for individual bits. *)
}.

Definition Len (b : Bitset) : Z := numBits b.

(** [Clone] copies the slice header only ([from.bits[:]]): the clone and
    the original share one backing array. *)
Definition Clone (from : Bitset) : Bitset :=
  mkBitset (numBits from) (bits from).

Definition ensureCapacity (b : Bitset) (n : Z) : Bitset :=
  let total := n + numBits b in
  let newNumBytes :=
    if Z.rem total 8 =? 0 then Z.quot total 8 else Z.quot total 8 + 1 in
  if len (bits b) >=? newNumBytes then b
  else mkBitset (numBits b)
         (bits b ++ repeat 0 (Z.to_nat (newNumBytes + 2 * len (bits b)))).

(** [b.bits[b.numBits/8] |= 0x80 >> uint(b.numBits%8)] *)
Definition setCurrent (b : Bitset) : outcome Bitset :=
  let i := Z.quot (numBits b) 8 in
  match index (bits b) i with
  | None => Panic
  | Some _ =>
      Ret (mkBitset (numBits b)
             (modify (fun x => Z.lor x (Z.shiftr 128 (Z.rem (numBits b) 8)))
                     (Z.to_nat i) (bits b)))
  end.

(** The body shared by every append loop of the source:
    [if v { b.bits[...] |= ... }; b.numBits++]. *)
Definition push (b : Bitset) (v : bool) : outcome Bitset :=
  b' <- (if v then setCurrent b else Ret b) ;;
  Ret (mkBitset (numBits b' + 1) (bits b')).

Definition AppendBools (b : Bitset) (vs : list bool) : outcome Bitset :=
  forM vs push (ensureCapacity b (len vs)).

Definition New (vs : list bool) : outcome Bitset :=
  AppendBools (mkBitset 0 []) vs.

Fixpoint AppendNumBools_loop (n : nat) (value : bool) (b : Bitset)
  : outcome Bitset :=
  match n with
  | O => Ret b
  | S m => b' <- AppendBools b [value] ;; AppendNumBools_loop m value b'
  end.

Definition AppendNumBools (b : Bitset) (num : Z) (value : bool)
  : outcome Bitset :=
  AppendNumBools_loop (Z.to_nat num) value b.

Definition At (b : Bitset) (i : Z) : outcome bool :=
  if i >=? numBits b then Err "index %d out of range"%string
  else match index (bits b) (Z.quot i 8) with
       | None => Panic
       | Some x =>
           Ret (negb (Z.land x (Z.shiftr 128 ((Z.rem i 8) mod 256)) =? 0))
       end.

(** The counter values [n-1, ..., 0] of [for i := n-1; i >= 0; i--]. *)
Definition downfrom (n : Z) : list Z := rev (upto 0 (Z.to_nat n)).

Definition AppendByte (b : Bitset) (value : Z) (n : Z) : outcome Bitset :=
  let b := ensureCapacity b n in
  if n >? 8 then Err "numBits %d out of range 0-8"%string
  else forM (downfrom n)
         (fun b i => push b (negb (Z.land value (Z.shiftl 1 i) =? 0))) b.

Definition AppendUint32 (b : Bitset) (value : Z) (n : Z) : outcome Bitset :=
  let b := ensureCapacity b n in
  if n >? 32 then Err "numBits %d out of range 0-32"%string
  else forM (downfrom n)
         (fun b i => push b (negb (Z.land value (Z.shiftl 1 i) =? 0))) b.

Definition AppendBytes (b : Bitset) (data : list Z) : outcome Bitset :=
  forM data (fun b d => AppendByte b d 8) b.

Definition Append (b other : Bitset) : outcome Bitset :=
  forM (upto 0 (Z.to_nat (numBits other)))
       (fun b i => bo <- At other i ;; push b bo)
       (ensureCapacity b (numBits other)).

Definition Substr (b : Bitset) (start stop : Z) : outcome Bitset :=
  if (start >? stop) || (stop >? numBits b)
  then Err "out of range start=%d end=%d numBits=%d"%string
  else
    result <- New [] ;;
    forM (upto start (Z.to_nat (stop - start)))
         (fun r i => bo <- At b i ;; push r bo)
         (ensureCapacity result (stop - start)).

Definition ByteAt (b : Bitset) (i : Z) : outcome Z :=
  if (i <? 0) || (i >=? numBits b) then Err "index %d out of range"%string
  else
    forM (upto i (Z.to_nat (Z.min 8 (numBits b - i))))
         (fun result j =>
            let result := Z.shiftl result 1 mod 256 in
            bo <- At b j ;;
            Ret (if bo then Z.lor result 1 else result))
         0.

End bitset.

(** ** internal/reedsolomon *)

Module reedsolomon.
Import bitset.

(** *** GF(2^8) *)

(** [gfElement] is a [uint8]. *)
Abbreviation gfElement := Z (only parsing).
Definition gfZero : gfElement := 0.
Definition gfOne : gfElement := 1.

(** Modelled from the spec: the file holding [gfExpTable], [gfLogTable],
    [gfAdd], [gfMultiply] and [gfDivide] is not among the sources.  The
    tables follow the spec's construction: [x = 1; for i in 0..255
    { exp[i] = x; x = x*alpha, reduced by 0x11d when x >= 256 }], and
    [log[exp[i]] = i] for the 255 distinct powers. *)
Fixpoint gfPowers (x : Z) (n : nat) : list Z :=
  match n with
  | O => []
  | S m =>
      let y := 2 * x in
      x :: gfPowers (if y >=? 256 then Z.lxor y 0x11d else y) m
  end.

Definition gfExpTable : list gfElement := Eval vm_compute in gfPowers 1 256.

Fixpoint gfFindLog (v : Z) (tbl : list Z) (i : Z) : Z :=
  match tbl with
  | [] => -1
  | x :: t => if x =? v then i else gfFindLog v t (i + 1)
  end.

Definition gfLogTable : list Z :=
  Eval vm_compute in map (fun v => gfFindLog v (firstn 255 gfExpTable) 0)
                         (upto 0 256).

(** Modelled from the spec: "Add = XOR". *)
Definition gfAdd (a b : gfElement) : gfElement := Z.lxor a b.

(** Modelled from the spec: "Multiply: if either operand is 0, result 0;
    else exp[(log[a]+log[b]) mod 255]". *)
Definition gfMultiply (a b : gfElement) : gfElement :=
  if (a =? gfZero) || (b =? gfZero) then gfZero
  else at_ gfExpTable (Z.rem (at_ gfLogTable a + at_ gfLogTable b) 255).

(** Modelled from the spec: "division via tables", the inverse of [a] being
    [exp[255 - log[a]]]. *)
Definition gfInverse (a : gfElement) : gfElement :=
  at_ gfExpTable (255 - at_ gfLogTable a).

(** Modelled from the spec: "Divide by 0 is an error". *)
Definition gfDivide (a b : gfElement) : outcome gfElement :=
  if b =? gfZero then Err "divide by zero"%string
  else Ret (gfMultiply a (gfInverse b)).

(** *** Polynomials over GF(2^8) *)

Record gfPoly : Type := mkPoly { term : list gfElement }.

Definition zeros (n : Z) : list Z := repeat 0 (Z.to_nat n).

Definition numTerms (e : gfPoly) : Z := len (term e).

(** The downward scan of [normalised]: [n] is [i+1]; the result is
    [maxNonzeroTerm]. *)
Fixpoint maxNonzeroTerm (t : list gfElement) (n : nat) : Z :=
  match n with
  | O => -1
  | S i => if at_ t (Z.of_nat i) =? 0 then maxNonzeroTerm t i else Z.of_nat i
  end.

Definition normalised (e : gfPoly) : gfPoly :=
  let m := maxNonzeroTerm (term e) (length (term e)) in
  if m <? 0 then mkPoly []
  else if m <? numTerms e - 1 then mkPoly (firstn (Z.to_nat (m + 1)) (term e))
  else e.

Definition gfPolyAdd (a b : gfPoly) : gfPoly :=
  let numATerms := numTerms a in
  let numBTerms := numTerms b in
  let n := if numBTerms >? numATerms then numBTerms else numATerms in
  normalised (mkPoly
    (map (fun i =>
            if (numATerms >? i) && (numBTerms >? i)
            then gfAdd (at_ (term a) i) (at_ (term b) i)
            else if numATerms >? i then at_ (term a) i
            else at_ (term b) i)
         (upto 0 (Z.to_nat n)))).

Definition gfPolyMultiply (a b : gfPoly) : gfPoly :=
  let numATerms := numTerms a in
  let numBTerms := numTerms b in
  normalised
    (fold_left
       (fun result i =>
          fold_left
            (fun result j =>
               if negb (at_ (term a) i =? 0) && negb (at_ (term b) j =? 0)
               then
                 let monomial :=
                   mkPoly (zeros (i + j) ++
                           [gfMultiply (at_ (term a) i) (at_ (term b) j)]) in
                 gfPolyAdd result monomial
               else result)
            (upto 0 (Z.to_nat numBTerms)) result)
       (upto 0 (Z.to_nat numATerms))
       (mkPoly (zeros (numATerms + numBTerms)))).

Definition newGFPolyMonomial (t : gfElement) (degree : Z) : outcome gfPoly :=
  if t =? gfZero then Ret (mkPoly [])
  else if degree <? 0 then Panic
  else Ret (mkPoly (zeros degree ++ [t])).

(** [newGFPolyFromData]: the state of the loop is the slice and [i]. *)
Definition newGFPolyFromData (data : Bitset) : outcome gfPoly :=
  let numTotalBytes :=
    if Z.rem (Len data) 8 =? 0 then Z.quot (Len data) 8
    else Z.quot (Len data) 8 + 1 in
  r <- forM (map (fun n => 8 * n) (upto 0 (Z.to_nat numTotalBytes)))
         (fun (st : list Z * Z) j =>
            let (t, i) := st in
            by_ <- ByteAt data j ;;
            match index t i with
            | None => Panic
            | Some _ => Ret (modify (fun _ => by_) (Z.to_nat i) t, i - 1)
            end)
         (zeros numTotalBytes, numTotalBytes - 1) ;;
  Ret (mkPoly (fst r)).

(** [data]: [result[i] = byte(e.term[j])] for [j] from the top term down. *)
Definition data (e : gfPoly) (n : Z) : outcome (list Z) :=
  if n <? 0 then Panic
  else
    r <- forM (rev (term e))
           (fun (st : list Z * Z) tj =>
              let (result, i) := st in
              match index result i with
              | None => Panic
              | Some _ => Ret (modify (fun _ => tj) (Z.to_nat i) result, i + 1)
              end)
           (zeros n, n - numTerms e) ;;
    Ret (fst r).

Definition equals (e other : gfPoly) : bool :=
  let numMinTerms := Z.min (numTerms e) (numTerms other) in
  let numMaxTerms := Z.max (numTerms e) (numTerms other) in
  let maxecPoly := if numTerms e >? numTerms other then e else other in
  forallb (fun i => at_ (term e) i =? at_ (term other) i)
          (upto 0 (Z.to_nat numMinTerms))
  && forallb (fun i => at_ (term maxecPoly) i =? 0)
             (upto numMinTerms (Z.to_nat (numMaxTerms - numMinTerms))).

(** The [for remainder.numTerms() >= denominator.numTerms()] loop; one unit
    of fuel per iteration. *)
Fixpoint gfPolyRemainder_loop (fuel : nat) (remainder denominator : gfPoly)
  : outcome gfPoly :=
  if numTerms remainder >=? numTerms denominator then
    match fuel with
    | O => Exhausted
    | S fuel' =>
        let degree := numTerms remainder - numTerms denominator in
        coefficient <-
          gfDivide (at_ (term remainder) (numTerms remainder - 1))
                   (at_ (term denominator) (numTerms denominator - 1)) ;;
        m <- newGFPolyMonomial coefficient degree ;;
        let divisor := gfPolyMultiply denominator m in
        gfPolyRemainder_loop fuel' (gfPolyAdd remainder divisor) denominator
    end
  else Ret remainder.

(** Every iteration but the first starts from a normalised remainder and
    cancels its top term, so [numTerms numerator + 1] iterations are enough
    (shown below, [gfPolyRemainder_spec]). *)
Definition gfPolyRemainder (numerator denominator : gfPoly) : outcome gfPoly :=
  if equals denominator (mkPoly []) then Err "remainder by zero"%string
  else
    r <- gfPolyRemainder_loop (S (length (term numerator)))
           numerator denominator ;;
    Ret (normalised r).

(** *** Reed-Solomon *)

Definition rsGeneratorPoly (degree : Z) : outcome gfPoly :=
  if degree <? 2 then Err "degree < 2"%string
  else
    forM (upto 0 (Z.to_nat degree))
         (fun generator i =>
            match index gfExpTable i with
            | None => Panic
            | Some e => Ret (gfPolyMultiply generator (mkPoly [e; 1]))
            end)
         (mkPoly [1]).

Definition Encode (data_ : Bitset) (numECBytes : Z) : outcome Bitset :=
  ecpoly <- newGFPolyFromData data_ ;;
  m <- newGFPolyMonomial gfOne numECBytes ;;
  let ecpoly := gfPolyMultiply ecpoly m in
  generator <- rsGeneratorPoly numECBytes ;;
  remainder <- gfPolyRemainder ecpoly generator ;;
  let result := Clone data_ in
  ec <- data remainder numECBytes ;;
  AppendBytes result ec.

End reedsolomon.

(** ** package qrcode: the module grid (symbol.go) *)

Module qrcode.
Import bitset.

Record symbol : Type := mkSymbol {
  module : list (list bool);   (* Value of module at [y][x]. True is set. *)
  isUsed : list (list bool);   (* True if the module at [y][x] is used. *)
  size : Z;                    (* Width/height of symbol and quiet zones. *)
  symbolSize : Z;              (* Width/height of the symbol only. *)
  quietZoneSize : Z            (* Width/height of a single quiet zone. *)
}.

(** [make] with a negative length panics. *)
Definition newSymbol (size_ quietZoneSize_ : Z) : outcome symbol :=
  let n := size_ + 2 * quietZoneSize_ in
  if n <? 0 then Panic
  else
    let plane := repeat (repeat false (Z.to_nat n)) (Z.to_nat n) in
    Ret (mkSymbol plane plane n size_ quietZoneSize_).

(** [plane[y][x]] *)
Definition cell (plane : list (list bool)) (x y : Z) : outcome bool :=
  match index plane y with
  | None => Panic
  | Some row => match index row x with
                | None => Panic
                | Some v => Ret v
                end
  end.

Definition get (m : symbol) (x y : Z) : outcome bool :=
  cell (module m) (x + quietZoneSize m) (y + quietZoneSize m).

Definition empty (m : symbol) (x y : Z) : outcome bool :=
  v <- cell (isUsed m) (x + quietZoneSize m) (y + quietZoneSize m) ;;
  Ret (negb v).

Definition numEmptyModules (m : symbol) : outcome Z :=
  forM (upto 0 (Z.to_nat (symbolSize m)))
       (fun count y =>
          forM (upto 0 (Z.to_nat (symbolSize m)))
               (fun count x =>
                  u <- cell (isUsed m) (x + quietZoneSize m)
                         (y + quietZoneSize m) ;;
                  Ret (if negb u then count + 1 else count))
               count)
       0.

(** [plane[y][x] = v] *)
Definition store (plane : list (list bool)) (x y : Z) (v : bool)
  : outcome (list (list bool)) :=
  match index plane y with
  | None => Panic
  | Some row =>
      match index row x with
      | None => Panic
      | Some _ =>
          Ret (modify (modify (fun _ => v) (Z.to_nat x)) (Z.to_nat y) plane)
      end
  end.

Definition set (m : symbol) (x y : Z) (v : bool) : outcome symbol :=
  md <- store (module m) (x + quietZoneSize m) (y + quietZoneSize m) v ;;
  us <- store (isUsed m) (x + quietZoneSize m) (y + quietZoneSize m) true ;;
  Ret (mkSymbol md us (size m) (symbolSize m) (quietZoneSize m)).

(** [set2dPattern]: [j], [row] and [i], [value] are the pairs of the two
    [range] loops. *)
Definition set2dPattern (m : symbol) (x y : Z) (v : list (list bool))
  : outcome symbol :=
  forM (combine (upto 0 (length v)) v)
       (fun m (jrow : Z * list bool) =>
          let (j, row) := jrow in
          forM (combine (upto 0 (length row)) row)
               (fun m (ivalue : Z * bool) =>
                  let (i, value) := ivalue in
                  set m (x + i) (y + j) value)
               m)
       m.

Definition bitmap (m : symbol) : list (list bool) := module m.

Definition penaltyWeight1 : Z := 3.
Definition penaltyWeight2 : Z := 3.
Definition penaltyWeight3 : Z := 40.
Definition penaltyWeight4 : Z := 10.

(** The state of one line of [penalty1]: [penalty], [lastValue], [count];
    the step is the body of the inner loop once [v] has been read. *)
Definition penalty1_step (st : Z * bool * Z) (v : bool) : Z * bool * Z :=
  let '(penalty, lastValue, count) := st in
  if negb (Bool.eqb v lastValue) then (penalty, v, 1)
  else
    let count := count + 1 in
    if count =? 6 then (penalty + (penaltyWeight1 + 1), lastValue, count)
    else if count >? 6 then (penalty + 1, lastValue, count)
    else (penalty, lastValue, count).

Definition penalty1 (m : symbol) : outcome Z :=
  penalty <-
    forM (upto 0 (Z.to_nat (symbolSize m)))
         (fun penalty x =>
            lastValue <- get m x 0 ;;
            st <- forM (upto 1 (Z.to_nat (symbolSize m - 1)))
                    (fun st y => v <- get m x y ;; Ret (penalty1_step st v))
                    (penalty, lastValue, 1) ;;
            Ret (fst (fst st)))
         0 ;;
  forM (upto 0 (Z.to_nat (symbolSize m)))
       (fun penalty y =>
          lastValue <- get m 0 y ;;
          st <- forM (upto 1 (Z.to_nat (symbolSize m - 1)))
                  (fun st x => v <- get m x y ;; Ret (penalty1_step st v))
                  (penalty, lastValue, 1) ;;
          Ret (fst (fst st)))
       penalty.

Definition penalty2 (m : symbol) : outcome Z :=
  penalty <-
    forM (upto 1 (Z.to_nat (symbolSize m - 1)))
         (fun penalty y =>
            forM (upto 1 (Z.to_nat (symbolSize m - 1)))
                 (fun penalty x =>
                    topLeft <- get m (x - 1) (y - 1) ;;
                    above <- get m x (y - 1) ;;
                    left <- get m (x - 1) y ;;
                    current <- get m x y ;;
                    Ret (if Bool.eqb current left && Bool.eqb current above
                            && Bool.eqb current topLeft
                         then penalty + 1 else penalty))
                 penalty)
         0 ;;
  Ret (penalty * penaltyWeight2).

(** The body of the inner loop of [penalty3] once [v] has been read; [last]
    says whether the counter is at [symbolSize-1].  [bitBuffer] is an
    [int16]: it is kept as its 16-bit pattern, which is all that [&] with
    0x7ff and 0x7f looks at. *)
Definition penalty3_step (last : bool) (st : Z * Z) (v : bool) : Z * Z :=
  let (penalty, bitBuffer) := st in
  let bitBuffer := Z.shiftl bitBuffer 1 mod 2 ^ 16 in
  let bitBuffer := if v then Z.lor bitBuffer 1 else bitBuffer in
  let low := Z.land bitBuffer 0x7ff in
  if (low =? 0x05d) || (low =? 0x5d0) then (penalty + penaltyWeight3, 0xFF)
  else if last && (Z.land bitBuffer 0x7f =? 0x5d)
       then (penalty + penaltyWeight3, 0xFF)
       else (penalty, bitBuffer).

Definition penalty3 (m : symbol) : outcome Z :=
  penalty <-
    forM (upto 0 (Z.to_nat (symbolSize m)))
         (fun penalty y =>
            st <- forM (upto 0 (Z.to_nat (symbolSize m)))
                    (fun st x =>
                       v <- get m x y ;;
                       Ret (penalty3_step (x =? symbolSize m - 1) st v))
                    (penalty, 0) ;;
            Ret (fst st))
         0 ;;
  forM (upto 0 (Z.to_nat (symbolSize m)))
       (fun penalty x =>
          st <- forM (upto 0 (Z.to_nat (symbolSize m)))
                  (fun st y =>
                     v <- get m x y ;;
                     Ret (penalty3_step (y =? symbolSize m - 1) st v))
                  (penalty, 0) ;;
          Ret (fst st))
       penalty.

Definition penalty4 (m : symbol) : outcome Z :=
  let numModules := symbolSize m * symbolSize m in
  numDarkModules <-
    forM (upto 0 (Z.to_nat (symbolSize m)))
         (fun n x =>
            forM (upto 0 (Z.to_nat (symbolSize m)))
                 (fun n y => v <- get m x y ;; Ret (if v then n + 1 else n))
                 n)
         0 ;;
  let numDarkModuleDeviation := Z.quot numModules 2 - numDarkModules in
  let numDarkModuleDeviation :=
    if numDarkModuleDeviation <? 0 then numDarkModuleDeviation * -1
    else numDarkModuleDeviation in
  if Z.quot numModules 20 =? 0 then Panic   (* integer divide by zero *)
  else Ret (penaltyWeight4 *
            Z.quot numDarkModuleDeviation (Z.quot numModules 20)).

Definition penaltyScore (m : symbol) : outcome Z :=
  p1 <- penalty1 m ;;
  p2 <- penalty2 m ;;
  p3 <- penalty3 m ;;
  p4 <- penalty4 m ;;
  Ret (p1 + p2 + p3 + p4).

(** ** package qrcode: segment classifier and bit encoder (encoder.go) *)

(** [dataMode] is a [uint8] holding one of four constants, [1 << iota]. *)
Inductive dataMode : Type :=
| dataModeNone | dataModeNumeric | dataModeAlphanumeric | dataModeByte.

Definition modeValue (m : dataMode) : Z :=
  match m with
  | dataModeNone => 1
  | dataModeNumeric => 2
  | dataModeAlphanumeric => 4
  | dataModeByte => 8
  end.

Definition dataMode_eqb (a b : dataMode) : bool := modeValue a =? modeValue b.

Inductive dataEncoderType : Type :=
| dataEncoderType1To9 | dataEncoderType10To26 | dataEncoderType27To40.

Record segment : Type := mkSegment {
  seg_dataMode : dataMode;
  seg_data : list Z
}.

Record dataEncoder : Type := mkDataEncoder {
  minVersion : Z;
  maxVersion : Z;
  numericModeIndicator : Bitset;
  alphanumericModeIndicator : Bitset;
  byteModeIndicator : Bitset;
  numNumericCharCountBits : Z;
  numAlphanumericCharCountBits : Z;
  numByteCharCountBits : Z;
  enc_data : list Z;          (* The raw input data. *)
  actual : list segment;      (* The data classified into segments. *)
  optimised : list segment    (* The optimised segments. *)
}.

Definition with_plan (d : dataEncoder) (raw : list Z) (act opt : list segment)
  : dataEncoder :=
  mkDataEncoder (minVersion d) (maxVersion d) (numericModeIndicator d)
    (alphanumericModeIndicator d) (byteModeIndicator d)
    (numNumericCharCountBits d) (numAlphanumericCharCountBits d)
    (numByteCharCountBits d) raw act opt.

(** The bit constants [b0], [b1] of the package are [false], [true].  The
    [default] branch of the source's switch needs a [dataEncoderType] other
    than the three constants, which this type does not have. *)
Definition newDataEncoder (t : dataEncoderType) : outcome dataEncoder :=
  nu <- New [false; false; false; true] ;;
  al <- New [false; false; true; false] ;;
  by_ <- New [false; true; false; false] ;;
  match t with
  | dataEncoderType1To9 => Ret (mkDataEncoder 1 9 nu al by_ 10 9 8 [] [] [])
  | dataEncoderType10To26 =>
      Ret (mkDataEncoder 10 26 nu al by_ 12 11 16 [] [] [])
  | dataEncoderType27To40 =>
      Ret (mkDataEncoder 27 40 nu al by_ 14 13 16 [] [] [])
  end.

Definition modeIndicator (d : dataEncoder) (m : dataMode) : outcome Bitset :=
  match m with
  | dataModeNumeric => Ret (numericModeIndicator d)
  | dataModeAlphanumeric => Ret (alphanumericModeIndicator d)
  | dataModeByte => Ret (byteModeIndicator d)
  | dataModeNone => Err "unknown data mode"%string
  end.

Definition charCountBits (d : dataEncoder) (m : dataMode) : outcome Z :=
  match m with
  | dataModeNumeric => Ret (numNumericCharCountBits d)
  | dataModeAlphanumeric => Ret (numAlphanumericCharCountBits d)
  | dataModeByte => Ret (numByteCharCountBits d)
  | dataModeNone => Err "unknown data mode"%string
  end.

(** The mode indicators are never nil here, so the source's
    ["mode not supported"] branch has no counterpart.  The widths
    [charCountBits] of the three encoders are at most 16, so [1 << ...]
    stays an [int]. *)
Definition encodedLength (d : dataEncoder) (m : dataMode) (n : Z) : outcome Z :=
  mi <- modeIndicator d m ;;
  ccb <- charCountBits d m ;;
  let maxLength := Z.shiftl 1 (ccb mod 256) - 1 in
  if n >? maxLength then Err "length too long to be represented"%string
  else
    let length := Len mi + ccb in
    Ret (match m with
         | dataModeNumeric =>
             let length := length + 10 * Z.quot n 3 in
             if negb (Z.rem n 3 =? 0) then length + (1 + 3 * Z.rem n 3)
             else length
         | dataModeAlphanumeric =>
             length + 11 * Z.quot n 2 + 6 * Z.rem n 2
         | dataModeByte => length + 8 * n
         | dataModeNone => length
         end).

Definition classify (v : Z) : dataMode :=
  if (v >=? 0x30) && (v <=? 0x39) then dataModeNumeric
  else if (v =? 0x20) || (v =? 0x24) || (v =? 0x25) || (v =? 0x2a)
          || (v =? 0x2b) || (v =? 0x2d) || (v =? 0x2e) || (v =? 0x2f)
          || (v =? 0x3a) || ((v >=? 0x41) && (v <=? 0x5a))
       then dataModeAlphanumeric
       else dataModeByte.

(** [d.data[lo:hi]] *)
Definition slice {A : Type} (l : list A) (lo hi : Z) : list A :=
  firstn (Z.to_nat (hi - lo)) (skipn (Z.to_nat lo) l).

(** The state of the loop of [classifyDataModes]: [d.actual], [start],
    [mode], [highestRequiredMode]; [iv] is the pair [(i, v)] of the range. *)
Definition classify_step (raw : list Z)
  (st : list segment * Z * dataMode * dataMode) (iv : Z * Z)
  : list segment * Z * dataMode * dataMode :=
  let '(act, start, mode, highest) := st in
  let (i, v) := iv in
  let newMode := classify v in
  let '(act, start, mode) :=
    if negb (dataMode_eqb newMode mode) then
      if i >? 0 then (act ++ [mkSegment mode (slice raw start i)], i, newMode)
      else (act, start, newMode)
    else (act, start, mode) in
  let highest :=
    if modeValue newMode >? modeValue highest then newMode else highest in
  (act, start, mode, highest).

(** Returns the encoder with [actual] filled and [highestRequiredMode]. *)
Definition classifyDataModes (d : dataEncoder) : dataEncoder * dataMode :=
  let raw := enc_data d in
  let '(act, start, mode, highest) :=
    fold_left (classify_step raw)
              (combine (upto 0 (length raw)) raw)
              (actual d, 0, dataModeNone, dataModeNone) in
  (with_plan d raw (act ++ [mkSegment mode (slice raw start (len raw))])
             (optimised d),
   highest).

(** [d.actual[i]] inside the loops of [optimiseDataModes], which keep [i]
    below [len(d.actual)]. *)
Definition segAt (act : list segment) (i : Z) : segment :=
  nth (Z.to_nat i) act (mkSegment dataModeNone []).

(** The inner loop of [optimiseDataModes]: returns [numChars] and [j]. *)
Fixpoint coalesce_loop (fuel : nat) (d : dataEncoder) (mode : dataMode)
  (numChars j : Z) : outcome (Z * Z) :=
  if j <? len (actual d) then
    match fuel with
    | O => Exhausted
    | S fuel' =>
        let nextNumChars := len (seg_data (segAt (actual d) j)) in
        let nextMode := seg_dataMode (segAt (actual d) j) in
        if modeValue nextMode >? modeValue mode then Ret (numChars, j)
        else
          coalescedLength <- encodedLength d mode (numChars + nextNumChars) ;;
          seperateLength1 <- encodedLength d mode numChars ;;
          seperateLength2 <- encodedLength d nextMode nextNumChars ;;
          if coalescedLength <? seperateLength1 + seperateLength2
          then coalesce_loop fuel' d mode (numChars + nextNumChars) (j + 1)
          else Ret (numChars, j)
    end
  else Ret (numChars, j).

(** The outer loop: returns [d.optimised]. *)
Fixpoint optimise_loop (fuel : nat) (d : dataEncoder) (i : Z)
  (opt : list segment) : outcome (list segment) :=
  if i <? len (actual d) then
    match fuel with
    | O => Exhausted
    | S fuel' =>
        let mode := seg_dataMode (segAt (actual d) i) in
        let numChars := len (seg_data (segAt (actual d) i)) in
        r <- coalesce_loop (length (actual d)) d mode numChars (i + 1) ;;
        let j := snd r in
        let merged :=
          mkSegment mode
            (concat (map (fun k => seg_data (segAt (actual d) k))
                         (upto i (Z.to_nat (j - i))))) in
        optimise_loop fuel' d j (opt ++ [merged])
    end
  else Ret opt.

(** Both loops advance their index at every iteration, so
    [len(d.actual)] units of fuel are enough
    (shown below, [optimiseDataModes_returns]). *)
Definition optimiseDataModes (d : dataEncoder) : outcome dataEncoder :=
  opt <- optimise_loop (length (actual d)) d 0 (optimised d) ;;
  Ret (with_plan d (enc_data d) (actual d) opt).

Definition encodeAlphanumericCharacter (v : Z) : outcome Z :=
  let c := v in
  if (c >=? 48) && (c <=? 57) then Ret (c - 48)
  else if (c >=? 65) && (c <=? 90) then Ret (c - 65 + 10)
  else if c =? 32 then Ret 36
  else if c =? 36 then Ret 37
  else if c =? 37 then Ret 38
  else if c =? 42 then Ret 39
  else if c =? 43 then Ret 40
  else if c =? 45 then Ret 41
  else if c =? 46 then Ret 42
  else if c =? 47 then Ret 43
  else if c =? 58 then Ret 44
  else Err "encodeAlphanumericCharacter() with non alphanumeric char %v"%string.

(** The groups [data[i:i+k]] of a loop [for i := 0; i < len(data); i += k]. *)
Fixpoint chunks {A : Type} (fuel : nat) (k : nat) (l : list A) : list (list A) :=
  match fuel, l with
  | O, _ | _, [] => []
  | S fuel', _ => firstn k l :: chunks fuel' k (skipn k l)
  end.

Definition encodeDataRaw (d : dataEncoder) (raw : list Z) (m : dataMode)
  (encoded : Bitset) : outcome Bitset :=
  mi <- modeIndicator d m ;;
  ccb <- charCountBits d m ;;
  encoded <- Append encoded mi ;;
  encoded <- AppendUint32 encoded (len raw mod 2 ^ 32) ccb ;;
  match m with
  | dataModeNumeric =>
      forM (chunks (length raw) 3 raw)
           (fun encoded group =>
              let value :=
                fold_left (fun value c =>
                             (value * 10 + (c - 0x30) mod 256) mod 2 ^ 32)
                          group 0 in
              let bitsUsed := 1 + 3 * len group in
              AppendUint32 encoded value bitsUsed)
           encoded
  | dataModeAlphanumeric =>
      forM (chunks (length raw) 2 raw)
           (fun encoded group =>
              value <- forM group
                         (fun value c =>
                            v <- encodeAlphanumericCharacter c ;;
                            Ret ((value * 45 + v) mod 2 ^ 32))
                         0 ;;
              let bitsUsed := if len group >? 1 then 11 else 6 in
              AppendUint32 encoded value bitsUsed)
           encoded
  | dataModeByte =>
      forM raw (fun encoded b => AppendByte encoded b 8) encoded
  | dataModeNone => Ret encoded
  end.

(** [dataEncoder.encode]: returns the encoder, whose [optimised] field is
    the plan that was emitted, and the emitted bits. *)
Definition encoder_encode (d : dataEncoder) (raw : list Z)
  : outcome (dataEncoder * Bitset) :=
  let d := with_plan d raw [] [] in
  if len raw =? 0 then Err "no data to encode"%string
  else
    let (d, highestRequiredMode) := classifyDataModes d in
    d <- optimiseDataModes d ;;
    optimizedLength <-
      forM (optimised d)
           (fun total s =>
              length <- encodedLength d (seg_dataMode s) (len (seg_data s)) ;;
              Ret (total + length))
           0 ;;
    singleByteSegmentLength <-
      encodedLength d highestRequiredMode (len (enc_data d)) ;;
    let d :=
      if singleByteSegmentLength <=? optimizedLength
      then with_plan d (enc_data d) (actual d)
             [mkSegment highestRequiredMode (enc_data d)]
      else d in
    encoded <- New [] ;;
    encoded <- forM (optimised d)
                 (fun encoded s =>
                    encodeDataRaw d (seg_data s) (seg_dataMode s) encoded)
                 encoded ;;
    Ret (d, encoded).

(** A Go string as the bytes of [[]byte(content)]. *)
Definition bytes_of_string (s : String.string) : list Z :=
  map (fun c => Z.of_N (Ascii.N_of_ascii c)) (String.list_ascii_of_string s).

(** ** package qrcode: versions *)

Inductive RecoveryLevel : Type := Low | Medium | High | Highest.

(** Modelled from the spec: the declaration of [qrCodeVersion] and its
    methods is not among the sources.  The record has the fields qrcode.go
    reads ([version], [block] with [numBlocks], [numCodewords],
    [numDataCodewords], and [numRemainderBits]); the spec's VersionSpec adds
    the level. *)
Record block : Type := mkBlock {
  numBlocks : Z;
  numCodewords : Z;
  numDataCodewords : Z
}.

Record qrCodeVersion : Type := mkVersion {
  version : Z;
  level : RecoveryLevel;
  blocks : list block;
  numRemainderBits : Z
}.

(** Modelled from the spec: "numDataBits(v,level) = 8 * sum over blocks of
    (numBlocks * dataCodewords)". *)
Definition numDataBits (v : qrCodeVersion) : Z :=
  8 * fold_left (fun n b => n + numBlocks b * numDataCodewords b) (blocks v) 0.

(** Modelled from the spec: "numTerminatorBitsRequired(encodedLen) =
    min(4, numDataBits - encodedLen)". *)
Definition numTerminatorBitsRequired (v : qrCodeVersion) (n : Z) : Z :=
  Z.min 4 (numDataBits v - n).

(** Modelled from the spec: "numBitsToPadToCodeword(len) = (8 - len%8) % 8". *)
Definition numBitsToPadToCodeword (v : qrCodeVersion) (n : Z) : Z :=
  Z.rem (8 - Z.rem n 8) 8.

(** Modelled from the spec: the number of blocks of the version's layout,
    the sum of [numBlocks] over its groups. *)
Definition version_numBlocks (v : qrCodeVersion) : Z :=
  fold_left (fun n b => n + numBlocks b) (blocks v) 0.

(** ** package qrcode: QRCode (qrcode.go) *)

(** The drawing options [ForegroundColor], [BackgroundColor] and [Base64]
    are read by the renderers only and are left out. *)
Record QRCode : Type := mkQRCode {
  content : String.string;
  q_level : RecoveryLevel;
  versionNumber : Z;
  Margin : Z;
  encoder : dataEncoder;
  q_version : qrCodeVersion;
  data : Bitset;
  q_symbol : option symbol;
  mask : Z
}.

Definition with_data (q : QRCode) (b : Bitset) : QRCode :=
  mkQRCode (content q) (q_level q) (versionNumber q) (Margin q) (encoder q)
           (q_version q) b (q_symbol q) (mask q).

Definition with_symbol (q : QRCode) (s : option symbol) (m : Z) : QRCode :=
  mkQRCode (content q) (q_level q) (versionNumber q) (Margin q) (encoder q)
           (q_version q) (data q) s m.

Definition addTerminatorBits (q : QRCode) (numTerminatorBits : Z)
  : outcome QRCode :=
  b <- AppendNumBools (data q) numTerminatorBits false ;;
  Ret (with_data q b).

(** The loop [for numDataBits-q.data.Len() >= 8] of [addPadding]: [i]
    alternates between the two pad codewords. *)
Fixpoint addPadding_loop (fuel : nat) (numDataBits_ : Z) (padding : list Bitset)
  (i : Z) (b : Bitset) : outcome Bitset :=
  if numDataBits_ - Len b >=? 8 then
    match fuel with
    | O => Exhausted
    | S fuel' =>
        match index padding i with
        | None => Panic
        | Some p =>
            b' <- Append b p ;;
            addPadding_loop fuel' numDataBits_ padding (1 - i) b'
        end
    end
  else Ret b.

(** Each iteration appends eight bits, so [numDataBits] iterations are more
    than the loop can make. *)
Definition addPadding (q : QRCode) : outcome QRCode :=
  let numDataBits_ := numDataBits (q_version q) in
  if Len (data q) =? numDataBits_ then Ret q
  else
    b <- AppendNumBools (data q)
           (numBitsToPadToCodeword (q_version q) (Len (data q))) false ;;
    p0 <- New [true; true; true; false; true; true; false; false] ;;
    p1 <- New [false; false; false; true; false; false; false; true] ;;
    b <- addPadding_loop (Z.to_nat numDataBits_) numDataBits_ [p0; p1] 0 b ;;
    if negb (Len b =? numDataBits_)
    then Err "BUG: got len %d, expected %d"%string
    else Ret (with_data q b).

Record dataBlock : Type := mkDataBlock {
  blk_data : Bitset;
  ecStartOffset : Z
}.

(** The first loop of [encodeBlocks]: the state is the blocks assigned so
    far (in the order of [blockID]), [start] and [end]. *)
Definition splitBlocks (q : QRCode) : outcome (list dataBlock) :=
  r <- forM (blocks (q_version q))
         (fun st b =>
            forM (upto 0 (Z.to_nat (numBlocks b)))
                 (fun (st : list dataBlock * Z * Z) _ =>
                    let '(blks, start, stop) := st in
                    let start := stop in
                    let stop := start + numDataCodewords b * 8 in
                    let numErrorCodewords :=
                      numCodewords b - numDataCodewords b in
                    substr <- Substr (data q) start stop ;;
                    d <- reedsolomon.Encode substr numErrorCodewords ;;
                    Ret (blks ++ [mkDataBlock d (stop - start)], start, stop))
                 st)
         ([], 0, 0) ;;
  (* [block] has [numBlocks()] entries: assigning past it panics, and an
     entry left unassigned holds a nil bitset, dereferenced below. *)
  if len (fst (fst r)) =? version_numBlocks (q_version q)
  then Ret (fst (fst r)) else Panic.

(** [for i := 0; working; i += 8] over the data codewords. *)
Fixpoint combineData (fuel : nat) (blks : list dataBlock) (i : Z)
  (result : Bitset) : outcome Bitset :=
  match fuel with
  | O => Exhausted
  | S fuel' =>
      r <- forM blks
             (fun (st : Bitset * bool) b =>
                if i >=? ecStartOffset b then Ret st
                else
                  substr <- Substr (blk_data b) i (i + 8) ;;
                  result <- Append (fst st) substr ;;
                  Ret (result, true))
             (result, false) ;;
      if snd r then combineData fuel' blks (i + 8) (fst r) else Ret (fst r)
  end.

(** [for i := 0; working; i += 8] over the error correction codewords. *)
Fixpoint combineEC (fuel : nat) (blks : list dataBlock) (i : Z)
  (result : Bitset) : outcome Bitset :=
  match fuel with
  | O => Exhausted
  | S fuel' =>
      r <- forM blks
             (fun (st : Bitset * bool) b =>
                let offset := i + ecStartOffset b in
                if offset >=? Len (blk_data b) then Ret st
                else
                  substr <- Substr (blk_data b) offset (offset + 8) ;;
                  result <- Append (fst st) substr ;;
                  Ret (result, true))
             (result, false) ;;
      if snd r then combineEC fuel' blks (i + 8) (fst r) else Ret (fst r)
  end.

(** The interleaving loops move [i] by eight at every iteration and stop
    once [i] has passed every block, which bounds their fuel. *)
Definition encodeBlocks (q : QRCode) : outcome Bitset :=
  blks <- splitBlocks q ;;
  let bound :=
    fold_left (fun n b => Z.max n (Z.max (ecStartOffset b) (Len (blk_data b))))
              blks 0 in
  result <- New [] ;;
  result <- combineData (S (Z.to_nat bound)) blks 0 result ;;
  result <- combineEC (S (Z.to_nat bound)) blks 0 result ;;
  AppendNumBools result (numRemainderBits (q_version q)) false.

Section Collaborators.

(** [chooseQRCodeVersion] and [buildRegularSymbol] are functions of this
    package whose files are not among the sources; [New] and [encode] are
    embedded over them. *)
Variable chooseQRCodeVersion :
  RecoveryLevel -> dataEncoder -> Z -> option qrCodeVersion.
Variable buildRegularSymbol :
  qrCodeVersion -> Z -> Bitset -> Z -> outcome symbol.

(** The variables [encoder], [encoded], [chosenVersion] and [err] of [New]. *)
Record New_state : Type := mkNewState {
  st_encoder : option dataEncoder;
  st_encoded : option Bitset;
  st_chosenVersion : option qrCodeVersion;
  st_err : option String.string
}.

(** The loop over the three encoder types; [continue] goes on with the
    rest, [break] and [return] stop. *)
Fixpoint New_loop (ts : list dataEncoderType) (content_ : String.string)
  (level_ : RecoveryLevel) (st : New_state) : outcome New_state :=
  match ts with
  | [] => Ret st
  | t :: ts' =>
      e <- newDataEncoder t ;;
      match encoder_encode e (bytes_of_string content_) with
      | Err msg =>
          New_loop ts' content_ level_
            (mkNewState (Some e) None (st_chosenVersion st) (Some msg))
      | Ret (e', encoded) =>
          match chooseQRCodeVersion level_ e' (Len encoded) with
          | Some v => Ret (mkNewState (Some e') (Some encoded) (Some v) None)
          | None =>
              New_loop ts' content_ level_
                (mkNewState (Some e') (Some encoded) None None)
          end
      | Panic => Panic
      | Exhausted => Exhausted
      end
  end.

Definition New (content_ : String.string) (level_ : RecoveryLevel)
  : outcome QRCode :=
  st <- New_loop [dataEncoderType1To9; dataEncoderType10To26;
                  dataEncoderType27To40]
          content_ level_ (mkNewState None None None None) ;;
  match st_err st with
  | Some msg => Err msg
  | None =>
      match st_chosenVersion st, st_encoder st, st_encoded st with
      | None, _, _ => Err "content too long to encode"%string
      | Some v, Some e, Some encoded =>
          Ret (mkQRCode content_ level_ (version v) 4 e v encoded None 0)
      | Some _, _, _ => Panic
      end
  end.

(** One iteration of the mask loop of [encode]: the state is [q.symbol],
    [q.mask] and [penalty]. *)
Definition encode_step (q : QRCode) (encoded : Bitset)
  (st : option symbol * Z * Z) (mask_ : Z) : outcome (option symbol * Z * Z) :=
  let '(sym, msk, penalty) := st in
  s <- buildRegularSymbol (q_version q) mask_ encoded (Margin q) ;;
  numEmpty <- numEmptyModules s ;;
  if negb (numEmpty =? 0)
  then Err "bug: numEmptyModules is %d (expected 0) (version=%d)"%string
  else
    p <- penaltyScore s ;;
    Ret (match sym with
         | None => (Some s, mask_, p)
         | Some _ => if p <? penalty then (Some s, mask_, p) else st
         end).

(** [QRCode.encode]: the receiver after the call. *)
Definition encode (q : QRCode) : outcome QRCode :=
  let numTerminatorBits :=
    numTerminatorBitsRequired (q_version q) (Len (data q)) in
  q <- addTerminatorBits q numTerminatorBits ;;
  q <- addPadding q ;;
  encoded <- encodeBlocks q ;;
  r <- forM (upto 0 8) (encode_step q encoded) (q_symbol q, mask q, 0) ;;
  Ret (with_symbol q (fst (fst r)) (snd (fst r))).

End Collaborators.

End qrcode.

(** * Vocabulary of the statements *)

Import bitset reedsolomon qrcode.

(** ** Bit buffers *)

(** Bit [k] of a byte slice, most significant bit of each byte first. *)
Definition rawbit (l : list Z) (k : Z) : bool :=
  Z.testbit (at_ l (k / 8)) (7 - k mod 8).

(** The storage reaches the last stored bit. *)
Definition covered (b : Bitset) : Prop :=
  0 <= numBits b <= 8 * len (bits b).

(** The storage reaches the last stored bit and holds only zero bits past
    it: the state [New], the appends and [Substr] leave a buffer in, and the
    one the appends rely on ([|=] sets bits, it never clears one). *)
Definition clean (b : Bitset) : Prop :=
  covered b /\ forall k, numBits b <= k -> rawbit (bits b) k = false.

(** [clean], decided on the bits the storage has. *)
Definition cleanb (b : Bitset) : bool :=
  (0 <=? numBits b) && (numBits b <=? 8 * len (bits b))
  && forallb (fun k => negb (rawbit (bits b) k))
             (upto (numBits b) (Z.to_nat (8 * len (bits b) - numBits b))).

(** The bits that [ByteAt b i] reads: [min 8 (Len b - i)] of them. *)
Definition available (b : Bitset) (i : Z) : Z := Z.min 8 (numBits b - i).

(** The reading of [ByteAt] in the spec: the bits read are the most
    significant bits of the byte [r]. *)
Definition leftAligned (b : Bitset) (i r : Z) : Prop :=
  forall j, 0 <= j < available b i -> At b (i + j) = Ret (Z.testbit r (7 - j)).

(** The value that [ByteAt b i] returns, where it returns one. *)
Definition byteValue (b : Bitset) (i : Z) : Z :=
  match ByteAt b i with
  | Ret r => r
  | _ => 0
  end.

(** ** GF(2^8) and polynomials *)

Definition byte (x : Z) : Prop := 0 <= x < 256.

(** The sum in GF(2^8) of [f x] over [xs]. *)
Definition xsum {A : Type} (f : A -> Z) (xs : list A) : Z :=
  fold_right (fun x acc => Z.lxor (f x) acc) 0 xs.

(** [a * b] from the products of [a] by the powers of two in [b]. *)
Definition basisSum (a b : Z) : Z :=
  xsum (fun i => if Z.testbit b i then gfMultiply a (2 ^ i) else 0) (upto 0 8).

(** The degree of a coefficient list, constant term first: the index of its
    last non-zero term, [-1] for the zero polynomial. *)
Fixpoint degree (t : list Z) : Z :=
  match t with
  | [] => -1
  | c :: t' =>
      let d := degree t' in
      if d >=? 0 then d + 1 else if c =? 0 then -1 else 0
  end.

(** Normalised: [numTerms] is [degree + 1], which is 0 for the zero
    polynomial. *)
Definition normal (p : gfPoly) : Prop := numTerms p = degree (term p) + 1.

(** The values that the polynomial operations hand out. *)
Inductive produced : gfPoly -> Prop :=
| produced_monomial c d p : newGFPolyMonomial c d = Ret p -> produced p
| produced_add a b : produced (gfPolyAdd a b)
| produced_multiply a b : produced (gfPolyMultiply a b)
| produced_remainder n d r : gfPolyRemainder n d = Ret r -> produced r.

(** Coefficient [n] of a polynomial given by its terms, constant first;
    zero outside the list. *)
Definition coef (p : list Z) (n : Z) : Z := if n <? 0 then 0 else at_ p n.

(** Every coefficient is a byte. *)
Definition bytes (f : Z -> Z) : Prop := forall n, byte (f n).

(** Sum and Cauchy product of coefficient functions over GF(2^8):
    [(f g)_n] is the sum of [f_i g_(n-i)]. *)
Definition cadd (f g : Z -> Z) (n : Z) : Z := gfAdd (f n) (g n).

Definition cmul (f g : Z -> Z) (n : Z) : Z :=
  xsum (fun i => gfMultiply (f i) (g (n - i))) (upto 0 (Z.to_nat (n + 1))).

(** [alpha^i] for the primitive element [alpha = 2]. *)
Definition alphaPow (i : nat) : Z := Nat.iter i (gfMultiply 2) 1.

(** [G_k = prod_{i < k} (x + alpha^i)], as a coefficient function. *)
Fixpoint generator (k : nat) : Z -> Z :=
  match k with
  | O => coef [1]
  | S k' => cmul (generator k') (coef [alphaPow k'; 1])
  end.

(** ** Symbols *)

(** The planes are as [newSymbol] allocates them. *)
Definition allocated (s : symbol) : Prop :=
  0 <= quietZoneSize s /\ 0 <= symbolSize s
  /\ len (module s) = symbolSize s + 2 * quietZoneSize s
  /\ Forall (fun row => len row = symbolSize s + 2 * quietZoneSize s)
            (module s).

(** The modules of the symbol proper, row by row, quiet zone excluded. *)
Definition region (s : symbol) : list (list bool) :=
  map (fun row => slice row (quietZoneSize s) (quietZoneSize s + symbolSize s))
      (slice (module s) (quietZoneSize s) (quietZoneSize s + symbolSize s)).

Definition darkModules (s : symbol) : Z :=
  len (filter (fun v : bool => v) (concat (region s))).

Definition totalModules (s : symbol) : Z := symbolSize s * symbolSize s.

(** The symbol with every module value inverted. *)
Definition invert (s : symbol) : symbol :=
  mkSymbol (map (map negb) (module s)) (isUsed s) (size s) (symbolSize s)
           (quietZoneSize s).

Definition zsum {A : Type} (f : A -> Z) (xs : list A) : Z :=
  fold_right (fun x a => f x + a) 0 xs.

(** The value [get] reads, for coordinates inside the symbol. *)
Definition moduleAt (s : symbol) (x y : Z) : bool :=
  nth (Z.to_nat (x + quietZoneSize s))
      (nth (Z.to_nat (y + quietZoneSize s)) (module s) []) false.

(** Rule P4 as the spec words it: [w4 * floor(d / 5)] with
    [d = |dark * 100 / total - 50| * 2]. *)
Definition claimedPenalty4 (s : symbol) : Z :=
  penaltyWeight4
  * (Z.abs (darkModules s * 100 / totalModules s - 50) * 2 / 5).

(** The lengths of the maximal same-colour runs of a line, in order;
    [runsFrom last count l] continues a run of [count] modules of colour
    [last]. *)
Fixpoint runsFrom (last : bool) (count : Z) (l : list bool) : list Z :=
  match l with
  | [] => [count]
  | v :: t =>
      if Bool.eqb v last then runsFrom last (count + 1) t
      else count :: runsFrom v 1 t
  end.

Definition runs (l : list bool) : list Z :=
  match l with
  | [] => []
  | v :: t => runsFrom v 1 t
  end.

(** Column [x] of the symbol proper, top to bottom. *)
Definition columnOf (s : symbol) (x : Z) : list bool :=
  map (fun row => nth (Z.to_nat x) row false) (region s).

(** The lines rule P1 scans: the columns, then the rows. *)
Definition lines (s : symbol) : list (list bool) :=
  map (columnOf s) (upto 0 (Z.to_nat (symbolSize s))) ++ region s.

(** What a run of length [L] adds according to the rule as the spec words
    it, and according to the loop of [penalty1]. *)
Definition claimedRun (L : Z) : Z :=
  if L >=? 5 then penaltyWeight1 + (L - 5) else 0.

Definition scoredRun (L : Z) : Z :=
  if L >=? 6 then penaltyWeight1 + (L - 5) else 0.

Definition claimedPenalty1 (s : symbol) : Z :=
  zsum (fun l => zsum claimedRun (runs l)) (lines s).

(** ** Segment plans *)

(** The encoded length of a segment plan: the sum that
    [dataEncoder.encode] takes over [d.optimised]. *)
Definition planLength (d : dataEncoder) (plan : list segment) : outcome Z :=
  forM plan
       (fun total s =>
          length <- encodedLength d (seg_dataMode s) (len (seg_data s)) ;;
          Ret (total + length))
       0.

(** ** Mask candidates *)

(** The candidate symbol of [encode] for a mask and its penalty score, where
    the source computes them. *)
Definition candidate
  (buildRegularSymbol : qrCodeVersion -> Z -> Bitset -> Z -> outcome symbol)
  (q : QRCode) (encoded : Bitset) (m : Z) : symbol :=
  match buildRegularSymbol (q_version q) m encoded (Margin q) with
  | Ret s => s
  | _ => mkSymbol [] [] 0 0 0
  end.

Definition score
  (buildRegularSymbol : qrCodeVersion -> Z -> Bitset -> Z -> outcome symbol)
  (q : QRCode) (encoded : Bitset) (m : Z) : Z :=
  match penaltyScore (candidate buildRegularSymbol q encoded m) with
  | Ret p => p
  | _ => 0
  end.

(** What the mask loop has established once the masks [seen] are done: the
    state holds the first mask of least score among them. *)
Definition chosen
  (buildRegularSymbol : qrCodeVersion -> Z -> Bitset -> Z -> outcome symbol)
  (q : QRCode) (encoded : Bitset) (seen : list Z)
  (st : option symbol * Z * Z) : Prop :=
  let '(sym, msk, pen) := st in
  In msk seen
  /\ sym = Some (candidate buildRegularSymbol q encoded msk)
  /\ pen = score buildRegularSymbol q encoded msk
  /\ (forall m, In m seen ->
        score buildRegularSymbol q encoded msk
        <= score buildRegularSymbol q encoded m)
  /\ (forall m, In m seen -> m < msk ->
        score buildRegularSymbol q encoded msk
        < score buildRegularSymbol q encoded m).

(** A plane of [N] rows of [N] modules. *)
Definition square (N : Z) (plane : list (list bool)) : Prop :=
  len plane = N /\ Forall (fun row => len row = N) plane.

(** Both planes are as [newSymbol] allocates them. *)
Definition wellSized (s : symbol) : Prop :=
  allocated s
  /\ size s = symbolSize s + 2 * quietZoneSize s
  /\ len (isUsed s) = symbolSize s + 2 * quietZoneSize s
  /\ Forall (fun row => len row = symbolSize s + 2 * quietZoneSize s)
            (isUsed s).

(** The coordinates [get] and [set] accept: the symbol and its quiet
    zone. *)
Definition onGrid (s : symbol) (x y : Z) : bool :=
  (- quietZoneSize s <=? x) && (x <? symbolSize s + quietZoneSize s)
  && (- quietZoneSize s <=? y) && (y <? symbolSize s + quietZoneSize s).

(** ** Segments *)

(** A segment that is not empty and whose bytes are all of its class. *)
Definition homogeneous (sg : segment) : Prop :=
  seg_data sg <> []
  /\ Forall (fun v => classify v = seg_dataMode sg) (seg_data sg).

(** The state of the loop of [classifyDataModes] before the byte at index
    [i]: the segments closed so far are the maximal runs of one class of
    [raw[0:start]], the bytes from [start] on are of class [mode], and
    [highest] is the greatest class seen. *)
Definition classifiedUpTo (raw : list Z) (i : Z)
  (st : list segment * Z * dataMode * dataMode) : Prop :=
  let '(act, start, mode, highest) := st in
  0 <= start <= i
  /\ concat (map seg_data act) = firstn (Z.to_nat start) raw
  /\ Forall homogeneous act
  /\ (forall k, 0 <= k -> k + 1 < len act ->
        seg_dataMode (segAt act k) <> seg_dataMode (segAt act (k + 1)))
  /\ (forall pre sg, act = pre ++ [sg] -> seg_dataMode sg <> mode)
  /\ (i = 0 -> act = [] /\ mode = dataModeNone /\ highest = dataModeNone)
  /\ (0 < i ->
      start < i
      /\ (forall k, start <= k < i -> classify (at_ raw k) = mode)
      /\ (forall k, 0 <= k < i ->
            modeValue (classify (at_ raw k)) <= modeValue highest)
      /\ exists k, 0 <= k < i /\ classify (at_ raw k) = highest).

(** * Example inputs *)

(** [bitset.New(true)]. *)
Definition oneBit : Bitset := mkBitset 1 [128].

(** Eleven bits, [10100101 111]. *)
Definition elevenBits : Bitset := mkBitset 11 [165; 224].

(** One zero codeword. *)
Definition eightZeroBits : Bitset := mkBitset 8 [0].

(** The codewords 1 and 2, as [New] followed by two [AppendByte] leave
    them: sixteen bits in five bytes of storage. *)
Definition twoCodewords : Bitset := mkBitset 16 [1; 2; 0; 0; 0].

(** The same buffer once [Encode(b, 3)] has run on it: [Clone] shares the
    storage and five bytes were enough for the result, so the three
    error-correction bytes went into the storage of [b] itself. *)
Definition twoCodewordsReused : Bitset := mkBitset 16 [1; 2; 21; 62; 40].

(** The sixteen data codewords of "HELLO WORLD" at version 1-M. *)
Definition helloCodewords : Bitset :=
  mkBitset 128 [32; 91; 11; 120; 209; 114; 220; 77; 67; 64; 236; 17; 236; 17;
                236; 17].

(** A symbol of side [n] with quiet zone [q] whose module [(x, y)] is
    [f x y]: what [newSymbol] and a [set] on every module give. *)
Definition painted (n q : Z) (f : Z -> Z -> bool) : symbol :=
  let side := upto 0 (Z.to_nat (n + 2 * q)) in
  let inside x y :=
    (q <=? x) && (x <? q + n) && (q <=? y) && (y <? q + n) in
  mkSymbol
    (map (fun y => map (fun x => inside x y && f (x - q) (y - q)) side) side)
    (map (fun y => map (fun x => inside x y) side) side)
    (n + 2 * q) n q.

(** The symbol [newSymbol(21, 4)] allocates: every module light. *)
Definition blank21 : symbol :=
  mkSymbol (repeat (repeat false 29) 29) (repeat (repeat false 29) 29) 29 21 4.

(** A version-1 symbol with 199 dark modules of 441: the top nine rows and
    ten modules of the next. *)
Definition dark199 : symbol := painted 21 4 (fun x y => y * 21 + x <? 199).

(** A version-1 checkerboard but for one run of exactly five dark modules,
    at the start of the top row. *)
Definition run5 : symbol :=
  painted 21 4 (fun x y => Z.even (x + y) || ((y =? 0) && (x <? 5))).

(** The encoder [newDataEncoder(dataEncoderType1To9)] returns. *)
Definition encoder1To9 : dataEncoder :=
  mkDataEncoder 1 9 (mkBitset 4 [16]) (mkBitset 4 [32]) (mkBitset 4 [64])
                10 9 8 [] [] [].

(** The mask patterns of the spec, section 4.8. *)
Definition maskBit (m x y : Z) : bool :=
  if m =? 0 then (x + y) mod 2 =? 0
  else if m =? 1 then y mod 2 =? 0
  else if m =? 2 then x mod 3 =? 0
  else if m =? 3 then (x + y) mod 3 =? 0
  else if m =? 4 then (y / 2 + x / 3) mod 2 =? 0
  else if m =? 5 then (x * y) mod 2 + (x * y) mod 3 =? 0
  else if m =? 6 then ((x * y) mod 2 + (x * y) mod 3) mod 2 =? 0
  else ((x + y) mod 2 + (x * y) mod 3) mod 2 =? 0.

(** A stand-in for [buildRegularSymbol], whose file is not among the
    sources, to run [encode] on: it lays the bit stream out row by row
    (repeating it to fill the grid) and applies the mask to every module.
    The function patterns of the real template are left out. *)
Definition sampleBuildSymbol (v : qrCodeVersion) (m : Z) (encoded : Bitset)
  (margin : Z) : outcome symbol :=
  let n := 17 + 4 * version v in
  s <- newSymbol n margin ;;
  forM (upto 0 (Z.to_nat (n * n)))
       (fun s k =>
          bit <- At encoded (k mod numBits encoded) ;;
          set s (k mod n) (k / n) (xorb bit (maskBit m (k mod n) (k / n))))
       s.

(** Version 1 at level M: one block of 26 codewords, 16 of them data. *)
Definition version1M : qrCodeVersion := mkVersion 1 Medium [mkBlock 1 26 16] 0.

(** What [New("HELLO WORLD", Medium)] returns when version 1 is chosen:
    the 74 bits of one alphanumeric segment. *)
Definition helloQR : QRCode :=
  mkQRCode "HELLO WORLD"%string Medium 1 4
    (mkDataEncoder 1 9 (mkBitset 4 [16]) (mkBitset 4 [32]) (mkBitset 4 [64])
       10 9 8 [72; 69; 76; 76; 79; 32; 87; 79; 82; 76; 68]
       [mkSegment dataModeAlphanumeric
          [72; 69; 76; 76; 79; 32; 87; 79; 82; 76; 68]]
       [mkSegment dataModeAlphanumeric
          [72; 69; 76; 76; 79; 32; 87; 79; 82; 76; 68]])
    version1M
    (mkBitset 74 [32; 91; 11; 120; 209; 114; 220; 77; 67; 64; 0; 0; 0; 0; 0;
                  0; 0; 0; 0; 0; 0])
    None 0.

(** [helloQR] once [encode] has run on it. *)
Definition helloQREncoded : QRCode :=
  match encode sampleBuildSymbol helloQR with
  | Ret q => q
  | _ => helloQR
  end.

(** * Properties *)

(** ** Loops and slices *)

Section Loops.

Lemma bind_Ret_inv {A B : Type} (m : outcome A) (k : A -> outcome B) (b : B) :
  bind m k = Ret b -> exists a, m = Ret a /\ k a = Ret b.
Proof.
  destruct m as [a | | |]; simpl; intros H; try discriminate.
  exists a; split; [reflexivity | exact H].
Qed.

Lemma forM_app {S A : Type} (xs ys : list A) (body : S -> A -> outcome S) s :
  forM (xs ++ ys) body s = (s' <- forM xs body s ;; forM ys body s').
Proof.
  revert s; induction xs as [| x xs IH]; intros s; simpl; [reflexivity |].
  destruct (body s x); simpl; auto.
Qed.

(** An invariant kept by every returning iteration holds when the loop
    returns. *)
Lemma forM_inv {S A : Type} (P : S -> Prop) (body : S -> A -> outcome S) :
  forall xs s r,
    (forall s x s', In x xs -> P s -> body s x = Ret s' -> P s') ->
    P s -> forM xs body s = Ret r -> P r.
Proof.
  induction xs as [| x xs IH]; intros s r Hstep Hs Hrun; simpl in Hrun.
  - injection Hrun as <-; exact Hs.
  - apply bind_Ret_inv in Hrun as (s' & Hb & Hrest).
    eapply IH; [| | exact Hrest].
    + intros; eapply Hstep; eauto; right; assumption.
    + eapply Hstep; eauto; left; reflexivity.
Qed.

(** A loop whose body never fails is a fold. *)
Lemma forM_pure {S A : Type} (body : S -> A -> outcome S) (f : S -> A -> S) :
  forall xs s,
    (forall s x, In x xs -> body s x = Ret (f s x)) ->
    forM xs body s = Ret (fold_left f xs s).
Proof.
  induction xs as [| x xs IH]; intros s H; simpl; [reflexivity |].
  rewrite H by (left; reflexivity); simpl.
  apply IH; intros; apply H; right; assumption.
Qed.

Lemma upto_S lo n : upto lo (S n) = lo :: upto (lo + 1) n.
Proof.
  unfold upto; simpl; rewrite Z.add_0_r; f_equal.
  rewrite <- seq_shift, map_map.
  apply map_ext; intros; lia.
Qed.

Lemma upto_snoc lo n : upto lo (S n) = upto lo n ++ [lo + Z.of_nat n].
Proof.
  unfold upto; rewrite seq_S, map_app; reflexivity.
Qed.

Lemma length_upto lo n : length (upto lo n) = n.
Proof. unfold upto; rewrite length_map, length_seq; reflexivity. Qed.

Lemma In_upto lo n x : In x (upto lo n) <-> lo <= x < lo + Z.of_nat n.
Proof.
  unfold upto; rewrite in_map_iff; split.
  - intros (j & <- & Hj); apply in_seq in Hj; lia.
  - intros H; exists (Z.to_nat (x - lo)); split; [lia |].
    apply in_seq; lia.
Qed.

Lemma nth_upto lo n k d :
  (k < n)%nat -> nth k (upto lo n) d = lo + Z.of_nat k.
Proof.
  intros H; unfold upto.
  rewrite nth_indep with (d' := lo + Z.of_nat 0)
    by (rewrite length_map, length_seq; exact H).
  rewrite map_nth with (f := fun j => lo + Z.of_nat j), seq_nth by exact H.
  reflexivity.
Qed.

Lemma index_Some {A : Type} (l : list A) i (d : A) :
  0 <= i < len l -> index l i = Some (nth (Z.to_nat i) l d).
Proof.
  unfold index, len; intros H.
  destruct (Z.ltb_spec i 0); [lia |].
  apply nth_error_nth'; lia.
Qed.

Lemma index_None {A : Type} (l : list A) i :
  i < 0 \/ len l <= i -> index l i = None.
Proof.
  unfold index, len; intros H.
  destruct (Z.ltb_spec i 0); [reflexivity |].
  apply nth_error_None; lia.
Qed.

Lemma index_inv {A : Type} (l : list A) i x (d : A) :
  index l i = Some x -> 0 <= i < len l /\ x = nth (Z.to_nat i) l d.
Proof.
  unfold index, len; destruct (Z.ltb_spec i 0) as [Hi | Hi];
    [discriminate |]; intros Hx.
  assert (Hlt : (Z.to_nat i < length l)%nat)
    by (apply nth_error_Some; congruence).
  split; [lia |].
  rewrite (nth_error_nth' l d Hlt) in Hx; congruence.
Qed.

Lemma length_modify {A : Type} (f : A -> A) n (l : list A) :
  length (modify f n l) = length l.
Proof.
  revert n; induction l as [| x l IH]; intros [| n]; simpl; auto.
Qed.

Lemma nth_modify {A : Type} (f : A -> A) n k (l : list A) d :
  (n < length l)%nat ->
  nth k (modify f n l) d = if Nat.eqb k n then f (nth n l d) else nth k l d.
Proof.
  revert n k; induction l as [| x l IH]; intros [| n] [| k] H; simpl in *;
    try lia; try reflexivity.
  apply IH; lia.
Qed.

Lemma Ret_inj {A : Type} (a b : A) : Ret a = Ret b -> a = b.
Proof. congruence. Qed.

Lemma fold_left_mapped {A B C : Type} (f : A -> B -> A) (g : C -> B) l a :
  fold_left f (map g l) a = fold_left (fun a x => f a (g x)) l a.
Proof. revert a; induction l; intros; simpl; auto. Qed.

End Loops.

(** ** Bit buffers: reading *)

Section BitsetFacts.

Lemma land_pow2_eqb x j :
  0 <= j -> (Z.land x (2 ^ j) =? 0) = negb (Z.testbit x j).
Proof.
  intros Hj.
  assert (Hp : 0 < 2 ^ j) by (apply Z.pow_pos_nonneg; lia).
  destruct (Z.testbit x j) eqn:E; simpl.
  - replace (Z.land x (2 ^ j)) with (2 ^ j); [apply Z.eqb_neq; lia |].
    apply Z.bits_inj'; intros n Hn.
    rewrite Z.land_spec, Z.pow2_bits_eqb by lia.
    destruct (Z.eqb_spec j n) as [-> | _];
      [rewrite E | rewrite andb_false_r]; reflexivity.
  - replace (Z.land x (2 ^ j)) with 0; [reflexivity |].
    apply Z.bits_inj'; intros n Hn.
    rewrite Z.land_spec, Z.pow2_bits_eqb, Z.bits_0 by lia.
    destruct (Z.eqb_spec j n) as [-> | _];
      [rewrite E | rewrite andb_false_r]; reflexivity.
Qed.

Lemma shiftr_128 r : 0 <= r < 8 -> Z.shiftr 128 r = 2 ^ (7 - r).
Proof.
  intros H.
  assert (C : r = 0 \/ r = 1 \/ r = 2 \/ r = 3 \/ r = 4 \/ r = 5 \/ r = 6
              \/ r = 7) by lia.
  repeat (destruct C as [-> | C]; [reflexivity |]); subst; reflexivity.
Qed.

Lemma mask_test x r :
  0 <= r < 8 -> negb (Z.land x (Z.shiftr 128 r) =? 0) = Z.testbit x (7 - r).
Proof.
  intros H; rewrite shiftr_128, land_pow2_eqb by lia.
  apply negb_involutive.
Qed.

Lemma At_rawbit b k :
  covered b -> 0 <= k < numBits b -> At b k = Ret (rawbit (bits b) k).
Proof.
  intros [_ Hc] Hk; unfold At, rawbit, at_.
  destruct (Z.geb_spec k (numBits b)); [lia |].
  rewrite Z.quot_div_nonneg, Z.rem_mod_nonneg by lia.
  assert (Hq : 0 <= k / 8 < len (bits b)).
  { split; [apply Z.div_pos; lia |].
    apply Z.div_lt_upper_bound; lia. }
  rewrite (index_Some _ _ 0 Hq).
  assert (Hm : 0 <= k mod 8 < 8) by (apply Z.mod_pos_bound; lia).
  rewrite (Z.mod_small (k mod 8) 256) by lia.
  rewrite mask_test by lia; reflexivity.
Qed.

Lemma lor_double_1 a : 0 <= a -> Z.lor (2 * a) 1 = 2 * a + 1.
Proof. destruct a; intros H; try reflexivity; lia. Qed.

(** The loop of [ByteAt] started with [acc] below [2^c]: the next [n] bits
    are shifted in under it. *)
Lemma ByteAt_loop b : covered b ->
  forall n lo acc c,
    0 <= c -> c + Z.of_nat n <= 8 -> 0 <= acc < 2 ^ c ->
    0 <= lo -> lo + Z.of_nat n <= numBits b ->
    exists r,
      forM (upto lo n)
        (fun result j =>
           let result := Z.shiftl result 1 mod 256 in
           bo <- At b j ;; Ret (if bo then Z.lor result 1 else result))
        acc = Ret r
      /\ 0 <= r
      /\ Z.shiftr r (Z.of_nat n) = acc
      /\ (forall j, 0 <= j < Z.of_nat n ->
            Z.testbit r (Z.of_nat n - 1 - j) = rawbit (bits b) (lo + j)).
Proof.
  intros Hb; induction n as [| n IH]; intros lo acc c Hc Hn Hacc Hlo Hhi.
  - exists acc; simpl; repeat split; try lia.
  - rewrite upto_S; cbn [forM].
    rewrite At_rawbit by (auto; lia); cbn [bind].
    remember (rawbit (bits b) lo) as bt eqn:Ebt.
    set (acc' := if bt then Z.lor (Z.shiftl acc 1 mod 256) 1
                 else Z.shiftl acc 1 mod 256).
    assert (Hpow : 2 ^ (c + 1) = 2 * 2 ^ c)
      by (rewrite Z.pow_add_r by lia; lia).
    assert (H256 : 2 ^ (c + 1) <= 256).
    { change 256 with (2 ^ 8); apply Z.pow_le_mono_r; lia. }
    assert (Hval : acc' = 2 * acc + Z.b2z bt).
    { unfold acc'; rewrite Z.shiftl_mul_pow2 by lia; change (2 ^ 1) with 2.
      rewrite Z.mod_small by lia; rewrite (Z.mul_comm acc 2).
      destruct bt; cbn [Z.b2z]; [apply lor_double_1; lia | lia]. }
    destruct (IH (lo + 1) acc' (c + 1)) as (r & Hrun & Hr0 & Hshr & Hbits);
      try lia.
    { rewrite Hval, Hpow; destruct bt; cbn [Z.b2z]; lia. }
    exists r; split; [exact Hrun |]; split; [exact Hr0 |]; split.
    + replace (Z.of_nat (S n)) with (Z.of_nat n + 1) by lia.
      rewrite <- Z.shiftr_shiftr, Hshr, Hval by lia.
      rewrite Z.shiftr_div_pow2 by lia; change (2 ^ 1) with 2.
      symmetry; destruct bt; cbn [Z.b2z];
        [apply Z.div_unique with (r := 1) | apply Z.div_unique with (r := 0)];
        lia.
    + intros j Hj.
      destruct (Z.eq_dec j 0) as [-> | Hne].
      * replace (Z.of_nat (S n) - 1 - 0) with (0 + Z.of_nat n) by lia.
        rewrite <- Z.shiftr_spec, Hshr, Hval, Z.testbit_0_r, Z.add_0_r by lia.
        exact Ebt.
      * replace (Z.of_nat (S n) - 1 - j) with (Z.of_nat n - 1 - (j - 1)) by lia.
        rewrite Hbits by lia; f_equal; lia.
Qed.

(** [ByteAt] returns the bits from position [i] as a binary number. *)
Lemma ByteAt_bits b i :
  covered b -> 0 <= i < numBits b ->
  exists r,
    ByteAt b i = Ret r
    /\ 0 <= r < 2 ^ available b i
    /\ forall j, 0 <= j < available b i ->
         At b (i + j) = Ret (Z.testbit r (available b i - 1 - j)).
Proof.
  intros Hb Hi; unfold ByteAt, available.
  destruct (Z.ltb_spec i 0); [lia |].
  destruct (Z.geb_spec i (numBits b)); [lia |]; cbn [orb].
  set (m := Z.min 8 (numBits b - i)).
  destruct (ByteAt_loop b Hb (Z.to_nat m) i 0 0)
    as (r & Hrun & Hr0 & Hshr & Hbits); try (simpl; lia).
  exists r; split; [exact Hrun |].
  rewrite Z2Nat.id in * by lia.
  split.
  - split; [exact Hr0 |].
    rewrite Z.shiftr_div_pow2 in Hshr by lia.
    apply Z.div_small_iff in Hshr; [| apply Z.pow_nonzero; lia].
    destruct Hshr as [Hs | Hs]; [lia |].
    assert (0 < 2 ^ m) by (apply Z.pow_pos_nonneg; lia); lia.
  - intros j Hj; rewrite At_rawbit, Hbits by (auto; lia); reflexivity.
Qed.

(** C7 (amended): for an index inside the buffer, [ByteAt] returns the
    [min 8 (Len b - i)] bits from position [i] as a binary number below
    [2^min 8 (Len b - i)]: the bits read take the least significant
    positions of the byte, the first of them the highest (right-aligned). *)
Theorem ByteAt_right_aligned b i :
  covered b -> 0 <= i < numBits b ->
  exists r,
    ByteAt b i = Ret r
    /\ 0 <= r < 2 ^ available b i
    /\ forall j, 0 <= j < available b i ->
         At b (i + j) = Ret (Z.testbit r (available b i - 1 - j)).
Proof. exact (ByteAt_bits b i). Qed.

Lemma ByteAt_right_aligned_witness :
  covered elevenBits /\ 0 <= 8 < numBits elevenBits
  /\ exists r,
       ByteAt elevenBits 8 = Ret r
       /\ 0 <= r < 2 ^ available elevenBits 8
       /\ forall j, 0 <= j < available elevenBits 8 ->
            At elevenBits (8 + j)
            = Ret (Z.testbit r (available elevenBits 8 - 1 - j)).
Proof.
  assert (Hc : covered elevenBits) by (unfold covered; simpl; lia).
  assert (Hi : 0 <= 8 < numBits elevenBits) by (simpl; lia).
  split; [exact Hc |]; split; [exact Hi |].
  exact (ByteAt_right_aligned elevenBits 8 Hc Hi).
Defined.

(** C7 as stated fails on the one bit of [New(true)]: [ByteAt] returns 1,
    the bit in the lowest position, not 0x80. *)
Lemma ByteAt_not_left_aligned :
  bitset.New [true] = Ret oneBit
  /\ ByteAt oneBit 0 = Ret 1
  /\ ~ leftAligned oneBit 0 1.
Proof.
  split; [reflexivity |]; split; [reflexivity |].
  intros H; specialize (H 0 ltac:(unfold available; simpl; lia)).
  discriminate H.
Qed.

(** Three bits read as a number: [101] is 5. *)
Example bitset_demo :
  (b <- bitset.New [true; false; true] ;; bitset.ByteAt b 0) = Ret 5.
Proof. reflexivity. Qed.

End BitsetFacts.

(** ** Bit buffers: appending *)

Section Appends.

Lemma at_app_zeros l m i : at_ (l ++ repeat 0 m) i = at_ l i.
Proof.
  unfold at_.
  destruct (Nat.lt_ge_cases (Z.to_nat i) (length l)) as [L | G].
  - apply app_nth1; exact L.
  - rewrite app_nth2, (nth_overflow l) by exact G.
    destruct (Nat.lt_ge_cases (Z.to_nat i - length l) m).
    + apply nth_repeat_lt; assumption.
    + apply nth_overflow; rewrite repeat_length; assumption.
Qed.

Lemma rawbit_app_zeros l m k : rawbit (l ++ repeat 0 m) k = rawbit l k.
Proof. unfold rawbit; rewrite at_app_zeros; reflexivity. Qed.

Lemma len_app_zeros (l : list Z) m :
  len (l ++ repeat 0 m) = len l + Z.of_nat m.
Proof. unfold len; rewrite length_app, repeat_length; lia. Qed.

Lemma ensureCapacity_spec b n :
  covered b -> 0 <= n ->
  numBits (ensureCapacity b n) = numBits b
  /\ (forall k, rawbit (bits (ensureCapacity b n)) k = rawbit (bits b) k)
  /\ numBits b + n <= 8 * len (bits (ensureCapacity b n)).
Proof.
  intros [Hb0 Hb1] Hn; unfold ensureCapacity.
  rewrite Z.quot_div_nonneg, Z.rem_mod_nonneg by lia.
  pose proof (Z.div_mod (n + numBits b) 8 ltac:(lia)) as Hdm.
  pose proof (Z.mod_pos_bound (n + numBits b) 8 ltac:(lia)) as Hmb.
  set (newNumBytes := if (n + numBits b) mod 8 =? 0
                      then (n + numBits b) / 8
                      else (n + numBits b) / 8 + 1).
  assert (Hnew : n + numBits b <= 8 * newNumBytes).
  { unfold newNumBytes; destruct (Z.eqb_spec ((n + numBits b) mod 8) 0); lia. }
  destruct (Z.geb_spec (len (bits b)) newNumBytes).
  - repeat split; auto; lia.
  - cbn [numBits bits]; split; [reflexivity |].
    split; [intros; apply rawbit_app_zeros |].
    rewrite len_app_zeros; lia.
Qed.

Lemma rawbit_set l n k :
  0 <= n -> 0 <= k -> n / 8 < len l ->
  rawbit (modify (fun x => Z.lor x (Z.shiftr 128 (Z.rem n 8)))
                 (Z.to_nat (Z.quot n 8)) l) k
  = rawbit l k || (k =? n).
Proof.
  intros Hn Hk Hlen; unfold rawbit, at_.
  rewrite Z.quot_div_nonneg, Z.rem_mod_nonneg by lia.
  pose proof (Z.mod_pos_bound n 8 ltac:(lia)) as Hnm.
  pose proof (Z.mod_pos_bound k 8 ltac:(lia)) as Hkm.
  pose proof (Z.div_mod n 8 ltac:(lia)) as Hnd.
  pose proof (Z.div_mod k 8 ltac:(lia)) as Hkd.
  assert (0 <= n / 8) by (apply Z.div_pos; lia).
  assert (0 <= k / 8) by (apply Z.div_pos; lia).
  rewrite nth_modify by (unfold len in Hlen; lia).
  rewrite shiftr_128 by lia.
  destruct (Nat.eqb_spec (Z.to_nat (k / 8)) (Z.to_nat (n / 8))) as [E | N].
  - rewrite <- E, Z.lor_spec, Z.pow2_bits_eqb by lia; f_equal.
    destruct (Z.eqb_spec (7 - n mod 8) (7 - k mod 8)), (Z.eqb_spec k n);
      try reflexivity; lia.
  - destruct (Z.eqb_spec k n) as [-> | _]; [contradiction |].
    rewrite orb_false_r; reflexivity.
Qed.

(** Appending one bit to a buffer that has room for it. *)
Lemma push_spec b v :
  0 <= numBits b < 8 * len (bits b) ->
  rawbit (bits b) (numBits b) = false ->
  exists b',
    push b v = Ret b'
    /\ numBits b' = numBits b + 1
    /\ len (bits b') = len (bits b)
    /\ forall k, 0 <= k ->
         rawbit (bits b') k = if k =? numBits b then v else rawbit (bits b) k.
Proof.
  intros Hroom Hslack; unfold push.
  assert (Hq : 0 <= numBits b / 8 < len (bits b)).
  { split; [apply Z.div_pos; lia | apply Z.div_lt_upper_bound; lia]. }
  destruct v.
  - unfold setCurrent; rewrite Z.quot_div_nonneg by lia.
    rewrite (index_Some _ _ 0 Hq); cbn [bind].
    eexists; split; [reflexivity |]; cbn [numBits bits].
    split; [reflexivity |].
    split; [unfold len; rewrite length_modify; reflexivity |].
    intros k Hk.
    rewrite <- (Z.quot_div_nonneg (numBits b) 8) by lia.
    rewrite rawbit_set by lia.
    destruct (Z.eqb_spec k (numBits b)) as [-> | _];
      [apply orb_true_r | apply orb_false_r].
  - cbn [bind]; eexists; split; [reflexivity |]; cbn [numBits bits].
    repeat split; auto.
    intros k Hk; destruct (Z.eqb_spec k (numBits b)) as [-> | _];
      [exact Hslack | reflexivity].
Qed.

(** Appending the bits [f x] for [x] in [xs]. *)
Lemma pushes_spec {A : Type} (f : A -> bool) (d : A) :
  forall xs b,
    0 <= numBits b -> numBits b + len xs <= 8 * len (bits b) ->
    (forall k, numBits b <= k -> rawbit (bits b) k = false) ->
    exists b',
      forM xs (fun b x => push b (f x)) b = Ret b'
      /\ numBits b' = numBits b + len xs
      /\ len (bits b') = len (bits b)
      /\ forall k, 0 <= k ->
           rawbit (bits b') k
           = if (numBits b <=? k) && (k <? numBits b + len xs)
             then f (nth (Z.to_nat (k - numBits b)) xs d)
             else rawbit (bits b) k.
Proof.
  induction xs as [| x xs IH]; intros b H0 Hroom Hslack.
  - exists b; cbn [forM]; change (len (@nil A)) with 0.
    repeat split; auto; try lia.
    intros k Hk.
    destruct (Z.leb_spec (numBits b) k), (Z.ltb_spec k (numBits b + 0));
      cbn [andb]; try reflexivity; lia.
  - assert (Hlen : len (x :: xs) = len xs + 1) by (unfold len; simpl length; lia).
    rewrite Hlen in *.
    assert (Hxs : 0 <= len xs) by (unfold len; lia).
    destruct (push_spec b (f x) ltac:(lia) (Hslack (numBits b) ltac:(lia)))
      as (b1 & Hp & Hn1 & Hl1 & Hr1).
    destruct (IH b1 ltac:(lia) ltac:(lia)) as (b' & Hrun & Hn' & Hl' & Hr').
    { intros k Hk; rewrite Hr1 by lia.
      destruct (Z.eqb_spec k (numBits b)); [lia | apply Hslack; lia]. }
    exists b'; cbn [forM]; rewrite Hp; cbn [bind].
    split; [exact Hrun |]; split; [lia |]; split; [lia |].
    intros k Hk; rewrite Hr' by exact Hk; rewrite Hr1 by exact Hk.
    rewrite Hn1.
    destruct (Z.eqb_spec k (numBits b)) as [-> | Hne].
    + destruct (Z.leb_spec (numBits b + 1) (numBits b)); [lia |]; cbn [andb].
      destruct (Z.leb_spec (numBits b) (numBits b)); [| lia].
      destruct (Z.ltb_spec (numBits b) (numBits b + (len xs + 1))); [| lia].
      cbn [andb]; rewrite Z.sub_diag; reflexivity.
    + destruct (Z.leb_spec (numBits b + 1) k), (Z.leb_spec (numBits b) k);
        try lia; cbn [andb]; try reflexivity.
      destruct (Z.ltb_spec k (numBits b + 1 + len xs)),
        (Z.ltb_spec k (numBits b + (len xs + 1))); try lia; try reflexivity.
      replace (Z.to_nat (k - numBits b))
        with (S (Z.to_nat (k - (numBits b + 1)))) by lia.
      reflexivity.
Qed.

Lemma bit_of_value v i :
  0 <= i -> negb (Z.land v (Z.shiftl 1 i) =? 0) = Z.testbit v i.
Proof.
  intros Hi; rewrite Z.shiftl_1_l, land_pow2_eqb by exact Hi.
  apply negb_involutive.
Qed.

(** [AppendByte] with all eight bits. *)
Lemma AppendByte_spec b v :
  clean b ->
  exists b',
    AppendByte b v 8 = Ret b'
    /\ clean b'
    /\ numBits b' = numBits b + 8
    /\ (forall k, 0 <= k < numBits b ->
          rawbit (bits b') k = rawbit (bits b) k)
    /\ (forall t, 0 <= t < 8 ->
          rawbit (bits b') (numBits b + t) = Z.testbit v (7 - t)).
Proof.
  intros [Hcov Hslack]; unfold AppendByte.
  destruct (ensureCapacity_spec b 8 Hcov ltac:(lia)) as (En & Er & Ecap).
  set (b0 := ensureCapacity b 8) in *.
  destruct (Z.gtb_spec 8 8); [lia |].
  destruct (pushes_spec (fun i => negb (Z.land v (Z.shiftl 1 i) =? 0)) 0
              (downfrom 8) b0) as (b' & Hrun & Hn' & Hl' & Hr').
  { destruct Hcov; lia. }
  { change (len (downfrom 8)) with 8; lia. }
  { intros k Hk; rewrite Er; apply Hslack; lia. }
  change (len (downfrom 8)) with 8 in *.
  exists b'; split; [exact Hrun |].
  assert (Hb0 : 0 <= numBits b) by (destruct Hcov; lia).
  split; [| split; [lia | split]].
  - split; [unfold covered; lia |].
    intros k Hk; rewrite Hr' by lia.
    destruct (Z.leb_spec (numBits b0) k), (Z.ltb_spec k (numBits b0 + 8));
      cbn [andb]; try lia.
    rewrite Er; apply Hslack; lia.
  - intros k Hk; rewrite Hr' by lia.
    destruct (Z.leb_spec (numBits b0) k); [lia |]; cbn [andb]; apply Er.
  - intros t Ht; rewrite Hr' by lia.
    destruct (Z.leb_spec (numBits b0) (numBits b + t)); [| lia].
    destruct (Z.ltb_spec (numBits b + t) (numBits b0 + 8)); [| lia].
    cbn [andb]; rewrite En.
    replace (numBits b + t - numBits b) with t by lia.
    assert (C : t = 0 \/ t = 1 \/ t = 2 \/ t = 3 \/ t = 4 \/ t = 5 \/ t = 6
                \/ t = 7) by lia.
    repeat (destruct C as [-> | C];
            [apply (bit_of_value v); lia |]).
    subst t; apply (bit_of_value v); lia.
Qed.

(** [AppendBytes]: the buffer keeps its bits and gains eight per byte. *)
Lemma AppendBytes_spec :
  forall ds b,
    clean b ->
    exists b',
      AppendBytes b ds = Ret b'
      /\ clean b'
      /\ numBits b' = numBits b + 8 * len ds
      /\ (forall k, 0 <= k < numBits b ->
            rawbit (bits b') k = rawbit (bits b) k)
      /\ (forall j t, 0 <= j < len ds -> 0 <= t < 8 ->
            rawbit (bits b') (numBits b + 8 * j + t)
            = Z.testbit (at_ ds j) (7 - t)).
Proof.
  unfold AppendBytes.
  induction ds as [| d ds IH]; intros b Hb.
  - exists b; cbn [forM]; change (len (@nil Z)) with 0.
    repeat split; try apply Hb; try lia.
  - assert (Hlen : len (d :: ds) = len ds + 1) by (unfold len; simpl length; lia).
    assert (Hds : 0 <= len ds) by (unfold len; lia).
    assert (Hb0 : 0 <= numBits b) by (destruct Hb as [[? ?] _]; lia).
    destruct (AppendByte_spec b d Hb) as (b1 & Hp & Hc1 & Hn1 & Hk1 & Hd1).
    destruct (IH b1 Hc1) as (b' & Hrun & Hc' & Hn' & Hk' & Hd').
    exists b'; cbn [forM]; rewrite Hp; cbn [bind].
    split; [exact Hrun |]; split; [exact Hc' |]; split; [lia |]; split.
    + intros k Hk; rewrite Hk' by lia; apply Hk1; exact Hk.
    + intros j t Hj Ht.
      destruct (Z.eq_dec j 0) as [-> | Hne].
      * rewrite Hk' by lia.
        replace (numBits b + 8 * 0 + t) with (numBits b + t) by lia.
        rewrite Hd1 by exact Ht; reflexivity.
      * replace (numBits b + 8 * j + t)
          with (numBits b1 + 8 * (j - 1) + t) by lia.
        rewrite Hd' by lia.
        unfold at_; replace (Z.to_nat j) with (S (Z.to_nat (j - 1))) by lia.
        reflexivity.
Qed.

End Appends.

(** ** Normalised polynomials *)

Section Normalised.

Lemma degree_bounds t : -1 <= degree t < len t.
Proof.
  unfold len; induction t as [| c t IH]; simpl length; cbn [degree]; [lia |].
  destruct (Z.geb_spec (degree t) 0); [lia |].
  destruct (c =? 0); lia.
Qed.

Lemma degree_snoc t c :
  degree (t ++ [c]) = if c =? 0 then degree t else len t.
Proof.
  unfold len; induction t as [| a t IH]; cbn [app degree length].
  - destruct (c =? 0); reflexivity.
  - rewrite IH. pose proof (degree_bounds t) as B; unfold len in B.
    destruct (Z.eqb_spec c 0).
    + reflexivity.
    + destruct (Z.geb_spec (Z.of_nat (length t)) 0); lia.
Qed.

Lemma firstn_snoc_nth {A : Type} (l : list A) n d :
  (n < length l)%nat -> firstn (S n) l = firstn n l ++ [nth n l d].
Proof.
  revert n; induction l as [| x l IH]; intros [| n] H; simpl in *;
    try lia; try reflexivity.
  f_equal; apply IH; lia.
Qed.

Lemma maxNonzeroTerm_degree t n :
  (n <= length t)%nat -> maxNonzeroTerm t n = degree (firstn n t).
Proof.
  induction n as [| n IH]; intros H; [reflexivity |].
  cbn [maxNonzeroTerm]; unfold at_; rewrite Nat2Z.id.
  rewrite (firstn_snoc_nth t n 0) by lia.
  rewrite degree_snoc, IH by lia.
  unfold len; rewrite length_firstn, Nat.min_l by lia.
  reflexivity.
Qed.

Lemma degree_firstn t n :
  (n <= length t)%nat -> degree t < Z.of_nat n -> degree (firstn n t) = degree t.
Proof.
  revert n; induction t as [| c t IH]; intros [| n] H Hd; simpl in H;
    cbn [firstn degree] in *; try reflexivity.
  - destruct (Z.geb_spec (degree t) 0); [lia |].
    destruct (c =? 0); [reflexivity | lia].
  - destruct (Z.geb_spec (degree t) 0) as [G | G].
    + rewrite IH by lia.
      destruct (Z.geb_spec (degree t) 0); [reflexivity | lia].
    + pose proof (degree_bounds t).
      rewrite IH by lia.
      destruct (Z.geb_spec (degree t) 0); [lia | reflexivity].
Qed.

Lemma normalised_normal e : normal (normalised e).
Proof.
  unfold normal, normalised, numTerms.
  rewrite maxNonzeroTerm_degree, firstn_all by lia.
  pose proof (degree_bounds (term e)) as B.
  destruct (Z.ltb_spec (degree (term e)) 0) as [L | L]; [reflexivity |].
  destruct (Z.ltb_spec (degree (term e)) (len (term e) - 1)) as [M | M];
    cbn [term].
  - unfold len in *.
    rewrite degree_firstn by lia.
    rewrite length_firstn, Nat.min_l by lia; lia.
  - lia.
Qed.

Lemma normalised_normal_multiply a b : normal (gfPolyMultiply a b).
Proof. apply normalised_normal. Qed.

Lemma monomial_normal c d p : newGFPolyMonomial c d = Ret p -> normal p.
Proof.
  unfold newGFPolyMonomial, gfZero.
  destruct (Z.eqb_spec c 0) as [-> | Hc].
  - intros [= <-]; reflexivity.
  - destruct (Z.ltb_spec d 0); [discriminate |]; intros [= <-].
    unfold normal, numTerms; cbn [term].
    rewrite degree_snoc.
    destruct (Z.eqb_spec c 0); [contradiction |].
    unfold len; rewrite length_app; simpl; lia.
Qed.

Lemma remainder_normal n d r : gfPolyRemainder n d = Ret r -> normal r.
Proof.
  unfold gfPolyRemainder.
  destruct (equals d (mkPoly [])); [discriminate |]; intros H.
  apply bind_Ret_inv in H as (r0 & _ & [= <-]).
  apply normalised_normal.
Qed.

(** C8 (amended): what monomial construction, addition, multiplication and
    remainder return is normalised: [numTerms] is the degree plus one, and
    0 for the zero polynomial. *)
Theorem produced_normal p : produced p -> normal p.
Proof.
  destruct 1 as [c d p H | a b | a b | n d r H].
  - exact (monomial_normal c d p H).
  - apply normalised_normal.
  - apply normalised_normal.
  - exact (remainder_normal n d r H).
Qed.

Lemma produced_normal_witness :
  produced (mkPoly [2; 1]) /\ normal (mkPoly [2; 1]).
Proof.
  assert (H : produced (mkPoly [2; 1])).
  { apply (produced_remainder (mkPoly [0; 0; 2; 1]) (mkPoly [2; 3; 1])).
    vm_compute; reflexivity. }
  split; [exact H | exact (produced_normal (mkPoly [2; 1]) H)].
Defined.

(** C8 as stated fails for construction from data: a zero codeword becomes
    a polynomial of one term, the zero polynomial kept with [numTerms] 1. *)
Lemma fromData_not_normal :
  exists p, newGFPolyFromData eightZeroBits = Ret p
            /\ numTerms p = 1 /\ degree (term p) = -1 /\ ~ normal p.
Proof.
  exists (mkPoly [0]); split; [reflexivity |].
  split; [reflexivity |]; split; [reflexivity |].
  unfold normal; cbn; lia.
Qed.

End Normalised.

(** ** GF(2^8): facts checked over all bytes *)

Section GF.

Lemma forall_bytes (P : Z -> bool) :
  forallb P (upto 0 256) = true -> forall a, byte a -> P a = true.
Proof.
  intros H a Ha; rewrite forallb_forall in H; apply H, In_upto.
  unfold byte in Ha; simpl; lia.
Qed.

Lemma forall_bytes2 (P : Z -> Z -> bool) :
  forallb (fun a => forallb (P a) (upto 0 256)) (upto 0 256) = true ->
  forall a b, byte a -> byte b -> P a b = true.
Proof.
  intros H a b Ha Hb.
  apply (forall_bytes (P a)); [| exact Hb].
  apply (forall_bytes (fun a => forallb (P a) (upto 0 256)) H a Ha).
Qed.

Lemma gfMultiply_1_r a : byte a -> gfMultiply a 1 = a.
Proof.
  intros Ha; apply Z.eqb_eq.
  apply (forall_bytes (fun a => gfMultiply a 1 =? a)); [| exact Ha].
  vm_compute; reflexivity.
Qed.

Lemma gfDivide_cancel a b :
  byte a -> byte b -> b <> 0 ->
  exists c, gfDivide a b = Ret c /\ gfMultiply b c = a.
Proof.
  intros Ha Hb Hne; unfold gfDivide, gfZero.
  destruct (Z.eqb_spec b 0); [contradiction |].
  eexists; split; [reflexivity |].
  pose proof (forall_bytes2
    (fun a b => (b =? 0) || (gfMultiply b (gfMultiply a (gfInverse b)) =? a))
    ltac:(vm_compute; reflexivity) a b Ha Hb) as H.
  apply orb_true_iff in H as [H | H]; [apply Z.eqb_eq in H; contradiction |].
  apply Z.eqb_eq; exact H.
Qed.

Lemma gfMultiply_basis a b : byte a -> byte b -> gfMultiply a b = basisSum a b.
Proof.
  intros Ha Hb; apply Z.eqb_eq.
  apply (forall_bytes2 (fun a b => gfMultiply a b =? basisSum a b));
    [| exact Ha | exact Hb].
  vm_compute; reflexivity.
Qed.

End GF.

(** ** Sums over GF(2^8) *)

Section Sums.

Lemma xsum_app {A : Type} (f : A -> Z) xs ys :
  xsum f (xs ++ ys) = Z.lxor (xsum f xs) (xsum f ys).
Proof.
  induction xs as [| x xs IH]; simpl; [reflexivity |].
  rewrite IH, Z.lxor_assoc; reflexivity.
Qed.

Lemma xsum_ext {A : Type} (f g : A -> Z) xs :
  (forall x, In x xs -> f x = g x) -> xsum f xs = xsum g xs.
Proof.
  induction xs as [| x xs IH]; intros H; simpl; [reflexivity |].
  rewrite H, IH; auto; [intros; apply H; right; auto | left; auto].
Qed.

Lemma xsum_zero {A : Type} (f : A -> Z) xs :
  (forall x, In x xs -> f x = 0) -> xsum f xs = 0.
Proof.
  induction xs as [| x xs IH]; intros H; simpl; [reflexivity |].
  rewrite H, IH; auto; [intros; apply H; right; auto | left; auto].
Qed.

Lemma xsum_map {A B : Type} (f : B -> Z) (g : A -> B) xs :
  xsum f (map g xs) = xsum (fun x => f (g x)) xs.
Proof. induction xs; simpl; congruence. Qed.

Lemma lxor_swap a b c d :
  Z.lxor (Z.lxor a b) (Z.lxor c d) = Z.lxor (Z.lxor a c) (Z.lxor b d).
Proof.
  rewrite !Z.lxor_assoc; f_equal.
  rewrite <- !Z.lxor_assoc; f_equal; apply Z.lxor_comm.
Qed.

Lemma xsum_lxor {A : Type} (f g : A -> Z) xs :
  xsum (fun x => Z.lxor (f x) (g x)) xs = Z.lxor (xsum f xs) (xsum g xs).
Proof.
  induction xs as [| x xs IH]; simpl; [reflexivity |].
  rewrite IH; apply lxor_swap.
Qed.

Lemma xsum_exchange {A B : Type} (f : A -> B -> Z) xs ys :
  xsum (fun x => xsum (fun y => f x y) ys) xs
  = xsum (fun y => xsum (fun x => f x y) xs) ys.
Proof.
  induction xs as [| x xs IH]; simpl.
  - symmetry; apply xsum_zero; reflexivity.
  - rewrite IH, <- xsum_lxor; reflexivity.
Qed.

Lemma fold_left_xsum {A : Type} (f : A -> Z) xs acc :
  fold_left (fun a x => Z.lxor a (f x)) xs acc = Z.lxor acc (xsum f xs).
Proof.
  revert acc; induction xs as [| x xs IH]; intros acc; simpl.
  - rewrite Z.lxor_0_r; reflexivity.
  - rewrite IH, Z.lxor_assoc; reflexivity.
Qed.

(** A sum with one term that is not zero. *)
Lemma xsum_single (f : Z -> Z) lo n k :
  (forall i, lo <= i < lo + Z.of_nat n -> i <> k -> f i = 0) ->
  xsum f (upto lo n)
  = if (lo <=? k) && (k <? lo + Z.of_nat n) then f k else 0.
Proof.
  revert lo; induction n as [| n IH]; intros lo H.
  - destruct (Z.leb_spec lo k), (Z.ltb_spec k (lo + Z.of_nat 0));
      cbn [andb]; try reflexivity; lia.
  - rewrite upto_S; cbn [xsum fold_right]; fold (xsum f (upto (lo + 1) n)).
    rewrite IH by (intros; apply H; lia).
    destruct (Z.eq_dec lo k) as [-> | Hne].
    + destruct (Z.leb_spec (k + 1) k); [lia |]; cbn [andb].
      rewrite Z.lxor_0_r.
      destruct (Z.leb_spec k k); [| lia].
      destruct (Z.ltb_spec k (k + Z.of_nat (S n))); [reflexivity | lia].
    + rewrite (H lo) by lia; rewrite Z.lxor_0_l.
      destruct (Z.leb_spec (lo + 1) k), (Z.leb_spec lo k); try lia;
        cbn [andb]; try reflexivity.
      destruct (Z.ltb_spec k (lo + 1 + Z.of_nat n)),
        (Z.ltb_spec k (lo + Z.of_nat (S n))); try lia; reflexivity.
Qed.

(** Terms that are zero past [n] do not count. *)
Lemma xsum_extend (f : Z -> Z) lo n m :
  (n <= m)%nat ->
  (forall i, lo + Z.of_nat n <= i < lo + Z.of_nat m -> f i = 0) ->
  xsum f (upto lo m) = xsum f (upto lo n).
Proof.
  intros Hle H.
  replace m with (n + (m - n))%nat by lia.
  unfold upto; rewrite seq_app, map_app, xsum_app.
  fold (upto lo n).
  rewrite (xsum_zero f (map _ (seq (0 + n) (m - n)))).
  - apply Z.lxor_0_r.
  - intros x Hx; apply in_map_iff in Hx as (j & <- & Hj).
    apply in_seq in Hj; apply H; lia.
Qed.

End Sums.

(** ** Coefficients *)

Section Coefficients.

Lemma coef_neg p n : n < 0 -> coef p n = 0.
Proof. unfold coef; destruct (Z.ltb_spec n 0); [reflexivity | lia]. Qed.

Lemma coef_at p n : 0 <= n -> coef p n = at_ p n.
Proof. unfold coef; destruct (Z.ltb_spec n 0); [lia | reflexivity]. Qed.

Lemma at_beyond p n : len p <= n -> at_ p n = 0.
Proof. unfold at_, len; intros H; apply nth_overflow; lia. Qed.

Lemma coef_beyond p n : len p <= n -> coef p n = 0.
Proof.
  intros H; unfold coef; destruct (Z.ltb_spec n 0); [reflexivity |].
  apply at_beyond; exact H.
Qed.

Lemma at_nth p n : at_ p (Z.of_nat n) = nth n p 0.
Proof. unfold at_; rewrite Nat2Z.id; reflexivity. Qed.

Lemma at_app_l p q n : 0 <= n < len p -> at_ (p ++ q) n = at_ p n.
Proof. unfold at_, len; intros H; apply app_nth1; lia. Qed.

Lemma at_app_r p q n : len p <= n -> at_ (p ++ q) n = at_ q (n - len p).
Proof.
  unfold at_, len; intros H; rewrite app_nth2 by lia.
  f_equal; lia.
Qed.

Lemma at_zeros k n : at_ (zeros k) n = 0.
Proof.
  unfold at_, zeros.
  destruct (Nat.lt_ge_cases (Z.to_nat n) (Z.to_nat k)).
  - apply nth_repeat_lt; assumption.
  - apply nth_overflow; rewrite repeat_length; assumption.
Qed.

Lemma len_zeros k : 0 <= k -> len (zeros k) = k.
Proof. unfold len, zeros; rewrite repeat_length; lia. Qed.

Lemma len_app {A : Type} (p q : list A) : len (p ++ q) = len p + len q.
Proof. unfold len; rewrite length_app; lia. Qed.

(** The degree bounds the non-zero coefficients. *)
Lemma at_above_degree t n : degree t < n -> at_ t n = 0.
Proof.
  revert n; induction t as [| c t IH]; intros n H.
  - unfold at_; destruct (Z.to_nat n); reflexivity.
  - cbn [degree] in H.
    pose proof (degree_bounds t) as B.
    destruct (Z.geb_spec (degree t) 0) as [G | G].
    + unfold at_; replace (Z.to_nat n) with (S (Z.to_nat (n - 1))) by lia.
      cbn [nth]; apply (IH (n - 1)); lia.
    + destruct (Z.eqb_spec c 0) as [-> | Hc].
      * unfold at_; destruct (Z.to_nat n) eqn:E; [reflexivity |].
        cbn [nth]; rewrite <- at_nth; apply IH; lia.
      * unfold at_; replace (Z.to_nat n) with (S (Z.to_nat (n - 1))) by lia.
        cbn [nth]; apply (IH (n - 1)); lia.
Qed.

Lemma at_degree t : 0 <= degree t -> at_ t (degree t) <> 0.
Proof.
  induction t as [| c t IH]; cbn [degree]; [lia |].
  pose proof (degree_bounds t) as B.
  destruct (Z.geb_spec (degree t) 0) as [G | G].
  - intros _; unfold at_.
    replace (Z.to_nat (degree t + 1)) with (S (Z.to_nat (degree t))) by lia.
    cbn [nth]; apply IH; lia.
  - destruct (Z.eqb_spec c 0); [lia |]; intros _; exact n.
Qed.

(** The degree is the index of the last non-zero coefficient. *)
Lemma degree_unique t d :
  0 <= d -> at_ t d <> 0 -> (forall n, d < n -> at_ t n = 0) -> degree t = d.
Proof.
  intros Hd Hnz Hz.
  destruct (Z.lt_trichotomy (degree t) d) as [L | [E | G]]; [| exact E |].
  - exfalso; apply Hnz, at_above_degree; exact L.
  - exfalso; apply (at_degree t); [lia | apply Hz; exact G].
Qed.

Lemma degree_zero t : (forall n, 0 <= n -> at_ t n = 0) -> degree t = -1.
Proof.
  intros Hz; pose proof (degree_bounds t).
  destruct (Z.eq_dec (degree t) (-1)) as [E | N]; [exact E |].
  exfalso; apply (at_degree t); [lia | apply Hz; lia].
Qed.

Lemma coef_normalised e n : coef (term (normalised e)) n = coef (term e) n.
Proof.
  unfold coef; destruct (Z.ltb_spec n 0); [reflexivity |].
  unfold normalised, numTerms.
  rewrite maxNonzeroTerm_degree, firstn_all by lia.
  pose proof (degree_bounds (term e)) as B.
  destruct (Z.ltb_spec (degree (term e)) 0).
  - cbn [term]; rewrite (at_above_degree (term e)) by lia.
    unfold at_; destruct (Z.to_nat n); reflexivity.
  - destruct (Z.ltb_spec (degree (term e)) (len (term e) - 1));
      [| reflexivity].
    cbn [term]; unfold at_; rewrite nth_firstn.
    destruct (Nat.ltb_spec (Z.to_nat n) (Z.to_nat (degree (term e) + 1)));
      [reflexivity |].
    symmetry; apply (at_above_degree (term e) n); lia.
Qed.

Lemma numTerms_normalised e :
  numTerms (normalised e) = degree (term e) + 1.
Proof.
  pose proof (normalised_normal e) as N; unfold normal in N; rewrite N.
  f_equal.
  destruct (Z.ltb_spec (degree (term e)) 0) as [L | L].
  - pose proof (degree_bounds (term e)).
    rewrite degree_zero; [lia |].
    intros n Hn; rewrite <- coef_at, coef_normalised, coef_at by lia.
    apply at_above_degree; lia.
  - apply degree_unique; [lia | |].
    + rewrite <- coef_at, coef_normalised, coef_at by lia.
      apply at_degree; lia.
    + intros n Hn; rewrite <- coef_at, coef_normalised, coef_at by lia.
      apply at_above_degree; lia.
Qed.

Lemma at_map_upto (f : Z -> Z) n k :
  0 <= k < Z.of_nat n -> at_ (map f (upto 0 n)) k = f k.
Proof.
  intros H; unfold at_.
  rewrite nth_indep with (d' := f 0)
    by (rewrite length_map, length_upto; lia).
  rewrite map_nth, nth_upto by lia; f_equal; lia.
Qed.

Lemma coef_gfPolyAdd a b n :
  coef (term (gfPolyAdd a b)) n
  = cadd (coef (term a)) (coef (term b)) n.
Proof.
  unfold gfPolyAdd, cadd, gfAdd; rewrite coef_normalised; cbn [term].
  unfold coef; destruct (Z.ltb_spec n 0); [reflexivity |].
  unfold numTerms.
  set (m := if len (term b) >? len (term a) then len (term b)
            else len (term a)).
  assert (Hm : m = Z.max (len (term a)) (len (term b))).
  { unfold m; destruct (Z.gtb_spec (len (term b)) (len (term a))); lia. }
  destruct (Z.lt_ge_cases n m) as [L | G].
  - rewrite at_map_upto by lia.
    destruct (Z.gtb_spec (len (term a)) n), (Z.gtb_spec (len (term b)) n);
      cbn [andb]; try reflexivity.
    + rewrite (at_beyond (term b)) by lia; rewrite Z.lxor_0_r; reflexivity.
    + rewrite (at_beyond (term a)) by lia; rewrite Z.lxor_0_l; reflexivity.
    + lia.
  - rewrite !at_beyond; try reflexivity; try lia.
    unfold len at 1; rewrite length_map, length_upto; lia.
Qed.

End Coefficients.

(** ** gfPolyMultiply *)

Section Product.

Lemma gfMultiply_0_l b : gfMultiply 0 b = 0.
Proof. reflexivity. Qed.

Lemma gfMultiply_0_r a : gfMultiply a 0 = 0.
Proof. unfold gfMultiply, gfZero; rewrite orb_true_r; reflexivity. Qed.

Lemma gfMultiply_comm a b : gfMultiply a b = gfMultiply b a.
Proof.
  unfold gfMultiply; rewrite orb_comm, Z.add_comm; reflexivity.
Qed.

Lemma coef_monomial k v n :
  0 <= k -> coef (zeros k ++ [v]) n = if n =? k then v else 0.
Proof.
  intros Hk; unfold coef.
  destruct (Z.ltb_spec n 0); [destruct (Z.eqb_spec n k); [lia | reflexivity] |].
  destruct (Z.lt_trichotomy n k) as [L | [-> | G]].
  - rewrite at_app_l by (rewrite len_zeros; lia).
    rewrite at_zeros; destruct (Z.eqb_spec n k); [lia | reflexivity].
  - rewrite at_app_r by (rewrite len_zeros; lia).
    rewrite len_zeros, Z.sub_diag, Z.eqb_refl by lia; reflexivity.
  - rewrite at_beyond by (rewrite len_app, len_zeros by lia; unfold len; simpl; lia).
    destruct (Z.eqb_spec n k); [lia | reflexivity].
Qed.

(** A loop that adds one term per iteration, seen at coefficient [n]. *)
Lemma fold_coef {A : Type} (step : gfPoly -> A -> gfPoly) (g : A -> Z) n xs :
  (forall r x, In x xs ->
     coef (term (step r x)) n = Z.lxor (coef (term r) n) (g x)) ->
  forall r,
    coef (term (fold_left step xs r)) n = Z.lxor (coef (term r) n) (xsum g xs).
Proof.
  induction xs as [| x xs IH]; intros H r; simpl.
  - rewrite Z.lxor_0_r; reflexivity.
  - rewrite IH by (intros; apply H; right; assumption).
    rewrite H by (left; reflexivity).
    apply Z.lxor_assoc.
Qed.

(** [gfPolyMultiply] computes the Cauchy product. *)
Lemma coef_gfPolyMultiply a b n :
  0 <= n ->
  coef (term (gfPolyMultiply a b)) n
  = cmul (coef (term a)) (coef (term b)) n.
Proof.
  intros Hn; unfold gfPolyMultiply; rewrite coef_normalised.
  rewrite fold_coef with
    (g := fun i => xsum (fun j => if n =? i + j
                                  then gfMultiply (coef (term a) i)
                                                  (coef (term b) j)
                                  else 0)
                        (upto 0 (Z.to_nat (numTerms b)))).
  - cbn [term]; rewrite coef_at, at_zeros, Z.lxor_0_l by lia.
    unfold cmul, numTerms.
    transitivity
      (xsum (fun i => gfMultiply (coef (term a) i) (coef (term b) (n - i)))
            (upto 0 (Z.to_nat (len (term a))))).
    + apply xsum_ext; intros i Hi; apply In_upto in Hi.
      rewrite xsum_single with (k := n - i).
      * replace (n =? i + (n - i)) with true by (symmetry; apply Z.eqb_eq; lia).
        destruct (Z.leb_spec 0 (n - i)); cbn [andb].
        -- destruct (Z.ltb_spec (n - i) (0 + Z.of_nat (Z.to_nat (len (term b)))));
             [reflexivity |].
           rewrite (coef_beyond (term b)) by (unfold len in *; lia).
           symmetry; apply gfMultiply_0_r.
        -- rewrite (coef_neg (term b)) by lia.
           symmetry; apply gfMultiply_0_r.
      * intros j Hj Hne; destruct (Z.eqb_spec n (i + j)); [lia | reflexivity].
    + set (f := fun i => gfMultiply (coef (term a) i) (coef (term b) (n - i))).
      set (m := Nat.max (Z.to_nat (len (term a))) (Z.to_nat (n + 1))).
      transitivity (xsum f (upto 0 m)).
      * symmetry; apply xsum_extend; [unfold m; lia |].
        intros i Hi; unfold f.
        rewrite (coef_beyond (term a)) by (unfold len in *; lia).
        apply gfMultiply_0_l.
      * apply xsum_extend; [unfold m; lia |].
        intros i Hi; unfold f.
        rewrite (coef_neg (term b)) by lia.
        apply gfMultiply_0_r.
  - intros r i Hi; apply In_upto in Hi.
    apply fold_coef; intros r' j Hj; apply In_upto in Hj.
    rewrite !(coef_at _ i), !(coef_at _ j) by lia.
    destruct (Z.eqb_spec (at_ (term a) i) 0) as [Ea | Ea]; cbn [negb andb].
    + rewrite Ea, gfMultiply_0_l.
      destruct (n =? i + j); rewrite Z.lxor_0_r; reflexivity.
    + destruct (Z.eqb_spec (at_ (term b) j) 0) as [Eb | Eb]; cbn [negb].
      * rewrite Eb, gfMultiply_0_r.
        destruct (n =? i + j); rewrite Z.lxor_0_r; reflexivity.
      * rewrite coef_gfPolyAdd; unfold cadd, gfAdd; cbn [term].
        rewrite coef_monomial by lia; reflexivity.
Qed.

End Product.

(** ** Distributivity *)

Section Field.

Lemma byte_0 : byte 0.
Proof. unfold byte; lia. Qed.

Lemma byte_lxor a b : byte a -> byte b -> byte (Z.lxor a b).
Proof.
  intros Ha Hb.
  pose proof (forall_bytes2
    (fun a b => (0 <=? Z.lxor a b) && (Z.lxor a b <? 256))
    ltac:(vm_compute; reflexivity) a b Ha Hb) as H.
  apply andb_true_iff in H as [H1 H2].
  apply Z.leb_le in H1; apply Z.ltb_lt in H2; split; assumption.
Qed.

Lemma byte_at_table tbl i : Forall byte tbl -> byte (at_ tbl i).
Proof.
  intros H; unfold at_.
  destruct (Nat.lt_ge_cases (Z.to_nat i) (length tbl)) as [L | G].
  - rewrite Forall_forall in H; apply H, nth_In; exact L.
  - rewrite nth_overflow by exact G; apply byte_0.
Qed.

Lemma gfExpTable_bytes : Forall byte gfExpTable.
Proof.
  apply Forall_forall; intros x Hx.
  assert (H : forallb (fun x => (0 <=? x) && (x <? 256)) gfExpTable = true)
    by (vm_compute; reflexivity).
  rewrite forallb_forall in H; specialize (H x Hx).
  apply andb_true_iff in H as [H1 H2].
  apply Z.leb_le in H1; apply Z.ltb_lt in H2; split; assumption.
Qed.

Lemma byte_gfMultiply a b : byte (gfMultiply a b).
Proof.
  unfold gfMultiply; destruct (_ || _); [apply byte_0 |].
  apply byte_at_table, gfExpTable_bytes.
Qed.

Lemma select_xorb (t1 t2 : bool) m :
  (if xorb t1 t2 then m else 0)
  = Z.lxor (if t1 then m else 0) (if t2 then m else 0).
Proof.
  destruct t1, t2; cbn [xorb];
    rewrite ?Z.lxor_nilpotent, ?Z.lxor_0_r, ?Z.lxor_0_l; reflexivity.
Qed.

(** Multiplication distributes over addition. *)
Lemma gfMultiply_gfAdd a b c :
  byte a -> byte b -> byte c ->
  gfMultiply a (gfAdd b c) = gfAdd (gfMultiply a b) (gfMultiply a c).
Proof.
  intros Ha Hb Hc; unfold gfAdd.
  rewrite !gfMultiply_basis by auto using byte_lxor.
  unfold basisSum; rewrite <- xsum_lxor.
  apply xsum_ext; intros i _.
  rewrite Z.lxor_spec; apply select_xorb.
Qed.

End Field.

(** ** The Cauchy product *)

Section CauchyProduct.

Lemma bytes_coef p : Forall byte p -> bytes (coef p).
Proof.
  intros H n; unfold coef; destruct (n <? 0); [apply byte_0 |].
  apply byte_at_table; exact H.
Qed.

Lemma cmul_ext f f' g g' n :
  (forall i, f i = f' i) -> (forall i, g i = g' i) ->
  cmul f g n = cmul f' g' n.
Proof.
  intros Hf Hg; unfold cmul; apply xsum_ext; intros i _.
  rewrite Hf, Hg; reflexivity.
Qed.

Lemma cmul_cadd_r f g h n :
  bytes f -> bytes g -> bytes h ->
  cmul f (cadd g h) n = cadd (cmul f g) (cmul f h) n.
Proof.
  intros Hf Hg Hh; unfold cmul, cadd at 2, gfAdd.
  rewrite <- xsum_lxor; apply xsum_ext; intros i _.
  unfold cadd; apply gfMultiply_gfAdd; auto.
Qed.

Lemma bytes_cadd f g : bytes f -> bytes g -> bytes (cadd f g).
Proof. intros Hf Hg n; apply byte_lxor; auto. Qed.

Lemma byte_xsum {A : Type} (f : A -> Z) xs :
  (forall x, byte (f x)) -> byte (xsum f xs).
Proof.
  intros H; induction xs as [| x xs IH]; simpl;
    [apply byte_0 | apply byte_lxor; auto].
Qed.

Lemma bytes_cmul f g : bytes (cmul f g).
Proof. intros n; apply byte_xsum; intros; apply byte_gfMultiply. Qed.

(** Multiplying by [c x^d] shifts by [d] and scales by [c]. *)
Lemma cmul_monomial f c d n :
  0 <= d -> 0 <= n -> (forall i, i < 0 -> f i = 0) ->
  cmul f (fun k => if k =? d then c else 0) n = gfMultiply (f (n - d)) c.
Proof.
  intros Hd Hn Hneg; unfold cmul.
  rewrite xsum_single with (k := n - d).
  - replace (n - (n - d) =? d) with true by (symmetry; apply Z.eqb_eq; lia).
    destruct (Z.leb_spec 0 (n - d)); cbn [andb].
    + destruct (Z.ltb_spec (n - d) (0 + Z.of_nat (Z.to_nat (n + 1))));
        [reflexivity | lia].
    + rewrite Hneg by lia; reflexivity.
  - intros i Hi Hne.
    destruct (Z.eqb_spec (n - i) d); [lia | apply gfMultiply_0_r].
Qed.

End CauchyProduct.

(** ** gfPolyRemainder *)

Section Remainder.

Lemma numTerms_bound p d :
  normal p -> 0 <= d -> (forall n, d <= n -> coef (term p) n = 0) ->
  numTerms p <= d.
Proof.
  unfold normal; intros Hp Hd Hz; rewrite Hp.
  destruct (Z.lt_ge_cases (degree (term p)) d) as [L | G]; [lia |].
  exfalso; apply (at_degree (term p)); [lia |].
  rewrite <- coef_at by lia; apply Hz; exact G.
Qed.

Lemma bytes_normalised e :
  bytes (coef (term e)) -> bytes (coef (term (normalised e))).
Proof. intros H n; rewrite coef_normalised; apply H. Qed.

Lemma bytes_gfPolyAdd a b :
  bytes (coef (term a)) -> bytes (coef (term b)) ->
  bytes (coef (term (gfPolyAdd a b))).
Proof.
  intros Ha Hb n; rewrite coef_gfPolyAdd; apply byte_lxor; auto.
Qed.

Lemma coef_nil n : coef [] n = 0.
Proof.
  unfold coef, at_; destruct (n <? 0); [reflexivity |].
  destruct (Z.to_nat n); reflexivity.
Qed.

Lemma cmul_nil f n : cmul f (coef []) n = 0.
Proof.
  apply xsum_zero; intros i _; rewrite coef_nil; apply gfMultiply_0_r.
Qed.

Lemma coef_newGFPolyMonomial c d :
  0 <= d ->
  exists m,
    newGFPolyMonomial c d = Ret m
    /\ forall n, coef (term m) n = if n =? d then c else 0.
Proof.
  intros Hd; unfold newGFPolyMonomial, gfZero.
  destruct (Z.eqb_spec c 0) as [-> | Hc].
  - eexists; split; [reflexivity |].
    intros n; cbn [term]; rewrite coef_nil.
    destruct (n =? d); reflexivity.
  - destruct (Z.ltb_spec d 0); [lia |].
    eexists; split; [reflexivity |].
    intros n; cbn [term]; apply coef_monomial; exact Hd.
Qed.

Variable D : gfPoly.
Hypothesis D_bytes : bytes (coef (term D)).
Hypothesis D_lead : at_ (term D) (numTerms D - 1) <> 0.
Hypothesis D_terms : 1 <= numTerms D.

(** One round of long division cancels the top term of the remainder. *)
Lemma remainder_step R :
  bytes (coef (term R)) -> numTerms D <= numTerms R ->
  exists c m,
    gfDivide (at_ (term R) (numTerms R - 1)) (at_ (term D) (numTerms D - 1))
      = Ret c
    /\ newGFPolyMonomial c (numTerms R - numTerms D) = Ret m
    /\ bytes (coef (term m))
    /\ numTerms (gfPolyAdd R (gfPolyMultiply D m)) <= numTerms R - 1
    /\ forall n, 0 <= n ->
         coef (term (gfPolyAdd R (gfPolyMultiply D m))) n
         = Z.lxor (coef (term R) n)
                  (cmul (coef (term D)) (coef (term m)) n).
Proof.
  intros HR Hge.
  assert (Hr : byte (at_ (term R) (numTerms R - 1)))
    by (rewrite <- coef_at by lia; apply HR).
  assert (Hd : byte (at_ (term D) (numTerms D - 1)))
    by (rewrite <- coef_at by lia; apply D_bytes).
  destruct (gfDivide_cancel _ _ Hr Hd D_lead) as (c & Hc & Hmul).
  destruct (coef_newGFPolyMonomial c (numTerms R - numTerms D) ltac:(lia)) as (m & Hm & Hcoef).
  exists c, m; split; [exact Hc |]; split; [exact Hm |].
  assert (Hbc : byte c).
  { unfold gfDivide in Hc; destruct (_ =? gfZero); [discriminate |].
    injection Hc as <-; apply byte_gfMultiply. }
  assert (Hbm : bytes (coef (term m))).
  { intros n; rewrite Hcoef; destruct (n =? numTerms R - numTerms D);
      [exact Hbc | apply byte_0]. }
  split; [exact Hbm |].
  assert (Hsum : forall n, 0 <= n ->
            coef (term (gfPolyAdd R (gfPolyMultiply D m))) n
            = Z.lxor (coef (term R) n)
                     (cmul (coef (term D)) (coef (term m)) n)).
  { intros n Hn; rewrite coef_gfPolyAdd; unfold cadd, gfAdd.
    rewrite coef_gfPolyMultiply by exact Hn; reflexivity. }
  split; [| exact Hsum].
  apply numTerms_bound; [apply normalised_normal | lia |].
  intros n Hn; rewrite Hsum by lia.
  rewrite (cmul_ext _ (coef (term D)) _
             (fun k => if k =? numTerms R - numTerms D then c else 0) n)
    by (auto; intros; reflexivity).
  rewrite cmul_monomial by (try lia; intros; apply coef_neg; lia).
  destruct (Z.eq_dec n (numTerms R - 1)) as [-> | Hne].
  - replace (numTerms R - 1 - (numTerms R - numTerms D)) with (numTerms D - 1) by lia.
    rewrite !coef_at, Hmul by lia; apply Z.lxor_nilpotent.
  - rewrite !coef_beyond by (unfold numTerms in *; lia).
    reflexivity.
Qed.

(** The division loop returns a remainder shorter than the divisor, and
    what it took away is a multiple of the divisor. *)
Lemma remainder_loop_spec :
  forall fuel R,
    bytes (coef (term R)) -> numTerms R <= Z.of_nat fuel ->
    exists Q R',
      gfPolyRemainder_loop fuel R D = Ret R'
      /\ numTerms R' < numTerms D
      /\ bytes (coef (term R'))
      /\ bytes (coef Q)
      /\ forall n, 0 <= n ->
           coef (term R) n
           = Z.lxor (cmul (coef (term D)) (coef Q) n) (coef (term R') n).
Proof.
  induction fuel as [| fuel IH]; intros R HR Hfuel.
  - exists [], R; cbn [gfPolyRemainder_loop].
    destruct (Z.geb_spec (numTerms R) (numTerms D)); [simpl in Hfuel; lia |].
    split; [reflexivity |]; split; [lia |]; split; [exact HR |].
    split; [apply bytes_coef; constructor |].
    intros n Hn; rewrite cmul_nil, Z.lxor_0_l; reflexivity.
  - cbn [gfPolyRemainder_loop].
    destruct (Z.geb_spec (numTerms R) (numTerms D)) as [Hge | Hlt].
    + destruct (remainder_step R HR Hge) as (c & m & Hc & Hm & Hbm & Hlen & Hsum).
      rewrite Hc; cbn [bind]; rewrite Hm; cbn [bind].
      set (R1 := gfPolyAdd R (gfPolyMultiply D m)) in *.
      assert (HR1 : bytes (coef (term R1))).
      { intros n; destruct (Z.lt_ge_cases n 0) as [L | G].
        - rewrite coef_neg by exact L; apply byte_0.
        - rewrite Hsum by exact G; apply byte_lxor; [apply HR |].
          apply bytes_cmul. }
      destruct (IH R1 HR1 ltac:(lia)) as (Q1 & R' & Hrun & Hshort & HbR' & HbQ & Heq).
      exists (term (gfPolyAdd (mkPoly Q1) m)), R'.
      split; [exact Hrun |]; split; [exact Hshort |]; split; [exact HbR' |].
      split; [apply bytes_gfPolyAdd; assumption |].
      intros n Hn.
      rewrite (cmul_ext _ (coef (term D)) _
                 (cadd (coef Q1) (coef (term m))) n)
        by (auto; intros; apply coef_gfPolyAdd).
      rewrite cmul_cadd_r by assumption.
      unfold cadd, gfAdd.
      specialize (Heq n Hn); specialize (Hsum n Hn).
      rewrite Heq in Hsum.
      set (x := cmul (coef (term D)) (coef Q1) n) in *.
      set (y := cmul (coef (term D)) (coef (term m)) n) in *.
      set (r := coef (term R) n) in *; set (r' := coef (term R') n) in *.
      assert (E : r = Z.lxor (Z.lxor x r') y).
      { rewrite Hsum, Z.lxor_assoc, Z.lxor_nilpotent, Z.lxor_0_r.
        reflexivity. }
      rewrite E, !Z.lxor_assoc; f_equal; apply Z.lxor_comm.
    + exists [], R.
      split; [reflexivity |]; split; [lia |]; split; [exact HR |].
      split; [apply bytes_coef; constructor |].
      intros n Hn; rewrite cmul_nil, Z.lxor_0_l; reflexivity.
Qed.

Lemma equals_zero_false : equals D (mkPoly []) = false.
Proof.
  unfold equals.
  change (numTerms (mkPoly [])) with 0.
  rewrite Z.min_r, Z.max_l by lia.
  destruct (Z.gtb_spec (numTerms D) 0); [| lia].
  cbn [Z.to_nat upto seq map forallb andb].
  apply not_true_is_false; intros Hall.
  rewrite forallb_forall in Hall.
  specialize (Hall (numTerms D - 1)).
  rewrite Z.sub_0_r in Hall.
  apply D_lead, Z.eqb_eq, Hall, In_upto; lia.
Qed.

(** [gfPolyRemainder] returns, and returns the remainder of the division
    by [D]. *)
Lemma gfPolyRemainder_spec N :
  bytes (coef (term N)) ->
  exists Q R,
    gfPolyRemainder N D = Ret R
    /\ numTerms R < numTerms D
    /\ normal R
    /\ bytes (coef (term R))
    /\ bytes (coef Q)
    /\ forall n, 0 <= n ->
         coef (term N) n
         = Z.lxor (cmul (coef (term D)) (coef Q) n) (coef (term R) n).
Proof.
  intros HN; unfold gfPolyRemainder; rewrite equals_zero_false.
  destruct (remainder_loop_spec (S (length (term N))) N HN
              ltac:(unfold numTerms, len; lia))
    as (Q & R & Hrun & Hshort & HbR & HbQ & Heq).
  exists Q, (normalised R); rewrite Hrun; cbn [bind].
  split; [reflexivity |].
  split.
  - rewrite numTerms_normalised.
    pose proof (degree_bounds (term R)); unfold numTerms in *; lia.
  - split; [apply normalised_normal |].
    split; [apply bytes_normalised; exact HbR |].
    split; [exact HbQ |].
    intros n Hn; rewrite coef_normalised; apply Heq; exact Hn.
Qed.

End Remainder.

(** ** rsGeneratorPoly *)

Section Generator.

Lemma gfExpTable_alphaPow i :
  (i < 256)%nat -> index gfExpTable (Z.of_nat i) = Some (alphaPow i).
Proof.
  intros Hi.
  assert (H : forallb (fun i => at_ gfExpTable (Z.of_nat i) =? alphaPow i)
                      (seq 0 256) = true) by (vm_compute; reflexivity).
  rewrite forallb_forall in H.
  specialize (H i ltac:(apply in_seq; lia)); apply Z.eqb_eq in H.
  rewrite <- H; apply index_Some.
  change (len gfExpTable) with 256; lia.
Qed.

Lemma byte_alphaPow i : byte (alphaPow i).
Proof.
  destruct i; [unfold byte; simpl; lia | apply byte_gfMultiply].
Qed.

(** Multiplying by [x + e]. *)
Lemma cmul_linear f e n :
  bytes f -> byte e -> (forall i, i < 0 -> f i = 0) -> 0 <= n ->
  cmul f (coef [e; 1]) n = Z.lxor (gfMultiply (f n) e) (f (n - 1)).
Proof.
  intros Hf He Hneg Hn.
  rewrite (cmul_ext f f _
             (cadd (fun k => if k =? 0 then e else 0)
                   (fun k => if k =? 1 then 1 else 0)) n).
  - rewrite cmul_cadd_r; auto.
    + unfold cadd, gfAdd; rewrite !cmul_monomial by (auto; lia).
      rewrite Z.sub_0_r, gfMultiply_1_r by apply Hf; reflexivity.
    + intros k; destruct (k =? 0); [exact He | apply byte_0].
    + intros k; destruct (k =? 1); [unfold byte; lia | apply byte_0].
  - reflexivity.
  - intros k; unfold cadd, gfAdd, coef.
    destruct (Z.ltb_spec k 0).
    + destruct (Z.eqb_spec k 0), (Z.eqb_spec k 1); try lia; reflexivity.
    + destruct (Z.eq_dec k 0) as [-> | N0];
        [cbn; rewrite Z.lxor_0_r; reflexivity |].
      destruct (Z.eq_dec k 1) as [-> | N1]; [reflexivity |].
      rewrite at_beyond by (unfold len; simpl; lia).
      destruct (Z.eqb_spec k 0), (Z.eqb_spec k 1); try lia; reflexivity.
Qed.

Lemma generator_neg k n : n < 0 -> generator k n = 0.
Proof.
  intros Hn; destruct k; cbn [generator]; [apply coef_neg; exact Hn |].
  unfold cmul; replace (Z.to_nat (n + 1)) with O by lia; reflexivity.
Qed.

(** The generator loop after [k] rounds. *)
Lemma generator_loop k :
  (k <= 256)%nat ->
  exists G,
    forM (upto 0 k)
         (fun generator i =>
            match index gfExpTable i with
            | None => Panic
            | Some e => Ret (gfPolyMultiply generator (mkPoly [e; 1]))
            end)
         (mkPoly [1]) = Ret G
    /\ numTerms G = Z.of_nat k + 1
    /\ at_ (term G) (Z.of_nat k) = 1
    /\ bytes (coef (term G))
    /\ forall n, coef (term G) n = generator k n.
Proof.
  induction k as [| k IH]; intros Hk.
  - exists (mkPoly [1]); cbn [upto seq map forM generator].
    split; [reflexivity |]; split; [reflexivity |]; split; [reflexivity |].
    split; [| reflexivity].
    apply bytes_coef; repeat constructor; unfold byte; lia.
  - destruct (IH ltac:(lia)) as (G & Hrun & Hlen & Htop & Hb & Hgen).
    rewrite upto_snoc, forM_app, Hrun; cbn [bind forM].
    rewrite Z.add_0_l, gfExpTable_alphaPow by lia; cbn [bind].
    set (e := alphaPow k).
    set (G' := gfPolyMultiply G (mkPoly [e; 1])).
    assert (He : byte e) by apply byte_alphaPow.
    assert (Hcoef : forall n, 0 <= n ->
              coef (term G') n
              = Z.lxor (gfMultiply (coef (term G) n) e)
                       (coef (term G) (n - 1))).
    { intros n Hn; unfold G'; rewrite coef_gfPolyMultiply by exact Hn.
      cbn [term]; apply cmul_linear; auto.
      intros i Hi; apply coef_neg; exact Hi. }
    assert (Htop' : at_ (term G') (Z.of_nat (S k)) = 1).
    { rewrite <- coef_at, Hcoef by lia.
      rewrite (coef_beyond (term G)) by (unfold numTerms in Hlen; lia).
      replace (Z.of_nat (S k) - 1) with (Z.of_nat k) by lia.
      rewrite coef_at, Htop by lia; reflexivity. }
    assert (Hzero : forall n, Z.of_nat (S k) < n -> at_ (term G') n = 0).
    { intros n Hn; rewrite <- coef_at, Hcoef by lia.
      rewrite !(coef_beyond (term G)) by (unfold numTerms in Hlen; lia).
      reflexivity. }
    exists G'; split; [reflexivity |].
    split.
    { pose proof (normalised_normal_multiply G (mkPoly [e; 1])) as N.
      fold G' in N.
      unfold normal in N; rewrite N.
      rewrite (degree_unique (term G') (Z.of_nat (S k))); try lia.
      exact Hzero. }
    split; [exact Htop' |].
    split.
    { intros n; destruct (Z.lt_ge_cases n 0) as [L | Gn].
      - rewrite coef_neg by exact L; apply byte_0.
      - rewrite Hcoef by exact Gn; apply byte_lxor; [apply byte_gfMultiply |].
        apply Hb. }
    intros n; cbn [generator]; fold e.
    destruct (Z.lt_ge_cases n 0) as [L | Gn].
    + rewrite coef_neg by exact L.
      unfold cmul; replace (Z.to_nat (n + 1)) with O by lia; reflexivity.
    + unfold G'; rewrite coef_gfPolyMultiply by exact Gn.
      apply cmul_ext; [exact Hgen | reflexivity].
Qed.

Lemma rsGeneratorPoly_spec k :
  2 <= k <= 256 ->
  exists G,
    rsGeneratorPoly k = Ret G
    /\ numTerms G = k + 1
    /\ at_ (term G) k = 1
    /\ bytes (coef (term G))
    /\ forall n, coef (term G) n = generator (Z.to_nat k) n.
Proof.
  intros Hk; unfold rsGeneratorPoly.
  destruct (Z.ltb_spec k 2); [lia |].
  destruct (generator_loop (Z.to_nat k) ltac:(lia))
    as (G & Hrun & Hlen & Htop & Hb & Hgen).
  exists G; rewrite Z2Nat.id in * by lia; auto.
Qed.

End Generator.

(** ** The parts of Encode *)

Section EncodeParts.

Lemma modify_middle {A : Type} (f : A -> A) (l1 : list A) x l2 :
  modify f (length l1) (l1 ++ x :: l2) = l1 ++ f x :: l2.
Proof. induction l1 as [| y l1 IH]; simpl; [reflexivity | f_equal; exact IH]. Qed.

Lemma index_middle {A : Type} (l1 : list A) x l2 :
  index (l1 ++ x :: l2) (len l1) = Some x.
Proof.
  unfold index, len; destruct (Z.ltb_spec (Z.of_nat (length l1)) 0); [lia |].
  rewrite Nat2Z.id, nth_error_app2, Nat.sub_diag by lia; reflexivity.
Qed.

Lemma zeros_S n : 0 <= n -> zeros (n + 1) = zeros n ++ [0].
Proof.
  intros H; unfold zeros.
  replace (Z.to_nat (n + 1)) with (Z.to_nat n + 1)%nat by lia.
  apply repeat_app.
Qed.

Lemma zeros_S' n : 0 <= n -> zeros (n + 1) = 0 :: zeros n.
Proof.
  intros H; unfold zeros.
  replace (Z.to_nat (n + 1)) with (S (Z.to_nat n)) by lia; reflexivity.
Qed.

Lemma length_zeros n : length (zeros n) = Z.to_nat n.
Proof. apply repeat_length. Qed.

(** The loop of [newGFPolyFromData] fills the slice from its top. *)
Lemma fromData_loop b (bv : Z -> Z) :
  forall js acc,
    (forall j, In j js -> ByteAt b j = Ret (bv j)) ->
    forM js
      (fun (st : list Z * Z) j =>
         let (t, i) := st in
         by_ <- ByteAt b j ;;
         match index t i with
         | None => Panic
         | Some _ => Ret (modify (fun _ => by_) (Z.to_nat i) t, i - 1)
         end)
      (zeros (len js) ++ acc, len js - 1)
    = Ret (rev (map bv js) ++ acc, -1).
Proof.
  induction js as [| j js IH]; intros acc H; [reflexivity |].
  assert (Hlen : len (j :: js) = len js + 1) by (unfold len; simpl length; lia).
  assert (Hjs : 0 <= len js) by (unfold len; lia).
  cbn [forM]; rewrite H by (left; reflexivity); cbn [bind].
  rewrite Hlen, zeros_S, <- app_assoc by exact Hjs; cbn [app].
  replace (len js + 1 - 1) with (len (zeros (len js)))
    by (unfold len at 1; rewrite length_zeros; lia).
  rewrite index_middle.
  unfold len at 1; rewrite Nat2Z.id, modify_middle.
  replace (len (zeros (len js)) - 1) with (len js - 1)
    by (unfold len at 2; rewrite length_zeros; lia).
  cbn [bind].
  rewrite IH by (intros; apply H; right; assumption).
  cbn [map rev]; rewrite <- app_assoc; reflexivity.
Qed.

Lemma byteValue_Ret b i :
  covered b -> 0 <= i < numBits b ->
  ByteAt b i = Ret (byteValue b i) /\ byte (byteValue b i).
Proof.
  intros Hb Hi.
  destruct (ByteAt_bits b i Hb Hi) as (r & Hr & Hrange & _).
  unfold byteValue; rewrite Hr; split; [reflexivity |].
  unfold byte, available in *.
  assert (2 ^ Z.min 8 (numBits b - i) <= 2 ^ 8)
    by (apply Z.pow_le_mono_r; lia).
  change (2 ^ 8) with 256 in *; lia.
Qed.

(** [newGFPolyFromData]: the codewords of the buffer, last one first. *)
Lemma newGFPolyFromData_spec b :
  covered b ->
  exists cw,
    newGFPolyFromData b = Ret (mkPoly (rev cw))
    /\ len cw = (numBits b + 7) / 8
    /\ Forall byte cw
    /\ forall j, 0 <= j < len cw -> ByteAt b (8 * j) = Ret (at_ cw j).
Proof.
  intros Hb; pose proof Hb as [Hb0 Hb1].
  unfold newGFPolyFromData, Len.
  rewrite Z.quot_div_nonneg, Z.rem_mod_nonneg by lia.
  pose proof (Z.div_mod (numBits b) 8 ltac:(lia)) as Hdm.
  pose proof (Z.mod_pos_bound (numBits b) 8 ltac:(lia)) as Hmb.
  set (N := if numBits b mod 8 =? 0 then numBits b / 8
            else numBits b / 8 + 1).
  assert (HN : N = (numBits b + 7) / 8).
  { unfold N; destruct (Z.eqb_spec (numBits b mod 8) 0) as [E | E].
    - apply Z.div_unique with (r := 7); lia.
    - apply Z.div_unique with (r := numBits b mod 8 - 1); lia. }
  assert (HN0 : 0 <= N) by (rewrite HN; apply Z.div_pos; lia).
  assert (HN8 : forall j, 0 <= j < N -> 0 <= 8 * j < numBits b).
  { intros j Hj; unfold N in Hj.
    destruct (Z.eqb_spec (numBits b mod 8) 0); lia. }
  set (js := map (fun n => 8 * n) (upto 0 (Z.to_nat N))).
  assert (Hjs : len js = N).
  { unfold len, js; rewrite length_map, length_upto; lia. }
  exists (map (byteValue b) js).
  assert (Hin : forall j, In j js -> ByteAt b j = Ret (byteValue b j)).
  { intros j Hj; unfold js in Hj.
    apply in_map_iff in Hj as (n & <- & Hn); apply In_upto in Hn.
    apply byteValue_Ret; [exact Hb | apply HN8; lia]. }
  pose proof (fromData_loop b (byteValue b) js [] Hin) as Hloop.
  rewrite Hjs, !app_nil_r in Hloop.
  rewrite Hloop; cbn [bind fst].
  split; [reflexivity |].
  split; [unfold len; rewrite length_map; fold (len js); lia |].
  split.
  - apply Forall_forall; intros x Hx.
    apply in_map_iff in Hx as (j & <- & Hj).
    unfold js in Hj; apply in_map_iff in Hj as (n & <- & Hn).
    apply In_upto in Hn; apply byteValue_Ret; [exact Hb | apply HN8; lia].
  - intros j Hj.
    unfold len in Hj; rewrite length_map in Hj; fold (len js) in Hj.
    assert (E : at_ (map (byteValue b) js) j = byteValue b (8 * j)).
    { unfold at_, js.
      rewrite map_map.
      rewrite nth_indep with (d' := byteValue b (8 * 0))
        by (rewrite length_map, length_upto; lia).
      rewrite map_nth with (f := fun n => byteValue b (8 * n)).
      rewrite nth_upto by lia; do 2 f_equal; lia. }
    rewrite E; apply byteValue_Ret; [exact Hb | apply HN8; lia].
Qed.

(** The loop of [data] writes the terms one after the other. *)
Lemma data_loop :
  forall xs pre post,
    forM xs
      (fun (st : list Z * Z) tj =>
         let (result, i) := st in
         match index result i with
         | None => Panic
         | Some _ => Ret (modify (fun _ => tj) (Z.to_nat i) result, i + 1)
         end)
      (pre ++ zeros (len xs) ++ post, len pre)
    = Ret (pre ++ xs ++ post, len pre + len xs).
Proof.
  induction xs as [| x xs IH]; intros pre post.
  - cbn [forM]; change (len (@nil Z)) with 0; rewrite Z.add_0_r; reflexivity.
  - assert (Hlen : len (x :: xs) = len xs + 1)
      by (unfold len; simpl length; lia).
    assert (Hxs : 0 <= len xs) by (unfold len; lia).
    cbn [forM]; rewrite Hlen, zeros_S' by exact Hxs; cbn [app].
    rewrite index_middle; cbn [bind].
    unfold len at 1; rewrite Nat2Z.id, modify_middle.
    replace (pre ++ x :: zeros (len xs) ++ post)
      with ((pre ++ [x]) ++ zeros (len xs) ++ post)
      by (rewrite <- app_assoc; reflexivity).
    replace (len pre + 1) with (len (pre ++ [x]))
      by (unfold len; rewrite length_app; simpl; lia).
    rewrite IH, <- app_assoc; cbn [app].
    do 2 f_equal; unfold len; rewrite length_app; simpl; lia.
Qed.

(** [data]: the terms from the top down, after zero bytes for the terms
    the polynomial does not have. *)
Lemma data_spec e n :
  numTerms e <= n ->
  reedsolomon.data e n = Ret (zeros (n - numTerms e) ++ rev (term e)).
Proof.
  intros H; unfold reedsolomon.data.
  assert (H0 : 0 <= numTerms e) by (unfold numTerms, len; lia).
  destruct (Z.ltb_spec n 0); [lia |].
  pose proof (data_loop (rev (term e)) (zeros (n - numTerms e)) []) as L.
  assert (Hrev : len (rev (term e)) = numTerms e)
    by (unfold len, numTerms; rewrite length_rev; reflexivity).
  rewrite Hrev, !app_nil_r in L.
  replace (zeros (n - numTerms e) ++ zeros (numTerms e)) with (zeros n) in L.
  - unfold len at 1 in L; rewrite length_zeros in L.
    replace (Z.of_nat (Z.to_nat (n - numTerms e))) with (n - numTerms e)
      in L by lia.
    rewrite L; reflexivity.
  - unfold zeros; rewrite <- repeat_app; f_equal; lia.
Qed.

Lemma bytes_Forall p : bytes (coef p) -> Forall byte p.
Proof.
  intros H; apply Forall_forall; intros x Hx.
  apply (In_nth _ _ 0) in Hx as (i & Hi & <-).
  specialize (H (Z.of_nat i)).
  rewrite coef_at, at_nth in H by lia; exact H.
Qed.

Lemma byte_eq_bits a b :
  byte a -> byte b ->
  (forall t, 0 <= t < 8 -> Z.testbit a t = Z.testbit b t) -> a = b.
Proof.
  unfold byte; intros Ha Hb H.
  rewrite <- (Z.mod_small a (2 ^ 8)), <- (Z.mod_small b (2 ^ 8))
    by (change (2 ^ 8) with 256; lia).
  apply Z.bits_inj'; intros n Hn.
  destruct (Z.lt_ge_cases n 8).
  - rewrite !Z.mod_pow2_bits_low by lia; apply H; lia.
  - rewrite !Z.mod_pow2_bits_high by lia; reflexivity.
Qed.

End EncodeParts.

(** ** reedsolomon.Encode *)

Section EncodeCorrect.

Lemma Clone_same b : Clone b = b.
Proof. destruct b; reflexivity. Qed.

Lemma coef_rev_data R k :
  forall n, coef (rev (zeros (k - numTerms R) ++ rev (term R))) n
            = coef (term R) n.
Proof.
  intros n; rewrite rev_app_distr, rev_involutive.
  unfold zeros; rewrite rev_repeat.
  unfold coef; rewrite at_app_zeros; reflexivity.
Qed.

(** The shifted data polynomial [ecpoly * x^k]. *)
Lemma coef_shifted cw k n :
  Forall byte cw -> 0 <= k -> 0 <= n ->
  coef (term (gfPolyMultiply (mkPoly (rev cw)) (mkPoly (zeros k ++ [1])))) n
  = coef (rev cw) (n - k).
Proof.
  intros Hcw Hk Hn; rewrite coef_gfPolyMultiply by exact Hn; cbn [term].
  rewrite (cmul_ext _ (coef (rev cw)) _ (fun i => if i =? k then 1 else 0) n)
    by (auto; intros; apply coef_monomial; exact Hk).
  rewrite cmul_monomial by (auto; intros; apply coef_neg; assumption).
  apply gfMultiply_1_r, bytes_coef, Forall_rev; exact Hcw.
Qed.

(** C1 (amended): on a buffer [b] with clean storage and for
    [2 <= k <= 256], [Encode] returns the bits of [b] followed by [k] bytes
    [ec], which are the remainder of the data polynomial times [x^k] by
    [G_k]: with [cw] the codewords [ByteAt] reads from [b], most significant
    term first, there is a quotient [q] with
    [cw(x) x^k = G_k(x) q(x) + ec(x)], and [ec] has [k] terms. *)
Theorem Encode_remainder b k :
  clean b -> 2 <= k <= 256 ->
  exists result cw ec q,
    Encode b k = Ret result
    /\ Len result = Len b + 8 * k
    /\ (forall i, 0 <= i < Len b -> At result i = At b i)
    /\ len ec = k
    /\ (forall j, 0 <= j < k ->
          ByteAt result (Len b + 8 * j) = Ret (at_ ec j))
    /\ len cw = (Len b + 7) / 8
    /\ (forall j, 0 <= j < len cw -> ByteAt b (8 * j) = Ret (at_ cw j))
    /\ bytes (coef q)
    /\ (forall n, 0 <= n ->
          coef (rev cw) (n - k)
          = gfAdd (cmul (generator (Z.to_nat k)) (coef q) n)
                  (coef (rev ec) n)).
Proof.
  intros Hclean Hk; pose proof Hclean as [Hcov Hslack].
  destruct (newGFPolyFromData_spec b Hcov) as (cw & Hfrom & Hlcw & Hbcw & Hcw).
  destruct (rsGeneratorPoly_spec k Hk) as (G & HG & HGlen & HGtop & HGb & HGgen).
  set (ecpoly := gfPolyMultiply (mkPoly (rev cw)) (mkPoly (zeros k ++ [1]))).
  assert (Hec : forall n, 0 <= n -> coef (term ecpoly) n = coef (rev cw) (n - k))
    by (intros; apply coef_shifted; auto; lia).
  assert (Hecb : bytes (coef (term ecpoly))).
  { intros n; destruct (Z.lt_ge_cases n 0) as [L | Gn].
    - rewrite coef_neg by exact L; apply byte_0.
    - rewrite Hec by exact Gn; apply bytes_coef, Forall_rev; exact Hbcw. }
  destruct (gfPolyRemainder_spec G HGb
              ltac:(rewrite HGlen; replace (k + 1 - 1) with k by lia;
                    rewrite HGtop; discriminate)
              ltac:(lia) ecpoly Hecb)
    as (Q & R & Hrem & HRlen & _ & HRb & HQb & Heq).
  set (ec := zeros (k - numTerms R) ++ rev (term R)).
  assert (HR0 : 0 <= numTerms R) by (unfold numTerms, len; lia).
  assert (Hlec : len ec = k).
  { unfold ec; rewrite len_app, len_zeros by lia.
    unfold len, numTerms; rewrite length_rev; unfold len; lia. }
  assert (Hbec : Forall byte ec).
  { unfold ec; apply Forall_app; split.
    - apply Forall_forall; intros x Hx; apply repeat_spec in Hx; subst x.
      apply byte_0.
    - apply Forall_rev, bytes_Forall; exact HRb. }
  destruct (AppendBytes_spec ec b Hclean)
    as (result & Happ & Hcr & Hnr & Hkeep & Hnew).
  exists result, cw, ec, Q.
  split.
  { unfold Encode; rewrite Hfrom; cbn [bind].
    unfold newGFPolyMonomial, gfOne, gfZero; cbn [Z.eqb].
    destruct (Z.ltb_spec k 0); [lia |]; cbn [bind].
    fold ecpoly; rewrite HG; cbn [bind]; rewrite Hrem; cbn [bind].
    rewrite Clone_same, data_spec by lia; cbn [bind].
    exact Happ. }
  unfold Len; split; [lia |].
  split.
  { intros i Hi.
    rewrite !At_rawbit; auto; [f_equal; apply Hkeep; exact Hi | | lia].
    apply Hcr. }
  split; [exact Hlec |].
  split.
  { intros j Hj.
    assert (Hidx : 0 <= numBits b + 8 * j < numBits result)
      by (destruct Hcov; lia).
    destruct (ByteAt_bits result (numBits b + 8 * j)
                ltac:(apply Hcr) Hidx) as (r & Hr & Hrange & Hbits).
    assert (Hav : available result (numBits b + 8 * j) = 8)
      by (unfold available; lia).
    rewrite Hav in *.
    rewrite Hr; f_equal.
    apply byte_eq_bits.
    - unfold byte; change 256 with (2 ^ 8); exact Hrange.
    - apply byte_at_table; exact Hbec.
    - intros t Ht.
      specialize (Hbits (7 - t) ltac:(lia)).
      rewrite At_rawbit in Hbits by (try apply Hcr; lia).
      rewrite Hnew in Hbits by lia.
      apply Ret_inj in Hbits.
      replace (8 - 1 - (7 - t)) with t in Hbits by lia.
      replace (7 - (7 - t)) with t in Hbits by lia.
      symmetry; exact Hbits. }
  split; [exact Hlcw |].
  split; [exact Hcw |].
  split; [exact HQb |].
  intros n Hn.
  rewrite <- Hec, Heq by exact Hn.
  unfold gfAdd; f_equal.
  - apply cmul_ext; [exact HGgen | reflexivity].
  - symmetry; apply coef_rev_data.
Qed.

Lemma cleanb_clean b : cleanb b = true -> clean b.
Proof.
  unfold cleanb, clean, covered; intros H.
  apply andb_prop in H as (H & Hz); apply andb_prop in H as (H0 & H1).
  apply Z.leb_le in H0, H1; split; [lia |]; intros k Hk.
  destruct (Z.lt_ge_cases k (8 * len (bits b))) as [L | G].
  - rewrite forallb_forall in Hz.
    apply negb_true_iff, Hz, In_upto; lia.
  - unfold rawbit; rewrite at_beyond; [apply Z.testbit_0_l |].
    apply Z.div_le_lower_bound; lia.
Qed.

Lemma Encode_remainder_witness :
  clean helloCodewords /\ 2 <= 10 <= 256
  /\ exists result cw ec q,
       Encode helloCodewords 10 = Ret result
       /\ Len result = Len helloCodewords + 8 * 10
       /\ (forall i, 0 <= i < Len helloCodewords ->
             At result i = At helloCodewords i)
       /\ len ec = 10
       /\ (forall j, 0 <= j < 10 ->
             ByteAt result (Len helloCodewords + 8 * j) = Ret (at_ ec j))
       /\ len cw = (Len helloCodewords + 7) / 8
       /\ (forall j, 0 <= j < len cw ->
             ByteAt helloCodewords (8 * j) = Ret (at_ cw j))
       /\ bytes (coef q)
       /\ (forall n, 0 <= n ->
             coef (rev cw) (n - 10)
             = gfAdd (cmul (generator (Z.to_nat 10)) (coef q) n)
                     (coef (rev ec) n)).
Proof.
  assert (Hc : clean helloCodewords) by (apply cleanb_clean; reflexivity).
  assert (Hk : 2 <= 10 <= 256) by lia.
  split; [exact Hc |]; split; [exact Hk |].
  exact (Encode_remainder helloCodewords 10 Hc Hk).
Defined.

(** The ten error-correction codewords of "HELLO WORLD" at version 1-M. *)
Example Encode_hello :
  (r <- Encode helloCodewords 10 ;;
   forM (upto 0 26)
        (fun acc j => c <- ByteAt r (8 * j) ;; Ret (acc ++ [c])) [])
  = Ret [32; 91; 11; 120; 209; 114; 220; 77; 67; 64; 236; 17; 236; 17;
         236; 17; 196; 35; 39; 119; 235; 215; 231; 226; 93; 23].
Proof. vm_compute; reflexivity. Qed.

(** Two appends leave the codewords 1 and 2 in five bytes of storage. *)
Example twoCodewords_fresh :
  (b <- bitset.New [] ;; b <- AppendByte b 1 8 ;; AppendByte b 2 8)
  = Ret twoCodewords.
Proof. reflexivity. Qed.

(** [Encode(b, 3)] on them fits its result in those five bytes. *)
Example twoCodewords_shared :
  exists r, Encode twoCodewords 3 = Ret r
            /\ bits r = bits twoCodewordsReused
            /\ length (bits r) = length (bits twoCodewords).
Proof. eexists; split; [vm_compute; reflexivity | split; reflexivity]. Qed.

(** A last group of fewer than eight bits is read as a small number, not
    as a codeword with zero bits after it: the one bit [1] is the
    codeword 1. *)
Example Encode_short_group :
  Encode oneBit 2 = Ret (mkBitset 17 [129; 129; 0; 0; 0])
  /\ Encode (mkBitset 8 [1]) 2 = Ret (mkBitset 24 [1; 3; 2; 0; 0])
  /\ Encode (mkBitset 8 [128]) 2 = Ret (mkBitset 24 [128; 157; 29; 0; 0]).
Proof. repeat split; vm_compute; reflexivity. Qed.

(** C1 as stated fails for [k = 257], where the generator loop reads
    [gfExpTable[256]], and on a buffer whose storage holds bits past its
    end: the codewords 1 and 2 have the remainder (1, 2), which [Encode]
    appends to the fresh buffer; on the storage an earlier [Encode(b, 3)]
    wrote into, the bytes appended are (21, 62). *)
Lemma Encode_not_total :
  Encode eightZeroBits 257 = Panic
  /\ Len twoCodewordsReused = Len twoCodewords
  /\ map (At twoCodewordsReused) (upto 0 16) = map (At twoCodewords) (upto 0 16)
  /\ Encode twoCodewords 2 = Ret (mkBitset 32 [1; 2; 1; 2; 0])
  /\ Encode twoCodewordsReused 2 = Ret (mkBitset 32 [1; 2; 21; 62; 40]).
Proof. repeat split; vm_compute; reflexivity. Qed.

End EncodeCorrect.

(** ** The dark-module count and penalty rule 4 *)

Section SymbolFacts.

Lemma zsum_app {A : Type} (f : A -> Z) xs ys :
  zsum f (xs ++ ys) = zsum f xs + zsum f ys.
Proof. induction xs; simpl; lia. Qed.

Lemma zsum_ext {A : Type} (f g : A -> Z) xs :
  (forall x, In x xs -> f x = g x) -> zsum f xs = zsum g xs.
Proof.
  induction xs as [| x xs IH]; intros H; simpl; [reflexivity |].
  rewrite H, IH; auto; [intros; apply H; right; auto | left; auto].
Qed.

Lemma zsum_map {A B : Type} (f : B -> Z) (g : A -> B) xs :
  zsum f (map g xs) = zsum (fun x => f (g x)) xs.
Proof. induction xs; simpl; congruence. Qed.

Lemma zsum_plus {A : Type} (f g : A -> Z) xs :
  zsum (fun x => f x + g x) xs = zsum f xs + zsum g xs.
Proof. induction xs; simpl; lia. Qed.

Lemma zsum_const0 {A : Type} (xs : list A) : zsum (fun _ => 0) xs = 0.
Proof. induction xs; simpl; lia. Qed.

Lemma zsum_exchange {A B : Type} (f : A -> B -> Z) xs ys :
  zsum (fun x => zsum (fun y => f x y) ys) xs
  = zsum (fun y => zsum (fun x => f x y) xs) ys.
Proof.
  induction xs as [| x xs IH]; simpl.
  - symmetry; apply zsum_const0.
  - rewrite IH, <- zsum_plus; reflexivity.
Qed.

Lemma fold_left_zsum {A : Type} (f : A -> Z) xs acc :
  fold_left (fun a x => a + f x) xs acc = acc + zsum f xs.
Proof.
  revert acc; induction xs as [| x xs IH]; intros acc; simpl; [lia |].
  rewrite IH; lia.
Qed.

Lemma count_concat (ls : list (list bool)) :
  len (filter (fun v : bool => v) (concat ls))
  = zsum (fun l => len (filter (fun v : bool => v) l)) ls.
Proof.
  unfold len; induction ls as [| l ls IH]; simpl; [reflexivity |].
  rewrite filter_app, length_app; lia.
Qed.

Lemma count_map_nth (f : nat -> bool) (ks : list nat) :
  len (filter (fun v : bool => v) (map f ks))
  = zsum (fun k => Z.b2z (f k)) ks.
Proof.
  unfold len; induction ks as [| k ks IH]; simpl; [reflexivity |].
  destruct (f k); simpl length; cbn [Z.b2z]; lia.
Qed.

Lemma nth_map_seq {A : Type} (f : nat -> A) s n k d :
  (k < n)%nat -> nth k (map f (seq s n)) d = f (s + k)%nat.
Proof.
  intros H.
  rewrite nth_indep with (d' := f 0%nat)
    by (rewrite length_map, length_seq; lia).
  rewrite map_nth, seq_nth by lia; reflexivity.
Qed.

Lemma slice_nth {A : Type} (l : list A) (q n : Z) (d : A) :
  0 <= q -> 0 <= n -> q + n <= len l ->
  slice l q (q + n)
  = map (fun k => nth (Z.to_nat q + k) l d) (seq 0 (Z.to_nat n)).
Proof.
  unfold slice, len; intros Hq Hn Hl.
  replace (q + n - q) with n by lia.
  apply nth_ext with (d := d) (d' := d).
  - rewrite length_firstn, length_skipn, length_map, length_seq; lia.
  - intros k Hk.
    rewrite length_firstn, length_skipn in Hk.
    rewrite nth_firstn.
    destruct (Nat.ltb_spec k (Z.to_nat n)); [| lia].
    rewrite nth_skipn, nth_map_seq by lia; reflexivity.
Qed.

Lemma get_Ret s x y :
  allocated s -> 0 <= x < symbolSize s -> 0 <= y < symbolSize s ->
  get s x y = Ret (moduleAt s x y).
Proof.
  intros (Hq & Hn & Hrows & Hcols) Hx Hy; unfold get, cell, moduleAt.
  rewrite (index_Some (module s) _ []) by lia.
  assert (Hrow : len (nth (Z.to_nat (y + quietZoneSize s)) (module s) [])
                 = symbolSize s + 2 * quietZoneSize s).
  { rewrite Forall_forall in Hcols; apply Hcols, nth_In.
    unfold len in *; lia. }
  rewrite (index_Some _ _ false) by lia.
  reflexivity.
Qed.

Lemma region_moduleAt s :
  allocated s ->
  region s
  = map (fun j => map (fun i => moduleAt s (Z.of_nat i) (Z.of_nat j))
                      (seq 0 (Z.to_nat (symbolSize s))))
        (seq 0 (Z.to_nat (symbolSize s))).
Proof.
  intros (Hq & Hn & Hrows & Hcols); unfold region.
  rewrite (slice_nth (module s) _ _ []) by lia.
  rewrite map_map; apply map_ext_in; intros j Hj; apply in_seq in Hj.
  assert (Hrow : len (nth (Z.to_nat (quietZoneSize s) + j) (module s) [])
                 = symbolSize s + 2 * quietZoneSize s).
  { rewrite Forall_forall in Hcols; apply Hcols, nth_In.
    unfold len in *; lia. }
  rewrite (slice_nth _ _ _ false) by lia.
  apply map_ext; intros i; unfold moduleAt.
  replace (Z.to_nat (Z.of_nat j + quietZoneSize s))
    with (Z.to_nat (quietZoneSize s) + j)%nat by lia.
  replace (Z.to_nat (Z.of_nat i + quietZoneSize s))
    with (Z.to_nat (quietZoneSize s) + i)%nat by lia.
  reflexivity.
Qed.

Lemma upto_of_nat n : upto 0 n = map Z.of_nat (seq 0 n).
Proof. unfold upto; apply map_ext; intros; lia. Qed.

Lemma darkModules_zsum s :
  allocated s ->
  darkModules s
  = zsum (fun x => zsum (fun y => Z.b2z (moduleAt s x y))
                        (upto 0 (Z.to_nat (symbolSize s))))
         (upto 0 (Z.to_nat (symbolSize s))).
Proof.
  intros Hs; unfold darkModules.
  rewrite region_moduleAt, count_concat, zsum_map by exact Hs.
  rewrite zsum_exchange, !upto_of_nat, zsum_map.
  apply zsum_ext; intros j _.
  rewrite count_map_nth, zsum_map; reflexivity.
Qed.

(** The counting loops of [penalty4]. *)
Lemma penalty4_count s :
  allocated s ->
  forM (upto 0 (Z.to_nat (symbolSize s)))
       (fun n x =>
          forM (upto 0 (Z.to_nat (symbolSize s)))
               (fun n y => v <- get s x y ;; Ret (if v then n + 1 else n))
               n)
       0
  = Ret (darkModules s).
Proof.
  intros Hs.
  rewrite forM_pure with
    (f := fun n x => n + zsum (fun y => Z.b2z (moduleAt s x y))
                             (upto 0 (Z.to_nat (symbolSize s)))).
  - rewrite fold_left_zsum, darkModules_zsum by exact Hs; reflexivity.
  - intros n x Hx; apply In_upto in Hx.
    rewrite forM_pure with (f := fun n y => n + Z.b2z (moduleAt s x y)).
    + rewrite fold_left_zsum; reflexivity.
    + intros m y Hy; apply In_upto in Hy.
      rewrite get_Ret by (auto; lia); cbn [bind].
      destruct (moduleAt s x y); cbn [Z.b2z]; f_equal; lia.
Qed.

(** [penalty4] in terms of the dark-module count. *)
Lemma penalty4_value s :
  allocated s -> 5 <= symbolSize s ->
  penalty4 s
  = Ret (penaltyWeight4 *
         (Z.abs (totalModules s / 2 - darkModules s) / (totalModules s / 20))).
Proof.
  intros Hs Hn; unfold penalty4.
  rewrite penalty4_count by exact Hs; cbn [bind].
  fold (totalModules s).
  assert (Ht : 25 <= totalModules s) by (unfold totalModules; nia).
  rewrite (Z.quot_div_nonneg (totalModules s) 2),
    (Z.quot_div_nonneg (totalModules s) 20) by lia.
  assert (Hq : 1 <= totalModules s / 20)
    by (apply Z.div_le_lower_bound; lia).
  destruct (Z.eqb_spec (totalModules s / 20) 0); [lia |].
  do 2 f_equal.
  set (dev := totalModules s / 2 - darkModules s).
  destruct (Z.ltb_spec dev 0).
  - rewrite Z.quot_div_nonneg by lia; f_equal; lia.
  - rewrite Z.quot_div_nonneg by lia; f_equal; lia.
Qed.

Lemma allocated_invert s : allocated s -> allocated (invert s).
Proof.
  intros (Hq & Hn & Hrows & Hcols); unfold allocated, invert; cbn.
  repeat split; try assumption.
  - unfold len in *; rewrite length_map; exact Hrows.
  - rewrite Forall_map; eapply Forall_impl; [| exact Hcols].
    intros row; unfold len; rewrite length_map; auto.
Qed.

Lemma moduleAt_invert s x y :
  allocated s -> 0 <= x < symbolSize s -> 0 <= y < symbolSize s ->
  moduleAt (invert s) x y = negb (moduleAt s x y).
Proof.
  intros (Hq & Hn & Hrows & Hcols) Hx Hy; unfold moduleAt, invert; cbn.
  assert (Hy' : (Z.to_nat (y + quietZoneSize s) < length (module s))%nat)
    by (unfold len in *; lia).
  rewrite nth_indep with (d' := map negb [])
    by (rewrite length_map; exact Hy').
  rewrite map_nth.
  assert (Hrow : len (nth (Z.to_nat (y + quietZoneSize s)) (module s) [])
                 = symbolSize s + 2 * quietZoneSize s).
  { rewrite Forall_forall in Hcols; apply Hcols, nth_In; exact Hy'. }
  rewrite nth_indep with (d' := negb true)
    by (rewrite length_map; unfold len in *; lia).
  rewrite map_nth.
  f_equal; apply nth_indep; unfold len in *; lia.
Qed.

Lemma zsum_const {A : Type} (c : Z) (xs : list A) :
  zsum (fun _ => c) xs = c * len xs.
Proof. unfold len; induction xs; simpl length; simpl zsum; lia. Qed.

Lemma zsum_minus {A : Type} (c : Z) (f : A -> Z) (xs : list A) :
  zsum (fun x => c - f x) xs = c * len xs - zsum f xs.
Proof. unfold len; induction xs; simpl length; simpl zsum; lia. Qed.

Lemma darkModules_invert s :
  allocated s -> darkModules (invert s) = totalModules s - darkModules s.
Proof.
  intros Hs.
  rewrite !darkModules_zsum by auto using allocated_invert.
  change (symbolSize (invert s)) with (symbolSize s).
  set (xs := upto 0 (Z.to_nat (symbolSize s))).
  assert (Hlen : len xs = symbolSize s).
  { unfold len, xs; rewrite length_upto; destruct Hs as (_ & ? & _); lia. }
  transitivity
    (zsum (fun x => symbolSize s
                    - zsum (fun y => Z.b2z (moduleAt s x y)) xs) xs).
  - apply zsum_ext; intros x Hx.
    rewrite <- (Z.mul_1_l (symbolSize s)), <- Hlen, <- zsum_minus.
    apply zsum_ext; intros y Hy.
    apply In_upto in Hx, Hy.
    rewrite moduleAt_invert by (auto; lia).
    destruct (moduleAt s x y); reflexivity.
  - rewrite zsum_minus, Hlen; reflexivity.
Qed.

Lemma allocated_painted n q f :
  0 <= n -> 0 <= q -> allocated (painted n q f).
Proof.
  intros Hn Hq; unfold allocated, painted.
  cbn [module symbolSize quietZoneSize].
  split; [exact Hq |]; split; [exact Hn |].
  split; [unfold len; rewrite length_map, length_upto; lia |].
  apply Forall_map, Forall_forall; intros y _.
  unfold len; rewrite length_map, length_upto; lia.
Qed.

Lemma allocated_newSymbol n q s :
  0 <= n -> 0 <= q -> newSymbol n q = Ret s -> allocated s.
Proof.
  intros Hn Hq; unfold newSymbol; cbv zeta.
  destruct (Z.ltb_spec (n + 2 * q) 0); [lia |].
  intros E; apply Ret_inj in E; subst s.
  unfold allocated; cbn [module symbolSize quietZoneSize].
  split; [exact Hq |]; split; [exact Hn |].
  split; [unfold len; rewrite repeat_length; lia |].
  apply Forall_forall; intros row Hrow; apply repeat_spec in Hrow; subst row.
  unfold len; rewrite repeat_length; lia.
Qed.

(** The sample symbols are what [newSymbol(21, 4)] and a [set] on each of
    the 441 modules leave. *)
Example dark199_by_set :
  (s <- newSymbol 21 4 ;;
   forM (upto 0 441)
        (fun s k => set s (k mod 21) (k / 21) (k <? 199)) s)
  = Ret dark199.
Proof. vm_compute; reflexivity. Qed.

Example run5_by_set :
  (s <- newSymbol 21 4 ;;
   forM (upto 0 441)
        (fun s k =>
           set s (k mod 21) (k / 21)
               (Z.even (k mod 21 + k / 21) || ((k / 21 =? 0) && (k mod 21 <? 5))))
        s)
  = Ret run5.
Proof. vm_compute; reflexivity. Qed.

(** C4 (amended): rule P4 is [w4 * floor(|floor(total / 2) - dark| /
    floor(total / 20))] for [dark] dark modules of [total]: the distance of
    the dark count from half of the modules, in steps of a twentieth (five
    percent) of them, times 10. *)
Theorem penalty4_formula s :
  allocated s -> 5 <= symbolSize s ->
  penalty4 s
  = Ret (penaltyWeight4 *
         (Z.abs (totalModules s / 2 - darkModules s) / (totalModules s / 20))).
Proof. exact (penalty4_value s). Qed.

Lemma penalty4_formula_witness :
  allocated dark199 /\ 5 <= symbolSize dark199
  /\ penalty4 dark199
     = Ret (penaltyWeight4 *
            (Z.abs (totalModules dark199 / 2 - darkModules dark199)
             / (totalModules dark199 / 20))).
Proof.
  assert (Ha : allocated dark199) by (apply allocated_painted; lia).
  assert (Hn : 5 <= symbolSize dark199) by (simpl; lia).
  split; [exact Ha |]; split; [exact Hn |].
  exact (penalty4_formula dark199 Ha Hn).
Defined.

(** C4 as stated fails on the symbol [newSymbol(21, 4)] returns, all light:
    [penalty4] is 100 (ten steps of five percent), the formula of the claim
    gives 200. *)
Lemma penalty4_not_claimed :
  newSymbol 21 4 = Ret blank21
  /\ penalty4 blank21 = Ret 100
  /\ claimedPenalty4 blank21 = 200.
Proof.
  split; [reflexivity |]; split; vm_compute; reflexivity.
Qed.

(** C5 (amended): inverting every module moves [penalty4] by at most one
    bucket, and not at all in a symbol of even size. *)
Theorem penalty4_invert s :
  allocated s -> 5 <= symbolSize s ->
  exists p p',
    penalty4 s = Ret p /\ penalty4 (invert s) = Ret p'
    /\ Z.abs (p - p') <= penaltyWeight4
    /\ (Z.even (symbolSize s) = true -> p = p').
Proof.
  intros Hs Hn.
  do 2 eexists; split; [apply penalty4_value; assumption |].
  split; [apply penalty4_value; auto using allocated_invert |].
  rewrite darkModules_invert by exact Hs.
  change (totalModules (invert s)) with (totalModules s).
  unfold penaltyWeight4.
  set (t := totalModules s); set (d := darkModules s).
  assert (Ht : 25 <= t) by (unfold t, totalModules; nia).
  assert (Hq : 1 <= t / 20) by (apply Z.div_le_lower_bound; lia).
  set (q := t / 20) in *.
  pose proof (Z.div_mod t 2 ltac:(lia)) as Hdm.
  pose proof (Z.mod_pos_bound t 2 ltac:(lia)) as Hmb.
  set (h := t / 2) in *.
  set (a := Z.abs (h - d)); set (b := Z.abs (h - (t - d))).
  assert (Hab : Z.abs (a - b) <= 1) by (unfold a, b; lia).
  assert (Ha : 0 <= a) by (unfold a; lia).
  assert (Hb : 0 <= b) by (unfold b; lia).
  assert (Hstep : forall u v, 0 <= u -> u <= v + 1 -> u / q <= v / q + 1).
  { intros u v Hu Huv.
    transitivity ((v + 1 * q) / q); [apply Z.div_le_mono; lia |].
    rewrite Z.div_add by lia; lia. }
  split.
  - pose proof (Hstep a b Ha ltac:(lia)).
    pose proof (Hstep b a Hb ltac:(lia)).
    lia.
  - intros Hev.
    assert (Et : Z.even t = true).
    { unfold t, totalModules; rewrite Z.even_mul, Hev; reflexivity. }
    rewrite Zmod_even, Et in Hdm.
    do 2 f_equal; unfold a, b; lia.
Qed.

Lemma penalty4_invert_witness :
  allocated dark199 /\ 5 <= symbolSize dark199
  /\ exists p p',
       penalty4 dark199 = Ret p /\ penalty4 (invert dark199) = Ret p'
       /\ Z.abs (p - p') <= penaltyWeight4
       /\ (Z.even (symbolSize dark199) = true -> p = p').
Proof.
  assert (Ha : allocated dark199) by (apply allocated_painted; lia).
  assert (Hn : 5 <= symbolSize dark199) by (simpl; lia).
  split; [exact Ha |]; split; [exact Hn |].
  exact (penalty4_invert dark199 Ha Hn).
Defined.

(** C5 as stated fails on a version-1 symbol with 199 dark modules of 441:
    [penalty4] is 0, and 10 once every module is inverted (242 dark). *)
Lemma penalty4_not_symmetric :
  darkModules dark199 = 199
  /\ penalty4 dark199 = Ret 0
  /\ penalty4 (invert dark199) = Ret 10.
Proof. repeat split; vm_compute; reflexivity. Qed.

End SymbolFacts.

(** ** Penalty rule 1 *)

Section Rule1.

Lemma penalty1_line : forall l p last c,
  1 <= c ->
  fst (fst (fold_left penalty1_step l (p, last, c)))
  = p - scoredRun c + zsum scoredRun (runsFrom last c l).
Proof.
  induction l as [| v l IH]; intros p last c Hc.
  - cbn; lia.
  - cbn [fold_left runsFrom].
    unfold penalty1_step at 2.
    destruct (Bool.eqb v last) eqn:E; cbn [negb].
    + destruct (Z.eqb_spec (c + 1) 6) as [E6 | N6].
      * rewrite IH by lia; unfold scoredRun, penaltyWeight1.
        destruct (Z.geb_spec (c + 1) 6), (Z.geb_spec c 6); lia.
      * destruct (Z.gtb_spec (c + 1) 6).
        -- rewrite IH by lia; unfold scoredRun, penaltyWeight1.
           destruct (Z.geb_spec (c + 1) 6), (Z.geb_spec c 6); lia.
        -- rewrite IH by lia; unfold scoredRun, penaltyWeight1.
           destruct (Z.geb_spec (c + 1) 6), (Z.geb_spec c 6); lia.
    + rewrite IH by lia; cbn [zsum fold_right].
      fold (zsum scoredRun (runsFrom v 1 l)).
      unfold scoredRun at 1; cbn; lia.
Qed.

(** One line of [penalty1], read through [rd]. *)
Lemma penalty1_scan (rd : Z -> outcome bool) (val : Z -> bool) n p :
  (forall y, 0 <= y < Z.of_nat (S n) -> rd y = Ret (val y)) ->
  (lastValue <- rd 0 ;;
   st <- forM (upto 1 n)
           (fun st y => v <- rd y ;; Ret (penalty1_step st v))
           (p, lastValue, 1) ;;
   Ret (fst (fst st)))
  = Ret (p + zsum scoredRun (runs (map val (upto 0 (S n))))).
Proof.
  intros H; rewrite H by lia; cbn [bind].
  rewrite forM_pure with (f := fun st y => penalty1_step st (val y)).
  - cbn [bind]; f_equal.
    rewrite upto_S; cbn [map runs].
    rewrite <- (fold_left_mapped penalty1_step val).
    rewrite penalty1_line by lia.
    unfold scoredRun at 1; cbn; lia.
  - intros st y Hy; apply In_upto in Hy; rewrite H by lia; reflexivity.
Qed.

Lemma columnOf_moduleAt s x :
  allocated s -> 0 <= x < symbolSize s ->
  columnOf s x = map (moduleAt s x) (upto 0 (Z.to_nat (symbolSize s))).
Proof.
  intros Hs Hx; unfold columnOf.
  rewrite region_moduleAt, map_map, upto_of_nat, map_map by exact Hs.
  apply map_ext_in; intros j Hj; apply in_seq in Hj.
  rewrite nth_map_seq by lia.
  f_equal; lia.
Qed.

Lemma region_rows s :
  allocated s ->
  region s
  = map (fun y => map (fun x => moduleAt s x y)
                      (upto 0 (Z.to_nat (symbolSize s))))
        (upto 0 (Z.to_nat (symbolSize s))).
Proof.
  intros Hs; rewrite region_moduleAt, !upto_of_nat, map_map by exact Hs.
  apply map_ext; intros j; rewrite map_map; reflexivity.
Qed.

(** Rule P1 as the loops of [penalty1] compute it: every maximal run of six
    or more modules of one colour, in a column or a row, adds
    [w1 + (L - 5)]; shorter runs add nothing. *)
Theorem penalty1_runs s :
  allocated s ->
  penalty1 s = Ret (zsum (fun l => zsum scoredRun (runs l)) (lines s)).
Proof.
  intros Hs; unfold penalty1, lines.
  set (n := Z.to_nat (symbolSize s)).
  assert (Hn1 : forall x, In x (upto 0 n) ->
            Z.to_nat (symbolSize s - 1) = pred n /\ n = S (pred n)
            /\ 0 <= x < symbolSize s).
  { intros x Hx; apply In_upto in Hx; unfold n in *; lia. }
  rewrite forM_pure with
    (f := fun p x => p + zsum scoredRun (runs (columnOf s x))).
  - cbn [bind].
    rewrite forM_pure with
      (f := fun p y => p + zsum scoredRun
                             (runs (map (fun x => moduleAt s x y) (upto 0 n)))).
    + rewrite !fold_left_zsum, zsum_app, zsum_map, region_rows, zsum_map
        by exact Hs.
      fold n; f_equal; lia.
    + intros p y Hy; destruct (Hn1 y Hy) as (E1 & E2 & Hy').
      rewrite E1, E2.
      apply (penalty1_scan (fun x => get s x y) (fun x => moduleAt s x y)).
      intros x Hx; apply get_Ret; auto; lia.
  - intros p x Hx; destruct (Hn1 x Hx) as (E1 & E2 & Hx').
    rewrite columnOf_moduleAt by assumption; fold n.
    rewrite E1, E2.
    apply (penalty1_scan (get s x) (moduleAt s x)).
    intros y Hy; apply get_Ret; auto; lia.
Qed.

Lemma penalty1_runs_witness :
  allocated run5
  /\ penalty1 run5 = Ret (zsum (fun l => zsum scoredRun (runs l)) (lines run5)).
Proof.
  assert (Ha : allocated run5) by (apply allocated_painted; lia).
  split; [exact Ha | exact (penalty1_runs run5 Ha)].
Defined.

(** C3: the code misses the run of exactly five.  On a version-1
    checkerboard with one run of five dark modules (the only run longer
    than three), [penalty1] is 0 where the rule of the claim gives
    [w1 = 3]. *)
Theorem penalty1_run_of_five :
  zsum (fun l => zsum (fun L => if L =? 5 then 1 else 0) (runs l)) (lines run5)
  = 1
  /\ zsum (fun l => zsum (fun L => if L >? 5 then 1 else 0) (runs l))
          (lines run5) = 0
  /\ claimedPenalty1 run5 = 3
  /\ penalty1 run5 = Ret 0.
Proof. repeat split; vm_compute; reflexivity. Qed.

End Rule1.

(** ** The segment optimiser *)

Section EncoderFacts.

Lemma encodedLength_returns d m n : encodedLength d m n <> Exhausted.
Proof.
  unfold encodedLength; destruct m; simpl; try discriminate;
    destruct (n >? _); discriminate.
Qed.

Lemma coalesce_loop_progress d mode :
  forall fuel numChars j,
    len (actual d) - j <= Z.of_nat fuel ->
    match coalesce_loop fuel d mode numChars j with
    | Exhausted => False
    | Ret r => j <= snd r
    | _ => True
    end.
Proof.
  induction fuel as [| fuel IH]; intros numChars j Hf; cbn [coalesce_loop].
  - destruct (Z.ltb_spec j (len (actual d))); [lia | simpl; lia].
  - destruct (Z.ltb_spec j (len (actual d))); [| simpl; lia].
    destruct (_ >? _); [simpl; lia |].
    repeat match goal with
    | |- context [bind (encodedLength ?a ?b ?c) _] =>
        let E := fresh "E" in
        destruct (encodedLength a b c) eqn:E; cbn [bind];
        [| exact I | exact I | exact (encodedLength_returns _ _ _ E)]
    end.
    destruct (_ <? _); [| simpl; lia].
    specialize (IH (numChars + len (seg_data (segAt (actual d) j))) (j + 1)
                  ltac:(lia)).
    destruct (coalesce_loop fuel d mode _ (j + 1)) as [r | | |]; auto; lia.
Qed.

Lemma optimise_loop_returns d :
  forall fuel i opt,
    0 <= i -> len (actual d) - i <= Z.of_nat fuel ->
    optimise_loop fuel d i opt <> Exhausted.
Proof.
  induction fuel as [| fuel IH]; intros i opt Hi Hf; cbn [optimise_loop].
  - destruct (Z.ltb_spec i (len (actual d))); [lia | discriminate].
  - destruct (Z.ltb_spec i (len (actual d))); [| discriminate].
    pose proof (coalesce_loop_progress d (seg_dataMode (segAt (actual d) i))
                  (length (actual d))
                  (len (seg_data (segAt (actual d) i))) (i + 1)
                  ltac:(unfold len; lia)) as P.
    destruct (coalesce_loop _ _ _ _ _) as [r | | |]; simpl;
      try discriminate; [| contradiction].
    apply IH; lia.
Qed.

(** [optimiseDataModes] has fuel enough: it returns or fails as the source
    does. *)
Lemma optimiseDataModes_returns d : optimiseDataModes d <> Exhausted.
Proof.
  unfold optimiseDataModes.
  pose proof (optimise_loop_returns d (length (actual d)) 0 (optimised d)
                ltac:(lia) ltac:(unfold len; lia)) as P.
  destruct (optimise_loop _ _ _ _); simpl; congruence.
Qed.

(** C6: after coalescing, the whole input as one segment of class
    [highestRequiredMode] replaces the plan when it is not longer. *)
Theorem encode_single_segment_rule d raw d' encoded :
  encoder_encode d raw = Ret (d', encoded) ->
  exists dopt total single,
    optimiseDataModes (fst (classifyDataModes (with_plan d raw [] [])))
      = Ret dopt
    /\ planLength dopt (optimised dopt) = Ret total
    /\ encodedLength dopt
         (snd (classifyDataModes (with_plan d raw [] []))) (len raw)
       = Ret single
    /\ (single <= total ->
        optimised d'
        = [mkSegment (snd (classifyDataModes (with_plan d raw [] []))) raw])
    /\ (total < single -> optimised d' = optimised dopt).
Proof.
  unfold encoder_encode.
  destruct (len raw =? 0); [discriminate |].
  destruct (classifyDataModes (with_plan d raw [] [])) as [dc highest] eqn:Ec.
  cbn [fst snd]; intros H.
  apply bind_Ret_inv in H as (dopt & Hopt & H).
  apply bind_Ret_inv in H as (total & Htot & H).
  apply bind_Ret_inv in H as (single & Hsingle & H).
  apply bind_Ret_inv in H as (e0 & _ & H).
  apply bind_Ret_inv in H as (e1 & _ & H).
  injection H as Hd' _.
  assert (Eraw : enc_data dopt = raw).
  { unfold optimiseDataModes in Hopt.
    apply bind_Ret_inv in Hopt as (o & _ & [= <-]); cbn.
    unfold classifyDataModes in Ec; cbn in Ec.
    destruct (fold_left _ _ _) as [[[a b] c] e] in Ec.
    injection Ec as <- _; reflexivity. }
  rewrite Eraw in *.
  exists dopt, total, single; repeat split; auto.
  - intros Hle; subst d'.
    destruct (Z.leb_spec single total); [reflexivity | lia].
  - intros Hlt; subst d'.
    destruct (Z.leb_spec single total); [lia | reflexivity].
Qed.

Lemma encode_single_segment_rule_witness :
  exists d' encoded,
    encoder_encode encoder1To9 [49; 97] = Ret (d', encoded)
    /\ optimised d' = [mkSegment dataModeByte [49; 97]]
    /\ exists dopt total single,
         optimiseDataModes
           (fst (classifyDataModes (with_plan encoder1To9 [49; 97] [] [])))
           = Ret dopt
         /\ planLength dopt (optimised dopt) = Ret total
         /\ encodedLength dopt
              (snd (classifyDataModes (with_plan encoder1To9 [49; 97] [] [])))
              (len [49; 97])
            = Ret single
         /\ (single <= total ->
             optimised d'
             = [mkSegment
                  (snd (classifyDataModes
                          (with_plan encoder1To9 [49; 97] [] [])))
                  [49; 97]])
         /\ (total < single -> optimised d' = optimised dopt).
Proof.
  do 2 eexists; split; [vm_compute; reflexivity |].
  split; [reflexivity |].
  eapply encode_single_segment_rule; vm_compute; reflexivity.
Defined.

(** The input "1a": the coalesced plan is a numeric and a byte segment of
    38 bits together, one byte segment takes 28 and replaces it. *)
Example single_segment_replaces :
  (d <- optimiseDataModes
          (fst (classifyDataModes (with_plan encoder1To9 [49; 97] [] []))) ;;
   total <- planLength d (optimised d) ;;
   single <- encodedLength d dataModeByte 2 ;;
   r <- encoder_encode encoder1To9 [49; 97] ;;
   Ret (optimised d, total, single, optimised (fst r)))
  = Ret ([mkSegment dataModeNumeric [49]; mkSegment dataModeByte [97]],
         38, 28, [mkSegment dataModeByte [49; 97]]).
Proof. vm_compute; reflexivity. Qed.

(** Nineteen digits and "abc": the coalesced plan of 114 bits is shorter
    than one byte segment of 188 and is kept. *)
Example coalesced_plan_kept :
  (r <- encoder_encode encoder1To9
          (bytes_of_string "1234567890123456789abc"%string) ;;
   Ret (map seg_dataMode (optimised (fst r)), Len (snd r)))
  = Ret ([dataModeNumeric; dataModeByte], 114).
Proof. vm_compute; reflexivity. Qed.

(** The literal scenarios of the spec: "12345" takes 31 bits, "HELLO WORLD"
    74 and "hello" 52, each as one segment. *)
Example spec_scenarios :
  map (fun s =>
         r <- encoder_encode encoder1To9 (bytes_of_string s) ;;
         Ret (map seg_dataMode (optimised (fst r)), Len (snd r)))
      ["12345"%string; "HELLO WORLD"%string; "hello"%string]
  = [Ret ([dataModeNumeric], 31); Ret ([dataModeAlphanumeric], 74);
     Ret ([dataModeByte], 52)].
Proof. vm_compute; reflexivity. Qed.

End EncoderFacts.

(** ** Penalties are never negative *)

Section PenaltySign.

Lemma penalty1_step_mono st v :
  fst (fst st) <= fst (fst (penalty1_step st v)).
Proof.
  destruct st as [[p l] c]; unfold penalty1_step, penaltyWeight1; cbn [fst].
  destruct (negb (Bool.eqb v l)); cbn [fst]; [lia |].
  destruct (c + 1 =? 6); cbn [fst]; [lia |].
  destruct (c + 1 >? 6); cbn [fst]; lia.
Qed.

Lemma penalty3_step_mono last st v :
  fst st <= fst (penalty3_step last st v).
Proof.
  destruct st as [p b]; unfold penalty3_step, penaltyWeight3; cbn [fst].
  repeat match goal with
         | |- context [if ?c then _ else _] => destruct c
         end; cbn [fst]; lia.
Qed.

(** A line loop that only reads modules and steps with a monotone function
    cannot lower the penalty. *)
Lemma line_loop_mono {St : Type} (pen : St -> Z) (rd : Z -> outcome bool)
  (step : Z -> St -> bool -> St) :
  (forall i st v, pen st <= pen (step i st v)) ->
  forall ks st r,
    forM ks (fun st i => v <- rd i ;; Ret (step i st v)) st = Ret r ->
    pen st <= pen r.
Proof.
  intros Hmono ks st r H.
  apply (forM_inv (fun s => pen st <= pen s)) in H; [exact H | | lia].
  intros s i s' _ Hs Hb.
  apply bind_Ret_inv in Hb as (v & _ & [= <-]).
  specialize (Hmono i s v); lia.
Qed.

Lemma penalty1_nonneg s p : penalty1 s = Ret p -> 0 <= p.
Proof.
  unfold penalty1; intros H.
  apply bind_Ret_inv in H as (p1 & H1 & H2).
  assert (Hline : forall (rd0 : Z -> outcome bool) (rd : Z -> Z -> outcome bool)
                    xs a r,
             forM xs
               (fun penalty x =>
                  lastValue <- rd0 x ;;
                  st <- forM (upto 1 (Z.to_nat (symbolSize s - 1)))
                          (fun st y => v <- rd x y ;; Ret (penalty1_step st v))
                          (penalty, lastValue, 1) ;;
                  Ret (fst (fst st))) a = Ret r ->
             0 <= a -> 0 <= r).
  { intros rd0 rd xs a r Hrun Ha.
    apply (forM_inv (fun q => 0 <= q)) in Hrun; [exact Hrun | | exact Ha].
    intros q x q' _ Hq Hb.
    apply bind_Ret_inv in Hb as (lv & _ & Hb).
    apply bind_Ret_inv in Hb as (st & Hst & [= <-]).
    apply (line_loop_mono (fun st => fst (fst st)) (rd x)
             (fun _ => penalty1_step)) in Hst;
      [cbn [fst] in Hst; lia | intros; apply penalty1_step_mono]. }
  apply (Hline (fun y => get s 0 y) (fun y x => get s x y)) in H2;
    [exact H2 |].
  apply (Hline (fun x => get s x 0) (fun x y => get s x y)) in H1;
    [exact H1 | lia].
Qed.

Lemma penalty3_nonneg s p : penalty3 s = Ret p -> 0 <= p.
Proof.
  unfold penalty3; intros H.
  apply bind_Ret_inv in H as (p1 & H1 & H2).
  assert (Hline : forall (rd : Z -> Z -> outcome bool) xs a r,
             forM xs
               (fun penalty y =>
                  st <- forM (upto 0 (Z.to_nat (symbolSize s)))
                          (fun st x =>
                             v <- rd y x ;;
                             Ret (penalty3_step (x =? symbolSize s - 1) st v))
                          (penalty, 0) ;;
                  Ret (fst st)) a = Ret r ->
             0 <= a -> 0 <= r).
  { intros rd xs a r Hrun Ha.
    apply (forM_inv (fun q => 0 <= q)) in Hrun; [exact Hrun | | exact Ha].
    intros q x q' _ Hq Hb.
    apply bind_Ret_inv in Hb as (st & Hst & [= <-]).
    apply (line_loop_mono fst (rd x)
             (fun i => penalty3_step (i =? symbolSize s - 1))) in Hst;
      [cbn [fst] in Hst; lia | intros; apply penalty3_step_mono]. }
  apply (Hline (fun x y => get s x y)) in H2; [exact H2 |].
  apply (Hline (fun y x => get s x y)) in H1; [exact H1 | lia].
Qed.

Lemma penalty2_nonneg s p : penalty2 s = Ret p -> 0 <= p.
Proof.
  unfold penalty2, penaltyWeight2; intros H.
  apply bind_Ret_inv in H as (c & Hc & [= <-]).
  apply (forM_inv (fun q => 0 <= q)) in Hc; [lia | | lia].
  intros q y q' _ Hq Hrow.
  apply (forM_inv (fun q => 0 <= q)) in Hrow; [exact Hrow | | exact Hq].
  intros a x a' _ Ha Hb.
  repeat (apply bind_Ret_inv in Hb as (? & _ & Hb)).
  injection Hb as <-.
  destruct (_ && _); lia.
Qed.

Lemma penalty4_nonneg s p : penalty4 s = Ret p -> 0 <= p.
Proof.
  unfold penalty4, penaltyWeight4; intros H.
  apply bind_Ret_inv in H as (c & _ & H).
  destruct (Z.eqb_spec (Z.quot (symbolSize s * symbolSize s) 20) 0) as [| Hq];
    [discriminate |].
  apply Ret_inj in H; subst p.
  assert (0 <= symbolSize s * symbolSize s) by nia.
  assert (0 < Z.quot (symbolSize s * symbolSize s) 20).
  { pose proof (Z.quot_pos (symbolSize s * symbolSize s) 20); lia. }
  apply Z.mul_nonneg_nonneg; [lia |].
  apply Z.quot_pos; [| lia].
  destruct (_ <? 0) eqn:E; [apply Z.ltb_lt in E | apply Z.ltb_ge in E]; lia.
Qed.

Lemma penaltyScore_nonneg s p : penaltyScore s = Ret p -> 0 <= p.
Proof.
  unfold penaltyScore; intros H.
  apply bind_Ret_inv in H as (p1 & H1 & H).
  apply bind_Ret_inv in H as (p2 & H2 & H).
  apply bind_Ret_inv in H as (p3 & H3 & H).
  apply bind_Ret_inv in H as (p4 & H4 & [= <-]).
  apply penalty1_nonneg in H1; apply penalty2_nonneg in H2.
  apply penalty3_nonneg in H3; apply penalty4_nonneg in H4.
  lia.
Qed.

End PenaltySign.

(** ** The mask loop *)

Section MaskChoice.

Variable buildRegularSymbol :
  qrCodeVersion -> Z -> Bitset -> Z -> outcome symbol.
Variable q : QRCode.
Variable encoded : Bitset.

Lemma encode_step_inv st m st' :
  encode_step buildRegularSymbol q encoded st m = Ret st' ->
  buildRegularSymbol (q_version q) m encoded (Margin q) = Ret (candidate buildRegularSymbol q encoded m)
  /\ numEmptyModules (candidate buildRegularSymbol q encoded m) = Ret 0
  /\ penaltyScore (candidate buildRegularSymbol q encoded m) = Ret (score buildRegularSymbol q encoded m)
  /\ 0 <= score buildRegularSymbol q encoded m
  /\ st' = match fst (fst st) with
           | None => (Some (candidate buildRegularSymbol q encoded m), m, score buildRegularSymbol q encoded m)
           | Some _ => if score buildRegularSymbol q encoded m <? snd st
                       then (Some (candidate buildRegularSymbol q encoded m), m, score buildRegularSymbol q encoded m) else st
           end.
Proof.
  destruct st as [[sym msk] pen]; unfold encode_step; intros H.
  apply bind_Ret_inv in H as (s & Hs & H).
  apply bind_Ret_inv in H as (n & Hn & H).
  destruct (Z.eqb_spec n 0) as [-> | Hne]; [| discriminate]; cbn [negb] in H.
  apply bind_Ret_inv in H as (p & Hp & H).
  assert (Ec : candidate buildRegularSymbol q encoded m = s) by (unfold candidate; rewrite Hs; reflexivity).
  assert (Ep : score buildRegularSymbol q encoded m = p)
    by (unfold score; rewrite Ec, Hp; reflexivity).
  rewrite Ec, Ep; repeat split; auto.
  - apply (penaltyScore_nonneg s p Hp).
  - cbn [fst snd]; congruence.
Qed.

Lemma mask_loop_chosen :
  forall ms seen st st',
    (forall a b, In a seen -> In b ms -> a < b) ->
    StronglySorted Z.lt ms ->
    chosen buildRegularSymbol q encoded seen st ->
    forM ms (encode_step buildRegularSymbol q encoded) st = Ret st' ->
    chosen buildRegularSymbol q encoded (seen ++ ms) st'.
Proof.
  induction ms as [| x ms IH]; intros seen st st' Hlt Hsort Hch Hrun.
  - simpl in Hrun; injection Hrun as <-; rewrite app_nil_r; exact Hch.
  - inversion Hsort as [| ? ? Hsort' Hall]; subst.
    cbn [forM] in Hrun.
    apply bind_Ret_inv in Hrun as (st1 & Hstep & Hrest).
    apply encode_step_inv in Hstep as (_ & _ & _ & _ & Est1).
    replace (seen ++ x :: ms) with ((seen ++ [x]) ++ ms)
      by (rewrite <- app_assoc; reflexivity).
    apply (IH (seen ++ [x]) st1); auto.
    + intros a b Ha Hb; apply in_app_or in Ha as [Ha | [<- | []]].
      * apply Hlt; [exact Ha | right; exact Hb].
      * rewrite Forall_forall in Hall; auto.
    + destruct st as [[sym msk] pen]; cbn [fst snd] in Est1.
      destruct Hch as (Hin & -> & -> & Hmin & Hfirst).
      assert (Hx : msk < x) by (apply Hlt; [exact Hin | left; reflexivity]).
      destruct (Z.ltb_spec (score buildRegularSymbol q encoded x) (score buildRegularSymbol q encoded msk)); subst st1; cbn.
      * split; [apply in_or_app; right; left; reflexivity |].
        repeat split; auto.
        -- intros m Hm; apply in_app_or in Hm as [Hm | [<- | []]];
             [specialize (Hmin m Hm) |]; lia.
        -- intros m Hm Hmx; apply in_app_or in Hm as [Hm | [<- | []]];
             [specialize (Hmin m Hm) |]; lia.
      * split; [apply in_or_app; left; exact Hin |].
        repeat split; auto.
        -- intros m Hm; apply in_app_or in Hm as [Hm | [<- | []]];
             [apply Hmin; exact Hm | lia].
        -- intros m Hm Hmx; apply in_app_or in Hm as [Hm | [<- | []]];
             [apply Hfirst; assumption | lia].
Qed.

(** Started from a nil [q.symbol], the loop over masks 0 to 7 ends on the
    first mask of least score. *)
Lemma mask_loop_min msk0 st' :
  forM (upto 0 8) (encode_step buildRegularSymbol q encoded) (None, msk0, 0)
    = Ret st' ->
  (forall m, 0 <= m < 8 ->
     buildRegularSymbol (q_version q) m encoded (Margin q)
       = Ret (candidate buildRegularSymbol q encoded m)
     /\ numEmptyModules (candidate buildRegularSymbol q encoded m) = Ret 0
     /\ penaltyScore (candidate buildRegularSymbol q encoded m) = Ret (score buildRegularSymbol q encoded m))
  /\ chosen buildRegularSymbol q encoded (upto 0 8) st'.
Proof.
  intros Hrun; split.
  - intros m Hm.
    assert (Hin : In m (upto 0 8)) by (apply In_upto; simpl; lia).
    clear Hm; revert Hrun; generalize (@None symbol, msk0, 0).
    induction (upto 0 8) as [| x xs IH]; intros st Hrun; [destruct Hin |].
    cbn [forM] in Hrun.
    apply bind_Ret_inv in Hrun as (st1 & Hstep & Hrest).
    destruct Hin as [<- | Hin]; [| eapply IH; eauto].
    apply encode_step_inv in Hstep; tauto.
  - rewrite (upto_S 0 7) in *; cbn [forM] in Hrun.
    apply bind_Ret_inv in Hrun as (st1 & Hstep & Hrest).
    apply encode_step_inv in Hstep as (_ & _ & _ & _ & ->); cbn [fst] in Hrest.
    apply (mask_loop_chosen (upto (0 + 1) 7) [0]) in Hrest; [exact Hrest | | |].
    + intros a b [<- | []] Hb; apply In_upto in Hb; lia.
    + cbn; repeat constructor; lia.
    + cbn; repeat split; auto; intros m [<- | []]; lia.
Qed.

(** Started from a non-nil [q.symbol] with [penalty := 0], no candidate
    replaces it. *)
Lemma mask_loop_keeps ms s msk :
  (forall m, In m ms ->
     buildRegularSymbol (q_version q) m encoded (Margin q)
       = Ret (candidate buildRegularSymbol q encoded m)
     /\ numEmptyModules (candidate buildRegularSymbol q encoded m) = Ret 0
     /\ penaltyScore (candidate buildRegularSymbol q encoded m) = Ret (score buildRegularSymbol q encoded m)) ->
  forM ms (encode_step buildRegularSymbol q encoded) (Some s, msk, 0)
  = Ret (Some s, msk, 0).
Proof.
  induction ms as [| x ms IH]; intros H; [reflexivity |].
  cbn [forM].
  destruct (H x (or_introl eq_refl)) as (Hb & He & Hp).
  unfold encode_step at 1; rewrite Hb; cbn [bind].
  rewrite He; cbn [bind Z.eqb negb]; rewrite Hp; cbn [bind].
  pose proof (penaltyScore_nonneg _ _ Hp).
  destruct (Z.ltb_spec (score buildRegularSymbol q encoded x) 0); [lia |].
  apply IH; intros; apply H; right; assumption.
Qed.

End MaskChoice.

(** ** QRCode.encode *)

Section EncodeFacts.

Variable chooseQRCodeVersion :
  RecoveryLevel -> dataEncoder -> Z -> option qrCodeVersion.
Variable buildRegularSymbol :
  qrCodeVersion -> Z -> Bitset -> Z -> outcome symbol.

Lemma with_data_same q : with_data q (data q) = q.
Proof. destruct q; reflexivity. Qed.

Lemma with_symbol_same q : with_symbol q (q_symbol q) (mask q) = q.
Proof. destruct q; reflexivity. Qed.

Lemma addTerminatorBits_inv q n q' :
  addTerminatorBits q n = Ret q' -> exists b, q' = with_data q b.
Proof.
  unfold addTerminatorBits; intros H.
  apply bind_Ret_inv in H as (b & _ & [= <-]); eauto.
Qed.

(** [addPadding] returns only with the data at [numDataBits] bits. *)
Lemma addPadding_inv q q' :
  addPadding q = Ret q' ->
  exists b, q' = with_data q b /\ Len b = numDataBits (q_version q).
Proof.
  unfold addPadding; intros H.
  destruct (Z.eqb_spec (Len (data q)) (numDataBits (q_version q))) as [E | _].
  - injection H as <-; exists (data q); split; [| exact E].
    symmetry; apply with_data_same.
  - apply bind_Ret_inv in H as (b0 & _ & H).
    apply bind_Ret_inv in H as (p0 & _ & H).
    apply bind_Ret_inv in H as (p1 & _ & H).
    apply bind_Ret_inv in H as (b & _ & H).
    destruct (Z.eqb_spec (Len b) (numDataBits (q_version q))) as [E | _];
      [| discriminate].
    injection H as <-; eauto.
Qed.

Lemma mask_loop_facts q encoded :
  forall ms st st',
    forM ms (encode_step buildRegularSymbol q encoded) st = Ret st' ->
    forall m, In m ms ->
      buildRegularSymbol (q_version q) m encoded (Margin q)
        = Ret (candidate buildRegularSymbol q encoded m)
      /\ numEmptyModules (candidate buildRegularSymbol q encoded m) = Ret 0
      /\ penaltyScore (candidate buildRegularSymbol q encoded m)
         = Ret (score buildRegularSymbol q encoded m).
Proof.
  induction ms as [| x ms IH]; intros st st' Hrun m Hin; [destruct Hin |].
  cbn [forM] in Hrun.
  apply bind_Ret_inv in Hrun as (st1 & Hstep & Hrest).
  destruct Hin as [<- | Hin]; [| eapply IH; eauto].
  apply encode_step_inv in Hstep; tauto.
Qed.

Lemma mask_loop_some q encoded :
  forall ms st st',
    fst (fst st) <> None \/ ms <> [] ->
    forM ms (encode_step buildRegularSymbol q encoded) st = Ret st' ->
    fst (fst st') <> None.
Proof.
  induction ms as [| x ms IH]; intros st st' Hne Hrun.
  - injection Hrun as <-; destruct Hne; congruence.
  - cbn [forM] in Hrun.
    apply bind_Ret_inv in Hrun as (st1 & Hstep & Hrest).
    apply (IH st1 st'); [left | exact Hrest].
    apply encode_step_inv in Hstep as (_ & _ & _ & _ & ->).
    destruct st as [[[s |] msk] pen]; cbn [fst snd]; try discriminate.
    destruct (_ <? _); discriminate.
Qed.

(** On a [QRCode] that has no symbol yet, [encode] records the first mask
    of least penalty among the eight candidates. *)
Lemma encode_first_least q q' :
  q_symbol q = None ->
  encode buildRegularSymbol q = Ret q' ->
  exists encoded,
    encodeBlocks q' = Ret encoded
    /\ (forall m, 0 <= m < 8 ->
          buildRegularSymbol (q_version q') m encoded (Margin q')
            = Ret (candidate buildRegularSymbol q' encoded m)
          /\ penaltyScore (candidate buildRegularSymbol q' encoded m)
             = Ret (score buildRegularSymbol q' encoded m))
    /\ 0 <= mask q' < 8
    /\ q_symbol q' = Some (candidate buildRegularSymbol q' encoded (mask q'))
    /\ (forall m, 0 <= m < 8 ->
          score buildRegularSymbol q' encoded (mask q')
          <= score buildRegularSymbol q' encoded m)
    /\ (forall m, 0 <= m < mask q' ->
          score buildRegularSymbol q' encoded (mask q')
          < score buildRegularSymbol q' encoded m).
Proof.
  intros Hnil H; unfold encode in H.
  apply bind_Ret_inv in H as (qa & Ha & H).
  apply bind_Ret_inv in H as (qb & Hb & H).
  apply bind_Ret_inv in H as (encoded & Henc & H).
  apply bind_Ret_inv in H as (r & Hloop & [= <-]).
  apply addTerminatorBits_inv in Ha as (ba & ->).
  apply addPadding_inv in Hb as (bb & -> & _).
  cbn [with_data q_symbol mask] in Hloop; rewrite Hnil in Hloop.
  apply mask_loop_min in Hloop as (Hall & Hch).
  destruct r as [[sym msk] pen]; cbn [fst snd].
  destruct Hch as (Hin & -> & -> & Hmin & Hfirst).
  apply In_upto in Hin.
  exists encoded; split; [exact Henc |].
  split; [intros m Hm; destruct (Hall m Hm) as (? & _ & ?); split; assumption |].
  split; [cbn; lia |].
  split; [reflexivity |].
  split.
  - intros m Hm; apply Hmin, In_upto; simpl; lia.
  - intros m Hm; cbn [with_symbol mask] in Hm.
    apply Hfirst; [apply In_upto; simpl |]; lia.
Qed.

(** [New] returns a [QRCode] without a symbol. *)
Lemma New_no_symbol content_ level_ q :
  New chooseQRCodeVersion content_ level_ = Ret q -> q_symbol q = None.
Proof.
  unfold New; intros H.
  apply bind_Ret_inv in H as (st & _ & H).
  destruct (st_err st); [discriminate |].
  destruct (st_chosenVersion st); [| discriminate].
  destruct (st_encoder st); [| discriminate].
  destruct (st_encoded st); [| discriminate].
  apply Ret_inj in H; subst q; reflexivity.
Qed.

(** C2: when [New] succeeds on a content and level and [encode] on its
    result, the mask recorded is one of 0 to 7, the symbol recorded is the
    candidate of that mask, its [penaltyScore] is the least of the eight
    candidates', and every smaller mask has a strictly greater one. *)
Theorem encode_selects_min_penalty content_ level_ q q' :
  New chooseQRCodeVersion content_ level_ = Ret q ->
  encode buildRegularSymbol q = Ret q' ->
  exists encoded,
    encodeBlocks q' = Ret encoded
    /\ (forall m, 0 <= m < 8 ->
          buildRegularSymbol (q_version q') m encoded (Margin q')
            = Ret (candidate buildRegularSymbol q' encoded m)
          /\ penaltyScore (candidate buildRegularSymbol q' encoded m)
             = Ret (score buildRegularSymbol q' encoded m))
    /\ 0 <= mask q' < 8
    /\ q_symbol q' = Some (candidate buildRegularSymbol q' encoded (mask q'))
    /\ (forall m, 0 <= m < 8 ->
          score buildRegularSymbol q' encoded (mask q')
          <= score buildRegularSymbol q' encoded m)
    /\ (forall m, 0 <= m < mask q' ->
          score buildRegularSymbol q' encoded (mask q')
          < score buildRegularSymbol q' encoded m).
Proof.
  intros Hnew Hrun.
  exact (encode_first_least q q' (New_no_symbol _ _ _ Hnew) Hrun).
Qed.

(** C10: once [encode] has returned, running it again returns with the
    same data length, symbol and mask, and so the same bitmap: no
    terminator or pad bit is added to the full buffer, and no candidate
    replaces the symbol. *)
Theorem encode_idempotent q q1 :
  encode buildRegularSymbol q = Ret q1 ->
  exists q2,
    encode buildRegularSymbol q1 = Ret q2
    /\ Len (data q2) = Len (data q1)
    /\ q_symbol q2 = q_symbol q1
    /\ mask q2 = mask q1
    /\ option_map bitmap (q_symbol q2) = option_map bitmap (q_symbol q1).
Proof.
  intros H; exists q1.
  split; [| repeat split; reflexivity].
  unfold encode in H.
  apply bind_Ret_inv in H as (qa & Ha & H).
  apply bind_Ret_inv in H as (qb & Hb & H).
  apply bind_Ret_inv in H as (encoded & Henc & H).
  apply bind_Ret_inv in H as (r & Hloop & [= <-]).
  apply addTerminatorBits_inv in Ha as (ba & ->).
  apply addPadding_inv in Hb as (bb & -> & Hlen).
  cbn [with_data q_version data] in *.
  set (q1 := with_symbol _ _ _).
  assert (Hsome : fst (fst r) <> None).
  { refine (mask_loop_some _ _ _ _ _ _ Hloop).
    right; rewrite upto_S; discriminate. }
  pose proof (mask_loop_facts _ _ _ _ _ Hloop) as Hfacts.
  unfold encode.
  replace (numTerminatorBitsRequired (q_version q1) (Len (data q1))) with 0
    by (unfold numTerminatorBitsRequired, q1;
        cbn [q_version data with_symbol with_data]; lia).
  unfold addTerminatorBits, AppendNumBools; cbn [Z.to_nat AppendNumBools_loop bind].
  rewrite with_data_same.
  unfold addPadding.
  replace (Len (data q1) =? numDataBits (q_version q1)) with true
    by (symmetry; apply Z.eqb_eq; exact Hlen).
  cbn [bind].
  change (encodeBlocks q1) with (encodeBlocks (with_data (with_data q ba) bb)).
  rewrite Henc; cbn [bind].
  destruct r as [[[s |] msk] pen]; cbn [fst snd] in *; [| congruence].
  change (q_symbol q1) with (Some s); change (mask q1) with msk.
  rewrite (mask_loop_keeps buildRegularSymbol q1 encoded (upto 0 8) s msk);
    [reflexivity |].
  exact Hfacts.
Qed.

End EncodeFacts.

Example newDataEncoder_1To9 :
  newDataEncoder dataEncoderType1To9 = Ret encoder1To9.
Proof. reflexivity. Qed.

Example encode_hello :
  encode sampleBuildSymbol helloQR = Ret helloQREncoded.
Proof. vm_compute; reflexivity. Qed.

(** The padded data of the HELLO WORLD code: sixteen codewords. *)
Example helloCodewords_padded :
  Len (data helloQREncoded) = 128
  /\ firstn 16 (bits (data helloQREncoded)) = bits helloCodewords.
Proof. split; vm_compute; reflexivity. Qed.

(** The penalties of the eight candidates of [helloQREncoded]: mask 7 is
    the one of least penalty. *)
Example encode_hello_scores :
  mask helloQREncoded = 7
  /\ (encoded <- encodeBlocks helloQREncoded ;;
      Ret (map (score sampleBuildSymbol helloQREncoded encoded) (upto 0 8)))
     = Ret [180; 289; 186; 201; 316; 258; 208; 145].
Proof. split; vm_compute; reflexivity. Qed.

Lemma encode_selects_min_penalty_witness :
  New (fun _ _ _ => Some version1M) "HELLO WORLD"%string Medium = Ret helloQR
  /\ encode sampleBuildSymbol helloQR = Ret helloQREncoded
  /\ exists encoded,
       encodeBlocks helloQREncoded = Ret encoded
       /\ 0 <= mask helloQREncoded < 8
       /\ q_symbol helloQREncoded
          = Some (candidate sampleBuildSymbol helloQREncoded encoded
                    (mask helloQREncoded))
       /\ (forall m, 0 <= m < 8 ->
             score sampleBuildSymbol helloQREncoded encoded
                   (mask helloQREncoded)
             <= score sampleBuildSymbol helloQREncoded encoded m)
       /\ (forall m, 0 <= m < mask helloQREncoded ->
             score sampleBuildSymbol helloQREncoded encoded
                   (mask helloQREncoded)
             < score sampleBuildSymbol helloQREncoded encoded m).
Proof.
  assert (Hnew : New (fun _ _ _ => Some version1M) "HELLO WORLD"%string
                   Medium = Ret helloQR) by (vm_compute; reflexivity).
  assert (Hrun : encode sampleBuildSymbol helloQR = Ret helloQREncoded)
    by (vm_compute; reflexivity).
  split; [exact Hnew |]; split; [exact Hrun |].
  destruct (encode_selects_min_penalty (fun _ _ _ => Some version1M)
              sampleBuildSymbol "HELLO WORLD"%string Medium helloQR
              helloQREncoded Hnew Hrun)
    as (encoded & Henc & _ & Hm & Hsym & Hmin & Hfirst).
  exists encoded; split; [exact Henc |]; split; [exact Hm |].
  split; [exact Hsym |]; split; [exact Hmin | exact Hfirst].
Defined.

Lemma encode_idempotent_witness :
  encode sampleBuildSymbol helloQR = Ret helloQREncoded
  /\ exists q2,
       encode sampleBuildSymbol helloQREncoded = Ret q2
       /\ Len (data q2) = Len (data helloQREncoded)
       /\ q_symbol q2 = q_symbol helloQREncoded
       /\ mask q2 = mask helloQREncoded
       /\ option_map bitmap (q_symbol q2)
          = option_map bitmap (q_symbol helloQREncoded).
Proof.
  assert (Hrun : encode sampleBuildSymbol helloQR = Ret helloQREncoded)
    by (vm_compute; reflexivity).
  split; [exact Hrun |].
  exact (encode_idempotent sampleBuildSymbol helloQR helloQREncoded Hrun).
Defined.

(** ** New *)

Section NewFacts.

Variable chooseQRCodeVersion :
  RecoveryLevel -> dataEncoder -> Z -> option qrCodeVersion.

(** C9: at every recovery level [New] answers empty content with the error
    of [dataEncoder.encode], "no data to encode", and no [QRCode]. *)
Theorem New_empty_content (level_ : RecoveryLevel) :
  New chooseQRCodeVersion ""%string level_ = Err "no data to encode"%string.
Proof. reflexivity. Qed.

End NewFacts.

Example New_hello :
  New (fun _ _ _ => Some version1M) "HELLO WORLD"%string Medium = Ret helloQR.
Proof. vm_compute; reflexivity. Qed.

(** ** Further properties *)

(** [penaltyScore] is never negative: every rule only adds to a count that
    starts at 0. *)
Theorem penaltyScore_never_negative s p : penaltyScore s = Ret p -> 0 <= p.
Proof. exact (penaltyScore_nonneg s p). Qed.

Lemma penaltyScore_never_negative_witness :
  exists p, penaltyScore run5 = Ret p /\ 0 <= p.
Proof.
  eexists; split; [vm_compute; reflexivity |].
  apply (penaltyScore_never_negative run5); vm_compute; reflexivity.
Defined.

(** [gfPolyMultiply] computes the product of its arguments: coefficient
    [n] of the result is the sum of [a_i b_(n-i)]. *)
Theorem gfPolyMultiply_product a b n :
  0 <= n ->
  coef (term (gfPolyMultiply a b)) n = cmul (coef (term a)) (coef (term b)) n.
Proof. exact (coef_gfPolyMultiply a b n). Qed.

Lemma gfPolyMultiply_product_witness :
  0 <= 1
  /\ coef (term (gfPolyMultiply (mkPoly [1; 1]) (mkPoly [2; 1]))) 1
     = cmul (coef [1; 1]) (coef [2; 1]) 1.
Proof.
  assert (H : 0 <= 1) by lia.
  split; [exact H |].
  exact (gfPolyMultiply_product (mkPoly [1; 1]) (mkPoly [2; 1]) 1 H).
Defined.

(** For [2 <= k <= 256], [rsGeneratorPoly(k)] returns the monic polynomial
    of degree [k] whose coefficients are those of
    [prod_{i < k} (x + alpha^i)]. *)
Theorem rsGeneratorPoly_product k :
  2 <= k <= 256 ->
  exists G,
    rsGeneratorPoly k = Ret G
    /\ numTerms G = k + 1
    /\ at_ (term G) k = 1
    /\ forall n, coef (term G) n = generator (Z.to_nat k) n.
Proof.
  intros Hk.
  destruct (rsGeneratorPoly_spec k Hk) as (G & HG & Hlen & Htop & _ & Hgen).
  exists G; split; [exact HG |]; split; [exact Hlen |].
  split; [exact Htop | exact Hgen].
Qed.

Lemma rsGeneratorPoly_product_witness :
  2 <= 2 <= 256
  /\ exists G,
       rsGeneratorPoly 2 = Ret G
       /\ numTerms G = 2 + 1
       /\ at_ (term G) 2 = 1
       /\ forall n, coef (term G) n = generator (Z.to_nat 2) n.
Proof.
  assert (H : 2 <= 2 <= 256) by lia.
  split; [exact H | exact (rsGeneratorPoly_product 2 H)].
Defined.

(** The generator of degree 2 is [x^2 + 3x + 2]. *)
Example rsGeneratorPoly_2 : rsGeneratorPoly 2 = Ret (mkPoly [2; 3; 1]).
Proof. vm_compute; reflexivity. Qed.

(** The loops of [optimiseDataModes] end: the fuel of the embedding is
    never used up. *)
Theorem optimiseDataModes_terminates d :
  match optimiseDataModes d with
  | Exhausted => False
  | _ => True
  end.
Proof.
  destruct (optimiseDataModes d) eqn:E; try exact I.
  exact (optimiseDataModes_returns d E).
Qed.

(** * Further properties of the code *)

(** ** Bit buffers: the operations *)

Section BitsetOperations.

Lemma forM_ext {S A : Type} (xs : list A) (f g : S -> A -> outcome S) :
  forall s,
    (forall s x, In x xs -> f s x = g s x) -> forM xs f s = forM xs g s.
Proof.
  induction xs as [| x xs IH]; intros s H; simpl; [reflexivity |].
  rewrite H by (left; reflexivity).
  destruct (g s x); simpl; auto.
  apply IH; intros; apply H; right; assumption.
Qed.

Lemma clean_covered b : clean b -> covered b.
Proof. intros [H _]; exact H. Qed.

(** The append loops: room is made for [len xs] bits, then one bit is
    pushed per element. *)
Lemma append_bits {A : Type} (f : A -> bool) (d : A) xs b :
  clean b ->
  exists b',
    forM xs (fun b x => push b (f x)) (ensureCapacity b (len xs)) = Ret b'
    /\ clean b'
    /\ numBits b' = numBits b + len xs
    /\ (forall k, 0 <= k < numBits b ->
          rawbit (bits b') k = rawbit (bits b) k)
    /\ (forall j, 0 <= j < len xs ->
          rawbit (bits b') (numBits b + j) = f (nth (Z.to_nat j) xs d)).
Proof.
  intros [Hcov Hslack].
  assert (Hxs : 0 <= len xs) by (unfold len; lia).
  destruct (ensureCapacity_spec b (len xs) Hcov Hxs) as (En & Er & Ecap).
  set (b0 := ensureCapacity b (len xs)) in *.
  assert (Hb0 : 0 <= numBits b) by (destruct Hcov; lia).
  destruct (pushes_spec f d xs b0) as (b' & Hrun & Hn' & Hl' & Hr');
    try lia.
  { intros k Hk; rewrite Er; apply Hslack; lia. }
  exists b'; split; [exact Hrun |].
  split; [| split; [lia | split]].
  - split; [unfold covered; lia |].
    intros k Hk; rewrite Hr' by lia.
    destruct (Z.leb_spec (numBits b0) k), (Z.ltb_spec k (numBits b0 + len xs));
      cbn [andb]; try lia.
    rewrite Er; apply Hslack; lia.
  - intros k Hk; rewrite Hr' by lia.
    destruct (Z.leb_spec (numBits b0) k); [lia |]; cbn [andb]; apply Er.
  - intros j Hj; rewrite Hr' by lia.
    destruct (Z.leb_spec (numBits b0) (numBits b + j)); [| lia].
    destruct (Z.ltb_spec (numBits b + j) (numBits b0 + len xs)); [| lia].
    cbn [andb]; rewrite En.
    replace (numBits b + j - numBits b) with j by lia; reflexivity.
Qed.

(** The same in terms of [At]. *)
Lemma append_bits_At {A : Type} (f : A -> bool) (d : A) xs b :
  clean b ->
  exists b',
    forM xs (fun b x => push b (f x)) (ensureCapacity b (len xs)) = Ret b'
    /\ clean b'
    /\ Len b' = Len b + len xs
    /\ (forall i, 0 <= i < Len b -> At b' i = At b i)
    /\ (forall j, 0 <= j < len xs ->
          At b' (Len b + j) = Ret (f (nth (Z.to_nat j) xs d))).
Proof.
  intros Hb.
  destruct (append_bits f d xs b Hb) as (b' & Hrun & Hc & Hn & Hold & Hnew).
  assert (Hxs : 0 <= len xs) by (unfold len; lia).
  assert (Hb0 : 0 <= numBits b) by (destruct Hb as [[? ?] _]; lia).
  exists b'; unfold Len; split; [exact Hrun |]; split; [exact Hc |].
  split; [exact Hn |]; split.
  - intros i Hi.
    rewrite !At_rawbit by (auto using clean_covered; lia).
    rewrite Hold by exact Hi; reflexivity.
  - intros j Hj.
    rewrite At_rawbit by (auto using clean_covered; lia).
    rewrite Hnew by exact Hj; reflexivity.
Qed.

Lemma AppendBools_spec b vs :
  clean b ->
  exists b',
    AppendBools b vs = Ret b'
    /\ clean b'
    /\ Len b' = Len b + len vs
    /\ (forall i, 0 <= i < Len b -> At b' i = At b i)
    /\ (forall j, 0 <= j < len vs ->
          At b' (Len b + j) = Ret (nth (Z.to_nat j) vs false)).
Proof.
  intros Hb; unfold AppendBools.
  exact (append_bits_At (fun v : bool => v) false vs b Hb).
Qed.

Lemma clean_empty : clean (mkBitset 0 []).
Proof.
  split; [unfold covered; simpl; lia |].
  intros k _; unfold rawbit, at_; simpl.
  destruct (Z.to_nat (k / 8)); apply Z.testbit_0_l.
Qed.

(** [New(v...)] holds the bits [v], in order: a round trip through [At]
    and [Len]. *)
Theorem New_At vs :
  exists b,
    bitset.New vs = Ret b
    /\ Len b = len vs
    /\ forall i, 0 <= i < len vs -> At b i = Ret (nth (Z.to_nat i) vs false).
Proof.
  destruct (AppendBools_spec (mkBitset 0 []) vs clean_empty)
    as (b & Hrun & _ & Hn & _ & Hnew).
  exists b; split; [exact Hrun |]; split; [exact Hn |].
  intros i Hi; specialize (Hnew i Hi).
  change (Len (mkBitset 0 [])) with 0 in Hnew; exact Hnew.
Qed.

Lemma New_clean vs b : bitset.New vs = Ret b -> clean b.
Proof.
  destruct (AppendBools_spec (mkBitset 0 []) vs clean_empty)
    as (b' & Hrun & Hc & _).
  unfold bitset.New; rewrite Hrun; intros E; apply Ret_inj in E; subst b'.
  exact Hc.
Qed.

Lemma Append_spec b other :
  clean b -> covered other ->
  exists b',
    Append b other = Ret b'
    /\ clean b'
    /\ Len b' = Len b + Len other
    /\ (forall i, 0 <= i < Len b -> At b' i = At b i)
    /\ (forall j, 0 <= j < Len other -> At b' (Len b + j) = At other j).
Proof.
  intros Hb Ho; unfold Append.
  assert (Hn : 0 <= numBits other) by (destruct Ho; lia).
  set (xs := upto 0 (Z.to_nat (numBits other))).
  assert (Hlen : len xs = numBits other)
    by (unfold xs, len; rewrite length_upto; lia).
  rewrite (forM_ext xs _
             (fun b i => push b (rawbit (bits other) i))).
  2:{ intros s x Hx; apply In_upto in Hx.
      rewrite At_rawbit by (auto; lia); reflexivity. }
  rewrite <- Hlen.
  destruct (append_bits_At (fun i => rawbit (bits other) i) 0 xs b Hb)
    as (b' & Hrun & Hc & Hl & Hold & Hnew).
  exists b'; split; [exact Hrun |]; split; [exact Hc |].
  unfold Len in *; split; [lia |]; split; [exact Hold |].
  intros j Hj; rewrite Hnew by lia.
  unfold xs; rewrite nth_upto by lia.
  rewrite At_rawbit by (auto; lia); repeat f_equal; lia.
Qed.

(** [Append] keeps the bits of the receiver and adds those of [other]. *)
Theorem Append_At b other :
  clean b -> covered other ->
  exists b',
    Append b other = Ret b'
    /\ clean b'
    /\ Len b' = Len b + Len other
    /\ (forall i, 0 <= i < Len b -> At b' i = At b i)
    /\ (forall j, 0 <= j < Len other -> At b' (Len b + j) = At other j).
Proof. exact (Append_spec b other). Qed.

(** [Substr(start, end)] returns the bits [start .. end-1] in a buffer of
    their own. *)
Theorem Substr_At b start stop :
  covered b -> 0 <= start <= stop -> stop <= Len b ->
  exists r,
    Substr b start stop = Ret r
    /\ clean r
    /\ Len r = stop - start
    /\ forall j, 0 <= j < stop - start -> At r j = At b (start + j).
Proof.
  intros Hb Hs He; unfold Substr, Len in *.
  destruct (Z.gtb_spec start stop); [lia |].
  destruct (Z.gtb_spec stop (numBits b)); [lia |]; cbn [orb].
  change (bitset.New []) with (Ret (mkBitset 0 [])); cbn [bind].
  set (xs := upto start (Z.to_nat (stop - start))).
  assert (Hlen : len xs = stop - start)
    by (unfold xs, len; rewrite length_upto; lia).
  rewrite (forM_ext xs _ (fun r i => push r (rawbit (bits b) i))).
  2:{ intros s x Hx; apply In_upto in Hx.
      rewrite At_rawbit by (auto; lia); reflexivity. }
  rewrite <- Hlen.
  destruct (append_bits_At (fun i => rawbit (bits b) i) 0 xs (mkBitset 0 [])
              clean_empty) as (r & Hrun & Hc & Hl & _ & Hnew).
  exists r; split; [exact Hrun |]; split; [exact Hc |].
  unfold Len in *; cbn [numBits] in *; split; [lia |].
  intros j Hj; specialize (Hnew j ltac:(lia)).
  replace (0 + j) with j in Hnew by lia; rewrite Hnew.
  unfold xs; rewrite nth_upto by lia.
  rewrite At_rawbit by (auto; lia); repeat f_equal; lia.
Qed.

Lemma nth_downfrom n j :
  0 <= j < n -> nth (Z.to_nat j) (downfrom n) 0 = n - 1 - j.
Proof.
  intros H; unfold downfrom.
  rewrite rev_nth by (rewrite length_upto; lia).
  rewrite length_upto, nth_upto by lia; lia.
Qed.

Lemma len_downfrom n : 0 <= n -> len (downfrom n) = n.
Proof.
  intros H; unfold len, downfrom; rewrite length_rev, length_upto; lia.
Qed.

(** The loop shared by [AppendByte] and [AppendUint32]. *)
Lemma append_value b value n :
  clean b -> 0 <= n ->
  exists b',
    forM (downfrom n)
         (fun b i => push b (negb (Z.land value (Z.shiftl 1 i) =? 0)))
         (ensureCapacity b n) = Ret b'
    /\ clean b'
    /\ Len b' = Len b + n
    /\ (forall i, 0 <= i < Len b -> At b' i = At b i)
    /\ (forall t, 0 <= t < n ->
          At b' (Len b + t) = Ret (Z.testbit value (n - 1 - t))).
Proof.
  intros Hb Hn.
  destruct (append_bits_At
              (fun i => negb (Z.land value (Z.shiftl 1 i) =? 0)) 0
              (downfrom n) b Hb) as (b' & Hrun & Hc & Hl & Hold & Hnew).
  rewrite len_downfrom in * by exact Hn.
  exists b'; split; [exact Hrun |]; split; [exact Hc |].
  split; [exact Hl |]; split; [exact Hold |].
  intros t Ht; rewrite Hnew, nth_downfrom by exact Ht.
  rewrite bit_of_value by lia; reflexivity.
Qed.

(** [AppendByte(value, numBits)] appends the low [numBits] bits of the
    value, most significant first, and refuses more than 8. *)
Lemma AppendByte_bits b value n :
  clean b -> 0 <= n ->
  if n >? 8 then AppendByte b value n = Err "numBits %d out of range 0-8"%string
  else
    exists b',
      AppendByte b value n = Ret b'
      /\ clean b'
      /\ Len b' = Len b + n
      /\ (forall i, 0 <= i < Len b -> At b' i = At b i)
      /\ (forall t, 0 <= t < n ->
            At b' (Len b + t) = Ret (Z.testbit value (n - 1 - t))).
Proof.
  intros Hb Hn; unfold AppendByte.
  destruct (n >? 8); [reflexivity |].
  exact (append_value b value n Hb Hn).
Qed.

(** [AppendUint32(value, numBits)] appends the low [numBits] bits of the
    value, most significant first, and refuses more than 32. *)
Theorem AppendUint32_At b value n :
  clean b -> 0 <= n ->
  if n >? 32
  then AppendUint32 b value n = Err "numBits %d out of range 0-32"%string
  else
    exists b',
      AppendUint32 b value n = Ret b'
      /\ clean b'
      /\ Len b' = Len b + n
      /\ (forall i, 0 <= i < Len b -> At b' i = At b i)
      /\ (forall t, 0 <= t < n ->
            At b' (Len b + t) = Ret (Z.testbit value (n - 1 - t))).
Proof.
  intros Hb Hn; unfold AppendUint32.
  destruct (n >? 32); [reflexivity |].
  exact (append_value b value n Hb Hn).
Qed.

(** A byte appended with [AppendByte] is the byte [ByteAt] reads back. *)
Theorem AppendByte_ByteAt b v :
  clean b -> byte v ->
  exists b',
    AppendByte b v 8 = Ret b' /\ ByteAt b' (Len b) = Ret v.
Proof.
  intros Hb Hv.
  pose proof (AppendByte_bits b v 8 Hb ltac:(lia)) as H.
  change (8 >? 8) with false in H; cbv iota in H.
  destruct H as (b' & Hrun & Hc & Hl & _ & Hnew).
  exists b'; split; [exact Hrun |].
  assert (Hb0 : 0 <= numBits b) by (destruct Hb as [[? ?] _]; lia).
  unfold Len in *.
  destruct (ByteAt_bits b' (numBits b) (clean_covered _ Hc) ltac:(lia))
    as (r & Hr & Hrange & Hbits).
  assert (Hav : available b' (numBits b) = 8) by (unfold available; lia).
  rewrite Hav in *; rewrite Hr; f_equal.
  apply byte_eq_bits; [unfold byte; change 256 with (2 ^ 8); exact Hrange
                      | exact Hv |].
  intros t Ht.
  specialize (Hbits (7 - t) ltac:(lia)).
  rewrite Hnew in Hbits by lia.
  apply Ret_inj in Hbits.
  replace (8 - 1 - (7 - t)) with t in Hbits by lia.
  symmetry; exact Hbits.
Qed.

Lemma AppendNumBools_loop_spec value :
  forall n b,
    clean b ->
    exists b',
      AppendNumBools_loop n value b = Ret b'
      /\ clean b'
      /\ Len b' = Len b + Z.of_nat n
      /\ (forall i, 0 <= i < Len b -> At b' i = At b i)
      /\ (forall j, 0 <= j < Z.of_nat n -> At b' (Len b + j) = Ret value).
Proof.
  induction n as [| n IH]; intros b Hb; cbn [AppendNumBools_loop].
  - exists b; split; [reflexivity |]; split; [exact Hb |].
    split; [lia |]; split; [auto | intros; lia].
  - destruct (AppendBools_spec b [value] Hb)
      as (b1 & Hrun1 & Hc1 & Hl1 & Hold1 & Hnew1).
    change (len [value]) with 1 in *.
    destruct (IH b1 Hc1) as (b' & Hrun & Hc & Hl & Hold & Hnew).
    assert (Hb0 : 0 <= Len b) by (destruct Hb as [[? ?] _]; unfold Len; lia).
    exists b'; rewrite Hrun1; cbn [bind].
    split; [exact Hrun |]; split; [exact Hc |]; split; [lia |]; split.
    + intros i Hi; rewrite Hold by lia; apply Hold1; exact Hi.
    + intros j Hj.
      destruct (Z.eq_dec j 0) as [-> | Hne].
      * rewrite Hold by lia.
        rewrite (Hnew1 0) by lia; reflexivity.
      * replace (Len b + j) with (Len b1 + (j - 1)) by lia.
        apply Hnew; lia.
Qed.

(** [AppendNumBools(num, value)] appends [num] copies of the bit, and
    nothing when [num] is not positive. *)
Lemma AppendNumBools_spec b num value :
  clean b ->
  exists b',
    AppendNumBools b num value = Ret b'
    /\ clean b'
    /\ Len b' = Len b + Z.max 0 num
    /\ (forall i, 0 <= i < Len b -> At b' i = At b i)
    /\ (forall j, 0 <= j < num -> At b' (Len b + j) = Ret value).
Proof.
  intros Hb; unfold AppendNumBools.
  destruct (AppendNumBools_loop_spec value (Z.to_nat num) b Hb)
    as (b' & Hrun & Hc & Hl & Hold & Hnew).
  exists b'; split; [exact Hrun |]; split; [exact Hc |].
  split; [lia |]; split; [exact Hold |].
  intros j Hj; apply Hnew; lia.
Qed.

(** [At] checks its index against [numBits] only: an index from -7 to -1
    reads as a zero bit of the first storage byte, and a smaller one
    indexes the storage out of range. *)
Theorem At_negative_index b i :
  0 <= numBits b -> i < 0 ->
  At b i = if (-8 <? i) && (0 <? len (bits b)) then Ret false else Panic.
Proof.
  intros Hn Hi; unfold At.
  destruct (Z.geb_spec i (numBits b)); [lia |].
  destruct (Z.ltb_spec (-8) i) as [L | G]; cbn [andb].
  - assert (Hq : Z.quot i 8 = 0) by (apply Z.quot_small_iff; lia).
    assert (Hr : Z.rem i 8 = i) by (apply Z.rem_small_iff; lia).
    rewrite Hq, Hr.
    destruct (Z.ltb_spec 0 (len (bits b))) as [L0 | G0].
    + rewrite (index_Some _ _ 0) by lia.
      replace (i mod 256) with (256 + i)
        by (apply Z.mod_unique with (q := -1); lia).
      rewrite Z.shiftr_div_pow2 by lia.
      rewrite Z.div_small.
      * rewrite Z.land_0_r; reflexivity.
      * split; [lia |].
        apply Z.lt_le_trans with (2 ^ 8); [reflexivity |].
        apply Z.pow_le_mono_r; lia.
    + rewrite index_None by lia; reflexivity.
  - assert (Hq : Z.quot i 8 < 0).
    { replace i with (- (- i)) by lia.
      rewrite Z.quot_opp_l, Z.quot_div_nonneg by lia.
      assert (1 <= - i / 8) by (apply Z.div_le_lower_bound; lia).
      lia. }
    rewrite index_None by lia; reflexivity.
Qed.

End BitsetOperations.

Lemma Append_At_witness :
  clean oneBit /\ covered elevenBits
  /\ exists b',
       Append oneBit elevenBits = Ret b'
       /\ clean b'
       /\ Len b' = Len oneBit + Len elevenBits
       /\ (forall i, 0 <= i < Len oneBit -> At b' i = At oneBit i)
       /\ (forall j, 0 <= j < Len elevenBits ->
             At b' (Len oneBit + j) = At elevenBits j).
Proof.
  assert (H1 : clean oneBit) by (apply cleanb_clean; reflexivity).
  assert (H2 : covered elevenBits) by (unfold covered; simpl; lia).
  split; [exact H1 |]; split; [exact H2 |].
  exact (Append_At oneBit elevenBits H1 H2).
Defined.

Lemma Substr_At_witness :
  covered elevenBits /\ 0 <= 3 <= 9 /\ 9 <= Len elevenBits
  /\ exists r,
       Substr elevenBits 3 9 = Ret r
       /\ clean r
       /\ Len r = 9 - 3
       /\ forall j, 0 <= j < 9 - 3 -> At r j = At elevenBits (3 + j).
Proof.
  assert (H1 : covered elevenBits) by (unfold covered; simpl; lia).
  assert (H2 : 0 <= 3 <= 9) by lia.
  assert (H3 : 9 <= Len elevenBits) by (simpl; lia).
  split; [exact H1 |]; split; [exact H2 |]; split; [exact H3 |].
  exact (Substr_At elevenBits 3 9 H1 H2 H3).
Defined.

(** Bits 3 to 8 of [10100101 111] are [001011]. *)
Example Substr_elevenBits :
  (r <- Substr elevenBits 3 9 ;; ByteAt r 0) = Ret 11.
Proof. reflexivity. Qed.

Lemma AppendUint32_At_witness :
  clean oneBit /\ 0 <= 3
  /\ exists b',
       AppendUint32 oneBit 5 3 = Ret b'
       /\ clean b'
       /\ Len b' = Len oneBit + 3
       /\ (forall i, 0 <= i < Len oneBit -> At b' i = At oneBit i)
       /\ (forall t, 0 <= t < 3 ->
             At b' (Len oneBit + t) = Ret (Z.testbit 5 (3 - 1 - t))).
Proof.
  assert (H1 : clean oneBit) by (apply cleanb_clean; reflexivity).
  assert (H2 : 0 <= 3) by lia.
  split; [exact H1 |]; split; [exact H2 |].
  exact (AppendUint32_At oneBit 5 3 H1 H2).
Defined.

(** More than 32 bits are refused. *)
Example AppendUint32_33 :
  AppendUint32 oneBit 5 33 = Err "numBits %d out of range 0-32"%string.
Proof. reflexivity. Qed.

Lemma AppendByte_ByteAt_witness :
  clean oneBit /\ byte 200
  /\ exists b',
       AppendByte oneBit 200 8 = Ret b' /\ ByteAt b' (Len oneBit) = Ret 200.
Proof.
  assert (H1 : clean oneBit) by (apply cleanb_clean; reflexivity).
  assert (H2 : byte 200) by (unfold byte; lia).
  split; [exact H1 |]; split; [exact H2 |].
  exact (AppendByte_ByteAt oneBit 200 H1 H2).
Defined.

Lemma At_negative_index_witness :
  0 <= numBits oneBit /\ -1 < 0 /\ At oneBit (-1) = Ret false.
Proof.
  assert (H1 : 0 <= numBits oneBit) by (simpl; lia).
  assert (H2 : -1 < 0) by lia.
  split; [exact H1 |]; split; [exact H2 |].
  exact (At_negative_index oneBit (-1) H1 H2).
Defined.

(** ** Polynomials: laws and edges *)

Section PolynomialLaws.

(** Two normalised polynomials with the same coefficients are the same
    slice. *)
Lemma normal_ext p q :
  normal p -> normal q ->
  (forall n, 0 <= n -> coef (term p) n = coef (term q) n) -> p = q.
Proof.
  intros Np Nq H.
  assert (Hat : forall n, 0 <= n -> at_ (term p) n = at_ (term q) n)
    by (intros n Hn; rewrite <- !coef_at by exact Hn; apply H; exact Hn).
  assert (Hd : degree (term p) = degree (term q)).
  { pose proof (degree_bounds (term p)) as Bp.
    destruct (Z.eq_dec (degree (term p)) (-1)) as [E | N].
    - rewrite E; symmetry; apply degree_zero; intros n Hn.
      rewrite <- Hat by exact Hn; apply at_above_degree; lia.
    - symmetry; apply degree_unique; [lia | |].
      + rewrite <- Hat by lia; apply at_degree; lia.
      + intros n Hn; rewrite <- Hat by lia; apply at_above_degree; exact Hn. }
  unfold normal, numTerms, len in Np, Nq.
  destruct p as [tp], q as [tq]; cbn [term] in *; f_equal.
  apply (nth_ext _ _ 0 0); [lia |].
  intros n Hn; specialize (Hat (Z.of_nat n) ltac:(lia)).
  unfold at_ in Hat; rewrite Nat2Z.id in Hat; exact Hat.
Qed.

Lemma normal_gfPolyAdd a b : normal (gfPolyAdd a b).
Proof. unfold gfPolyAdd; apply normalised_normal. Qed.

Lemma normal_gfPolyMultiply a b : normal (gfPolyMultiply a b).
Proof. unfold gfPolyMultiply; apply normalised_normal. Qed.

Lemma normal_zero : normal (mkPoly []).
Proof. reflexivity. Qed.

(** Addition: commutative, every polynomial its own opposite, and the zero
    polynomial neutral up to normalisation. *)
Theorem gfPolyAdd_laws a b :
  gfPolyAdd a b = gfPolyAdd b a
  /\ gfPolyAdd a a = mkPoly []
  /\ gfPolyAdd a (mkPoly []) = normalised a.
Proof.
  split; [| split].
  - apply normal_ext; try apply normal_gfPolyAdd.
    intros n _; rewrite !coef_gfPolyAdd; unfold cadd, gfAdd.
    apply Z.lxor_comm.
  - apply normal_ext; [apply normal_gfPolyAdd | apply normal_zero |].
    intros n _; rewrite coef_gfPolyAdd, coef_nil; unfold cadd, gfAdd.
    apply Z.lxor_nilpotent.
  - apply normal_ext; [apply normal_gfPolyAdd | apply normalised_normal |].
    intros n _; rewrite coef_gfPolyAdd, coef_normalised; unfold cadd, gfAdd.
    cbn [term]; rewrite coef_nil; apply Z.lxor_0_r.
Qed.

Lemma xsum_rev {A : Type} (f : A -> Z) xs : xsum f (rev xs) = xsum f xs.
Proof.
  induction xs as [| x xs IH]; [reflexivity |].
  cbn [rev]; rewrite xsum_app, IH; cbn [xsum fold_right].
  rewrite Z.lxor_0_r; apply Z.lxor_comm.
Qed.

Lemma rev_upto n :
  rev (upto 0 n) = map (fun i => Z.of_nat n - 1 - i) (upto 0 n).
Proof.
  apply (nth_ext _ _ 0 0).
  - rewrite length_rev, length_map; reflexivity.
  - rewrite length_rev, length_upto; intros k Hk.
    rewrite rev_nth by (rewrite length_upto; exact Hk).
    rewrite length_upto, nth_upto by lia.
    rewrite nth_indep with (d' := (fun i => Z.of_nat n - 1 - i) 0)
      by (rewrite length_map, length_upto; exact Hk).
    rewrite map_nth, nth_upto by exact Hk; lia.
Qed.

Lemma cmul_comm f g n : cmul f g n = cmul g f n.
Proof.
  unfold cmul.
  rewrite <- (xsum_rev _ (upto 0 (Z.to_nat (n + 1)))), rev_upto, xsum_map.
  apply xsum_ext; intros i Hi; apply In_upto in Hi.
  rewrite gfMultiply_comm; f_equal; f_equal; lia.
Qed.

(** Multiplication: commutative, the zero polynomial absorbing, and
    distributive over addition. *)
Theorem gfPolyMultiply_laws a b c :
  bytes (coef (term a)) -> bytes (coef (term b)) -> bytes (coef (term c)) ->
  gfPolyMultiply a b = gfPolyMultiply b a
  /\ gfPolyMultiply a (mkPoly []) = mkPoly []
  /\ gfPolyMultiply a (gfPolyAdd b c)
     = gfPolyAdd (gfPolyMultiply a b) (gfPolyMultiply a c).
Proof.
  intros Ha Hb Hc; split; [| split].
  - apply normal_ext; try apply normal_gfPolyMultiply.
    intros n Hn; rewrite !coef_gfPolyMultiply by exact Hn.
    apply cmul_comm.
  - apply normal_ext; [apply normal_gfPolyMultiply | apply normal_zero |].
    intros n Hn; rewrite coef_gfPolyMultiply by exact Hn; cbn [term].
    rewrite cmul_nil, coef_nil; reflexivity.
  - apply normal_ext; [apply normal_gfPolyMultiply | apply normal_gfPolyAdd |].
    intros n Hn.
    rewrite coef_gfPolyMultiply, coef_gfPolyAdd by exact Hn.
    unfold cadd at 1; rewrite !coef_gfPolyMultiply by exact Hn.
    rewrite (cmul_ext _ (coef (term a)) _
               (cadd (coef (term b)) (coef (term c))) n)
      by (auto; intros; apply coef_gfPolyAdd).
    rewrite cmul_cadd_r by assumption; reflexivity.
Qed.

Lemma equals_iff a b :
  equals a b = true <-> forall n, coef (term a) n = coef (term b) n.
Proof.
  unfold equals, numTerms.
  set (la := len (term a)); set (lb := len (term b)).
  assert (Ha0 : 0 <= la) by (unfold la, len; lia).
  assert (Hb0 : 0 <= lb) by (unfold lb, len; lia).
  rewrite andb_true_iff, !forallb_forall; split.
  - intros [Hmin Hmax] n; unfold coef.
    destruct (Z.ltb_spec n 0); [reflexivity |].
    destruct (Z.lt_ge_cases n (Z.min la lb)) as [L | G].
    + apply Z.eqb_eq, Hmin, In_upto; lia.
    + destruct (Z.lt_ge_cases n (Z.max la lb)) as [L' | G'].
      * specialize (Hmax n ltac:(apply In_upto; lia)).
        apply Z.eqb_eq in Hmax.
        destruct (Z.gtb_spec la lb).
        -- rewrite Hmax, (at_beyond (term b)) by (fold lb; lia); reflexivity.
        -- rewrite Hmax, (at_beyond (term a)) by (fold la; lia); reflexivity.
      * rewrite !at_beyond by (fold la; fold lb; lia); reflexivity.
  - intros H; split.
    + intros n Hn; apply In_upto in Hn; apply Z.eqb_eq.
      rewrite <- !coef_at by lia; apply H.
    + intros n Hn; apply In_upto in Hn; apply Z.eqb_eq.
      destruct (Z.gtb_spec la lb).
      * rewrite <- coef_at, H by lia; apply coef_beyond; fold lb; lia.
      * rewrite <- coef_at, <- H by lia; apply coef_beyond; fold la; lia.
Qed.

(** [equals] decides equality of the polynomials as such: the same
    coefficient at every power, trailing zero terms not counting. *)
Theorem equals_coef a b :
  equals a b = true <-> forall n, coef (term a) n = coef (term b) n.
Proof. exact (equals_iff a b). Qed.

(** Division by a polynomial whose terms are all zero, however many of them
    the slice holds, is the error "remainder by zero". *)
Lemma gfPolyRemainder_by_zero n d :
  (forall k, coef (term d) k = 0) ->
  gfPolyRemainder n d = Err "remainder by zero"%string.
Proof.
  intros H; unfold gfPolyRemainder.
  replace (equals d (mkPoly [])) with true; [reflexivity |].
  symmetry; apply equals_iff; intros k; cbn [term].
  rewrite H, coef_nil; reflexivity.
Qed.

(** Division by a polynomial with a non-zero top term: [gfPolyRemainder]
    returns a normalised remainder [R] with fewer terms than the divisor,
    and [N = D Q + R] for a quotient [Q]. *)
Theorem gfPolyRemainder_division N D :
  bytes (coef (term N)) -> bytes (coef (term D)) ->
  1 <= numTerms D -> at_ (term D) (numTerms D - 1) <> 0 ->
  exists Q R,
    gfPolyRemainder N D = Ret R
    /\ numTerms R < numTerms D
    /\ normal R
    /\ bytes (coef Q)
    /\ forall n, 0 <= n ->
         coef (term N) n
         = gfAdd (cmul (coef (term D)) (coef Q) n) (coef (term R) n).
Proof.
  intros HN HD Hterms Hlead.
  destruct (gfPolyRemainder_spec D HD Hlead Hterms N HN)
    as (Q & R & Hrun & Hshort & Hnorm & _ & HQ & Heq).
  exists Q, R; split; [exact Hrun |]; split; [exact Hshort |].
  split; [exact Hnorm |]; split; [exact HQ | exact Heq].
Qed.

(** [data(numTerms)] is the terms from the top down after zero bytes for
    the terms the polynomial does not have; asked for fewer bytes than
    there are terms, it indexes its result out of range. *)
Theorem data_padded e n :
  reedsolomon.data e n
  = if n <? numTerms e then Panic
    else Ret (zeros (n - numTerms e) ++ rev (term e)).
Proof.
  destruct (Z.ltb_spec n (numTerms e)) as [L | G];
    [| apply data_spec; exact G].
  unfold reedsolomon.data.
  destruct (Z.ltb_spec n 0); [reflexivity |].
  assert (Hne : rev (term e) <> []).
  { intros E; apply (f_equal (@length Z)) in E.
    rewrite length_rev in E; unfold numTerms, len in L; simpl in E; lia. }
  destruct (rev (term e)) as [| x l]; [contradiction |].
  cbn [forM bind].
  rewrite index_None by lia; reflexivity.
Qed.

(** The polynomial built from a buffer, written out with [data], gives the
    codewords of the buffer back. *)
Theorem newGFPolyFromData_data b :
  covered b ->
  exists p cw,
    newGFPolyFromData b = Ret p
    /\ numTerms p = (Len b + 7) / 8
    /\ reedsolomon.data p (numTerms p) = Ret cw
    /\ forall j, 0 <= j < numTerms p -> ByteAt b (8 * j) = Ret (at_ cw j).
Proof.
  intros Hb.
  destruct (newGFPolyFromData_spec b Hb) as (cw & Hrun & Hlen & _ & Hcw).
  exists (mkPoly (rev cw)), cw.
  assert (Hn : numTerms (mkPoly (rev cw)) = len cw)
    by (unfold numTerms, len; cbn [term]; rewrite length_rev; reflexivity).
  split; [exact Hrun |]; rewrite Hn; split; [exact Hlen |]; split.
  - rewrite data_spec by lia; cbn [term].
    rewrite Hn, Z.sub_diag, rev_involutive; reflexivity.
  - exact Hcw.
Qed.

End PolynomialLaws.

Lemma gfPolyMultiply_laws_witness :
  bytes (coef [1; 1]) /\ bytes (coef [2; 1]) /\ bytes (coef [4; 1])
  /\ gfPolyMultiply (mkPoly [1; 1]) (mkPoly [2; 1])
     = gfPolyMultiply (mkPoly [2; 1]) (mkPoly [1; 1])
  /\ gfPolyMultiply (mkPoly [1; 1]) (mkPoly []) = mkPoly []
  /\ gfPolyMultiply (mkPoly [1; 1]) (gfPolyAdd (mkPoly [2; 1]) (mkPoly [4; 1]))
     = gfPolyAdd (gfPolyMultiply (mkPoly [1; 1]) (mkPoly [2; 1]))
                 (gfPolyMultiply (mkPoly [1; 1]) (mkPoly [4; 1])).
Proof.
  assert (H1 : bytes (coef [1; 1]))
    by (apply bytes_coef; repeat constructor; unfold byte; lia).
  assert (H2 : bytes (coef [2; 1]))
    by (apply bytes_coef; repeat constructor; unfold byte; lia).
  assert (H3 : bytes (coef [4; 1]))
    by (apply bytes_coef; repeat constructor; unfold byte; lia).
  split; [exact H1 |]; split; [exact H2 |]; split; [exact H3 |].
  exact (gfPolyMultiply_laws (mkPoly [1; 1]) (mkPoly [2; 1]) (mkPoly [4; 1])
           H1 H2 H3).
Defined.

Lemma gfPolyRemainder_division_witness :
  bytes (coef [0; 0; 2; 1]) /\ bytes (coef [2; 3; 1])
  /\ 1 <= numTerms (mkPoly [2; 3; 1])
  /\ at_ [2; 3; 1] (numTerms (mkPoly [2; 3; 1]) - 1) <> 0
  /\ exists Q R,
       gfPolyRemainder (mkPoly [0; 0; 2; 1]) (mkPoly [2; 3; 1]) = Ret R
       /\ numTerms R < numTerms (mkPoly [2; 3; 1])
       /\ normal R
       /\ bytes (coef Q)
       /\ forall n, 0 <= n ->
            coef [0; 0; 2; 1] n
            = gfAdd (cmul (coef [2; 3; 1]) (coef Q) n) (coef (term R) n).
Proof.
  assert (H1 : bytes (coef [0; 0; 2; 1]))
    by (apply bytes_coef; repeat constructor; unfold byte; lia).
  assert (H2 : bytes (coef [2; 3; 1]))
    by (apply bytes_coef; repeat constructor; unfold byte; lia).
  assert (H3 : 1 <= numTerms (mkPoly [2; 3; 1])) by (vm_compute; discriminate).
  assert (H4 : at_ [2; 3; 1] (numTerms (mkPoly [2; 3; 1]) - 1) <> 0)
    by (vm_compute; discriminate).
  split; [exact H1 |]; split; [exact H2 |]; split; [exact H3 |].
  split; [exact H4 |].
  exact (gfPolyRemainder_division (mkPoly [0; 0; 2; 1]) (mkPoly [2; 3; 1])
           H1 H2 H3 H4).
Defined.

(** A divisor that ends in a zero term is refused by [gfDivide]: the
    division stops at the first quotient term. *)
Example gfPolyRemainder_unnormalised_divisor :
  gfPolyRemainder (mkPoly [0; 0; 2; 1]) (mkPoly [2; 1; 0])
  = Err "divide by zero"%string
  /\ gfPolyRemainder (mkPoly [0; 0; 2; 1]) (mkPoly [0; 0])
     = Err "remainder by zero"%string.
Proof. split; reflexivity. Qed.

Lemma newGFPolyFromData_data_witness :
  covered elevenBits
  /\ exists p cw,
       newGFPolyFromData elevenBits = Ret p
       /\ numTerms p = (Len elevenBits + 7) / 8
       /\ reedsolomon.data p (numTerms p) = Ret cw
       /\ forall j, 0 <= j < numTerms p ->
            ByteAt elevenBits (8 * j) = Ret (at_ cw j).
Proof.
  assert (H1 : covered elevenBits) by (unfold covered; simpl; lia).
  split; [exact H1 | exact (newGFPolyFromData_data elevenBits H1)].
Defined.

(** ** Encode: edges and the codeword *)

Section EncodeEdges.

(** Fewer than two error-correction bytes: [Encode] returns the error of
    [rsGeneratorPoly] for 0 and 1, and for a negative number the monomial
    [x^k] cannot be allocated. *)
Theorem Encode_small_degree b k :
  covered b -> k < 2 ->
  Encode b k = if k <? 0 then Panic else Err "degree < 2"%string.
Proof.
  intros Hb Hk; unfold Encode.
  destruct (newGFPolyFromData_spec b Hb) as (cw & Hrun & _).
  rewrite Hrun; cbn [bind].
  unfold newGFPolyMonomial, gfOne, gfZero; cbn [Z.eqb].
  destruct (Z.ltb_spec k 0); [reflexivity |]; cbn [bind].
  unfold rsGeneratorPoly.
  destruct (Z.ltb_spec k 2); [reflexivity | lia].
Qed.

(** What [Encode] returns on a clean buffer, part by part. *)
Lemma Encode_parts b k :
  clean b -> 2 <= k <= 256 ->
  exists result cw ec q,
    Encode b k = Ret result
    /\ clean result
    /\ Len result = Len b + 8 * k
    /\ (forall i, 0 <= i < Len b -> At result i = At b i)
    /\ len ec = k
    /\ (forall j, 0 <= j < k ->
          ByteAt result (Len b + 8 * j) = Ret (at_ ec j))
    /\ len cw = (Len b + 7) / 8
    /\ (forall j, 0 <= j < len cw -> ByteAt b (8 * j) = Ret (at_ cw j))
    /\ bytes (coef q)
    /\ (forall n, 0 <= n ->
          coef (rev cw) (n - k)
          = gfAdd (cmul (generator (Z.to_nat k)) (coef q) n)
                  (coef (rev ec) n)).
Proof.
  intros Hclean Hk; pose proof Hclean as [Hcov Hslack].
  destruct (newGFPolyFromData_spec b Hcov) as (cw & Hfrom & Hlcw & Hbcw & Hcw).
  destruct (rsGeneratorPoly_spec k Hk) as (G & HG & HGlen & HGtop & HGb & HGgen).
  set (ecpoly := gfPolyMultiply (mkPoly (rev cw)) (mkPoly (zeros k ++ [1]))).
  assert (Hec : forall n, 0 <= n -> coef (term ecpoly) n = coef (rev cw) (n - k))
    by (intros; apply coef_shifted; auto; lia).
  assert (Hecb : bytes (coef (term ecpoly))).
  { intros n; destruct (Z.lt_ge_cases n 0) as [L | Gn].
    - rewrite coef_neg by exact L; apply byte_0.
    - rewrite Hec by exact Gn; apply bytes_coef, Forall_rev; exact Hbcw. }
  destruct (gfPolyRemainder_spec G HGb
              ltac:(rewrite HGlen; replace (k + 1 - 1) with k by lia;
                    rewrite HGtop; discriminate)
              ltac:(lia) ecpoly Hecb)
    as (Q & R & Hrem & HRlen & _ & HRb & HQb & Heq).
  set (ec := zeros (k - numTerms R) ++ rev (term R)).
  assert (HR0 : 0 <= numTerms R) by (unfold numTerms, len; lia).
  assert (Hlec : len ec = k).
  { unfold ec; rewrite len_app, len_zeros by lia.
    unfold len, numTerms; rewrite length_rev; unfold len; lia. }
  assert (Hbec : Forall byte ec).
  { unfold ec; apply Forall_app; split.
    - apply Forall_forall; intros x Hx; apply repeat_spec in Hx; subst x.
      apply byte_0.
    - apply Forall_rev, bytes_Forall; exact HRb. }
  destruct (AppendBytes_spec ec b Hclean)
    as (result & Happ & Hcr & Hnr & Hkeep & Hnew).
  exists result, cw, ec, Q.
  split.
  { unfold Encode; rewrite Hfrom; cbn [bind].
    unfold newGFPolyMonomial, gfOne, gfZero; cbn [Z.eqb].
    destruct (Z.ltb_spec k 0); [lia |]; cbn [bind].
    fold ecpoly; rewrite HG; cbn [bind]; rewrite Hrem; cbn [bind].
    rewrite Clone_same, data_spec by lia; cbn [bind].
    exact Happ. }
  split; [exact Hcr |].
  unfold Len; split; [lia |].
  split.
  { intros i Hi.
    rewrite !At_rawbit; auto; [f_equal; apply Hkeep; exact Hi | | lia].
    apply Hcr. }
  split; [exact Hlec |].
  split.
  { intros j Hj.
    assert (Hidx : 0 <= numBits b + 8 * j < numBits result)
      by (destruct Hcov; lia).
    destruct (ByteAt_bits result (numBits b + 8 * j)
                ltac:(apply Hcr) Hidx) as (r & Hr & Hrange & Hbits).
    assert (Hav : available result (numBits b + 8 * j) = 8)
      by (unfold available; lia).
    rewrite Hav in *.
    rewrite Hr; f_equal.
    apply byte_eq_bits.
    - unfold byte; change 256 with (2 ^ 8); exact Hrange.
    - apply byte_at_table; exact Hbec.
    - intros t Ht.
      specialize (Hbits (7 - t) ltac:(lia)).
      rewrite At_rawbit in Hbits by (try apply Hcr; lia).
      rewrite Hnew in Hbits by lia.
      apply Ret_inj in Hbits.
      replace (8 - 1 - (7 - t)) with t in Hbits by lia.
      replace (7 - (7 - t)) with t in Hbits by lia.
      symmetry; exact Hbits. }
  split; [exact Hlcw |].
  split; [exact Hcw |].
  split; [exact HQb |].
  intros n Hn.
  rewrite <- Hec, Heq by exact Hn.
  unfold gfAdd; f_equal.
  - apply cmul_ext; [exact HGgen | reflexivity].
  - symmetry; apply coef_rev_data.
Qed.
(** [ByteAt] on two buffers that agree on the eight bits read. *)
Lemma ByteAt_same b1 b2 i :
  covered b1 -> covered b2 -> 0 <= i ->
  i + 8 <= numBits b1 -> i + 8 <= numBits b2 ->
  (forall t, 0 <= t < 8 -> At b1 (i + t) = At b2 (i + t)) ->
  ByteAt b1 i = ByteAt b2 i.
Proof.
  intros H1 H2 Hi Hn1 Hn2 Hbits.
  destruct (ByteAt_bits b1 i H1 ltac:(lia)) as (r1 & Hr1 & Hrange1 & Hb1).
  destruct (ByteAt_bits b2 i H2 ltac:(lia)) as (r2 & Hr2 & Hrange2 & Hb2).
  assert (Ha1 : available b1 i = 8) by (unfold available; lia).
  assert (Ha2 : available b2 i = 8) by (unfold available; lia).
  rewrite Ha1 in *; rewrite Ha2 in *.
  rewrite Hr1, Hr2; f_equal.
  apply byte_eq_bits; try (unfold byte; change 256 with (2 ^ 8); assumption).
  intros t Ht.
  specialize (Hb1 (7 - t) ltac:(lia)); specialize (Hb2 (7 - t) ltac:(lia)).
  rewrite Hbits, Hb2 in Hb1 by lia.
  apply Ret_inj in Hb1.
  replace (8 - 1 - (7 - t)) with t in Hb1 by lia.
  symmetry; exact Hb1.
Qed.

(** On a buffer of whole codewords, the bytes [Encode] returns are a
    Reed-Solomon codeword: read as a polynomial, most significant term
    first, they are a multiple of the generator [G_k]. *)
Theorem Encode_codeword b k :
  clean b -> 2 <= k <= 256 -> Len b mod 8 = 0 ->
  exists result all q,
    Encode b k = Ret result
    /\ Len result = Len b + 8 * k
    /\ len all = Len b / 8 + k
    /\ (forall j, 0 <= j < len all -> ByteAt result (8 * j) = Ret (at_ all j))
    /\ bytes (coef q)
    /\ forall n, 0 <= n ->
         coef (rev all) n = cmul (generator (Z.to_nat k)) (coef q) n.
Proof.
  intros Hb Hk Hal.
  destruct (Encode_parts b k Hb Hk)
    as (result & cw & ec & q & Hrun & Hcr & Hlen & Hkeep & Hlec & Hec
        & Hlcw & Hcw & Hq & Heq).
  assert (Hb0 : 0 <= Len b) by (destruct Hb as [[? ?] _]; unfold Len; lia).
  assert (Hdiv : Len b = 8 * (Len b / 8))
    by (pose proof (Z.div_mod (Len b) 8 ltac:(lia)); lia).
  assert (Hlcw' : len cw = Len b / 8).
  { rewrite Hlcw; symmetry; apply Z.div_unique with (r := 7); lia. }
  exists result, (cw ++ ec), q.
  split; [exact Hrun |]; split; [exact Hlen |].
  split; [rewrite len_app; lia |].
  split; [| split; [exact Hq |]].
  - intros j Hj; rewrite len_app in Hj.
    destruct (Z.lt_ge_cases j (len cw)) as [L | G].
    + rewrite at_app_l by lia.
      rewrite <- Hcw by lia.
      unfold Len in *.
      apply ByteAt_same; try lia;
        [apply Hcr | apply Hb |].
      intros t Ht; apply Hkeep; lia.
    + rewrite at_app_r by exact G.
      rewrite <- Hec by lia; f_equal; lia.
  - intros n Hn.
    rewrite rev_app_distr.
    assert (Hrl : len (rev ec) = k)
      by (unfold len in *; rewrite length_rev; exact Hlec).
    assert (Hc : cmul (generator (Z.to_nat k)) (coef q) n
                 = Z.lxor (coef (rev cw) (n - k)) (coef (rev ec) n)).
    { rewrite (Heq n Hn); unfold gfAdd.
      rewrite Z.lxor_assoc, Z.lxor_nilpotent, Z.lxor_0_r; reflexivity. }
    rewrite Hc.
    destruct (Z.lt_ge_cases n k) as [L | G].
    + rewrite (coef_neg (rev cw)) by lia.
      rewrite Z.lxor_0_l, !coef_at by exact Hn.
      apply at_app_l; lia.
    + rewrite (coef_beyond (rev ec)) by lia.
      rewrite Z.lxor_0_r, !coef_at by lia.
      rewrite at_app_r by lia; rewrite Hrl; reflexivity.
Qed.

End EncodeEdges.

Lemma Encode_small_degree_witness :
  covered eightZeroBits /\ 1 < 2
  /\ Encode eightZeroBits 1 = Err "degree < 2"%string.
Proof.
  assert (H1 : covered eightZeroBits) by (unfold covered; simpl; lia).
  assert (H2 : 1 < 2) by lia.
  split; [exact H1 |]; split; [exact H2 |].
  exact (Encode_small_degree eightZeroBits 1 H1 H2).
Defined.

Lemma Encode_codeword_witness :
  clean helloCodewords /\ 2 <= 10 <= 256 /\ Len helloCodewords mod 8 = 0
  /\ exists result all q,
       Encode helloCodewords 10 = Ret result
       /\ Len result = Len helloCodewords + 8 * 10
       /\ len all = Len helloCodewords / 8 + 10
       /\ (forall j, 0 <= j < len all ->
             ByteAt result (8 * j) = Ret (at_ all j))
       /\ bytes (coef q)
       /\ forall n, 0 <= n ->
            coef (rev all) n = cmul (generator (Z.to_nat 10)) (coef q) n.
Proof.
  assert (H1 : clean helloCodewords) by (apply cleanb_clean; reflexivity).
  assert (H2 : 2 <= 10 <= 256) by lia.
  assert (H3 : Len helloCodewords mod 8 = 0) by reflexivity.
  split; [exact H1 |]; split; [exact H2 |]; split; [exact H3 |].
  exact (Encode_codeword helloCodewords 10 H1 H2 H3).
Defined.

(** ** The module grid *)

Section SymbolGrid.

Lemma nth_error_modify {A : Type} (f : A -> A) :
  forall (l : list A) n k,
    nth_error (modify f n l) k
    = if Nat.eqb k n then option_map f (nth_error l k) else nth_error l k.
Proof.
  induction l as [| a l IH]; intros [| n] [| k]; simpl; try reflexivity.
  - destruct (Nat.eqb k n); reflexivity.
  - apply IH.
Qed.

Lemma index_modify {A : Type} (f : A -> A) n (l : list A) i :
  index (modify f n l) i
  = if Nat.eqb (Z.to_nat i) n then option_map f (index l i) else index l i.
Proof.
  unfold index; destruct (Z.ltb_spec i 0).
  - destruct (Nat.eqb (Z.to_nat i) n); reflexivity.
  - apply nth_error_modify.
Qed.

Lemma index_map {A B : Type} (f : A -> B) (l : list A) i :
  index (map f l) i = option_map f (index l i).
Proof.
  unfold index; destruct (i <? 0); [reflexivity | apply nth_error_map].
Qed.

Lemma index_repeat {A : Type} (a : A) n i :
  0 <= i < Z.of_nat n -> index (repeat a n) i = Some a.
Proof.
  intros H; rewrite (index_Some _ _ a) by (unfold len; rewrite repeat_length; lia).
  f_equal; apply nth_repeat_lt; lia.
Qed.

Lemma Forall_modify {A : Type} (P : A -> Prop) (f : A -> A) :
  forall l n,
    Forall P l -> (forall a, P a -> P (f a)) -> Forall P (modify f n l).
Proof.
  induction l as [| a l IH]; intros [| n] H Hf; simpl; auto;
    inversion H; subst; constructor; auto.
Qed.

Lemma square_row N plane y :
  square N plane -> 0 <= y < N -> len (nth (Z.to_nat y) plane []) = N.
Proof.
  intros [Hl Hr] Hy; rewrite Forall_forall in Hr.
  apply Hr, nth_In; unfold len in Hl; lia.
Qed.

Lemma cell_range N plane x y :
  square N plane ->
  if (0 <=? x) && (x <? N) && (0 <=? y) && (y <? N)
  then exists v, cell plane x y = Ret v
  else cell plane x y = Panic.
Proof.
  intros Hsq; pose proof Hsq as [Hl Hr]; unfold cell.
  destruct (Z.leb_spec 0 y), (Z.ltb_spec y N);
    try (rewrite index_None by lia; rewrite !andb_false_r; reflexivity);
    try (rewrite index_None by lia; rewrite ?andb_false_r; reflexivity).
  rewrite (index_Some _ _ []) by lia.
  pose proof (square_row N plane y Hsq ltac:(lia)) as Hrow.
  destruct (Z.leb_spec 0 x), (Z.ltb_spec x N); cbn [andb];
    try (rewrite index_None by lia; reflexivity).
  rewrite (index_Some _ _ false) by lia; eexists; reflexivity.
Qed.

Lemma store_range N plane x y v :
  square N plane ->
  store plane x y v
  = if (0 <=? x) && (x <? N) && (0 <=? y) && (y <? N)
    then Ret (modify (modify (fun _ => v) (Z.to_nat x)) (Z.to_nat y) plane)
    else Panic.
Proof.
  intros Hsq; pose proof Hsq as [Hl Hr]; unfold store.
  destruct (Z.leb_spec 0 y), (Z.ltb_spec y N);
    try (rewrite index_None by lia; rewrite ?andb_false_r; reflexivity).
  rewrite (index_Some _ _ []) by lia.
  pose proof (square_row N plane y Hsq ltac:(lia)) as Hrow.
  destruct (Z.leb_spec 0 x), (Z.ltb_spec x N); cbn [andb];
    try (rewrite index_None by lia; reflexivity).
  rewrite (index_Some _ _ false) by lia; reflexivity.
Qed.

Lemma square_modify N plane x y v :
  square N plane ->
  square N (modify (modify (fun _ => v) x) y plane).
Proof.
  intros [Hl Hr]; split.
  - unfold len in *; rewrite length_modify; exact Hl.
  - apply Forall_modify; [exact Hr |].
    intros row Hrow; unfold len in *; rewrite length_modify; exact Hrow.
Qed.

Lemma cell_modify N plane x y v x' y' :
  square N plane -> 0 <= x < N -> 0 <= y < N ->
  cell (modify (modify (fun _ => v) (Z.to_nat x)) (Z.to_nat y) plane) x' y'
  = if (x' =? x) && (y' =? y) then Ret v else cell plane x' y'.
Proof.
  intros Hsq Hx Hy; pose proof Hsq as [Hl Hr]; unfold cell.
  pose proof (square_row N plane y Hsq Hy) as Hrow.
  rewrite index_modify.
  destruct (Z.ltb_spec y' 0) as [Ly | Gy].
  { rewrite !(index_None _ y') by lia.
    destruct (Nat.eqb _ _); cbn [option_map];
      destruct (Z.eqb_spec y' y); try lia; rewrite andb_false_r; reflexivity. }
  destruct (Nat.eqb_spec (Z.to_nat y') (Z.to_nat y)) as [Ey | Ny].
  - assert (y' = y) by lia; subst y'.
    rewrite Z.eqb_refl, andb_true_r.
    rewrite (index_Some _ _ []) by lia; cbn [option_map].
    rewrite index_modify.
    destruct (Z.ltb_spec x' 0) as [Lx | Gx].
    { rewrite !(index_None _ x') by lia.
      destruct (Nat.eqb _ _); cbn [option_map];
        destruct (Z.eqb_spec x' x); try lia; reflexivity. }
    destruct (Nat.eqb_spec (Z.to_nat x') (Z.to_nat x)) as [Ex | Nx].
    + assert (x' = x) by lia; subst x'.
      rewrite Z.eqb_refl, (index_Some _ _ false) by lia; reflexivity.
    + destruct (Z.eqb_spec x' x); [subst; contradiction | reflexivity].
  - destruct (Z.eqb_spec y' y); [subst; contradiction |].
    rewrite andb_false_r; reflexivity.
Qed.

Lemma wellSized_squares s :
  wellSized s <->
  0 <= quietZoneSize s /\ 0 <= symbolSize s
  /\ size s = symbolSize s + 2 * quietZoneSize s
  /\ square (symbolSize s + 2 * quietZoneSize s) (module s)
  /\ square (symbolSize s + 2 * quietZoneSize s) (isUsed s).
Proof. unfold wellSized, allocated, square; tauto. Qed.

Lemma onGrid_shift s x y :
  onGrid s x y
  = (0 <=? x + quietZoneSize s)
    && (x + quietZoneSize s <? symbolSize s + 2 * quietZoneSize s)
    && (0 <=? y + quietZoneSize s)
    && (y + quietZoneSize s <? symbolSize s + 2 * quietZoneSize s).
Proof.
  unfold onGrid.
  destruct (Z.leb_spec (- quietZoneSize s) x),
    (Z.leb_spec 0 (x + quietZoneSize s)); try lia;
  destruct (Z.ltb_spec x (symbolSize s + quietZoneSize s)),
    (Z.ltb_spec (x + quietZoneSize s) (symbolSize s + 2 * quietZoneSize s));
    try lia;
  destruct (Z.leb_spec (- quietZoneSize s) y),
    (Z.leb_spec 0 (y + quietZoneSize s)); try lia;
  destruct (Z.ltb_spec y (symbolSize s + quietZoneSize s)),
    (Z.ltb_spec (y + quietZoneSize s) (symbolSize s + 2 * quietZoneSize s));
    try lia; reflexivity.
Qed.

Lemma onGrid_intro s x y :
  - quietZoneSize s <= x < symbolSize s + quietZoneSize s ->
  - quietZoneSize s <= y < symbolSize s + quietZoneSize s ->
  onGrid s x y = true.
Proof.
  intros Hx Hy; unfold onGrid.
  destruct (Z.leb_spec (- quietZoneSize s) x); [| lia].
  destruct (Z.ltb_spec x (symbolSize s + quietZoneSize s)); [| lia].
  destruct (Z.leb_spec (- quietZoneSize s) y); [| lia].
  destruct (Z.ltb_spec y (symbolSize s + quietZoneSize s)); [| lia].
  reflexivity.
Qed.

Lemma wellSized_newSymbol n q s :
  0 <= n -> 0 <= q -> newSymbol n q = Ret s -> wellSized s.
Proof.
  intros Hn Hq H; pose proof (allocated_newSymbol n q s Hn Hq H) as Ha.
  unfold newSymbol in H; cbv zeta in H.
  destruct (n + 2 * q <? 0); [discriminate |].
  apply Ret_inj in H; subst s.
  unfold wellSized; split; [exact Ha |].
  unfold allocated in Ha; cbn [module isUsed size symbolSize quietZoneSize] in *.
  split; [reflexivity |]; apply Ha.
Qed.

(** [newSymbol] returns a grid of light, unused modules. *)
Theorem newSymbol_blank n q :
  0 <= n -> 0 <= q ->
  exists s,
    newSymbol n q = Ret s
    /\ wellSized s
    /\ symbolSize s = n /\ quietZoneSize s = q
    /\ (forall x y, onGrid s x y = true ->
          get s x y = Ret false /\ empty s x y = Ret true)
    /\ numEmptyModules s = Ret (n * n).
Proof.
  intros Hn Hq; unfold newSymbol; cbv zeta.
  destruct (Z.ltb_spec (n + 2 * q) 0); [lia |].
  set (N := Z.to_nat (n + 2 * q)).
  set (plane := repeat (repeat false N) N).
  assert (Hcell : forall x y, 0 <= x < n + 2 * q -> 0 <= y < n + 2 * q ->
                    cell plane x y = Ret false).
  { intros x y Hx Hy; unfold cell, plane.
    rewrite index_repeat, index_repeat by (unfold N; lia); reflexivity. }
  assert (Hsq : square (n + 2 * q) plane).
  { unfold square, plane, len; rewrite repeat_length; split; [unfold N; lia |].
    apply Forall_forall; intros row Hrow; apply repeat_spec in Hrow; subst row.
    rewrite repeat_length; unfold N; lia. }
  eexists; split; [reflexivity |].
  split.
  { apply wellSized_squares.
    cbn [module isUsed size symbolSize quietZoneSize]; auto. }
  split; [reflexivity |]; split; [reflexivity |]; split.
  - intros x y Hg; rewrite onGrid_shift in Hg.
    cbn [symbolSize quietZoneSize] in Hg.
    apply andb_prop in Hg as (Hg & H4); apply andb_prop in Hg as (Hg & H3).
    apply andb_prop in Hg as (H1 & H2).
    apply Z.leb_le in H1, H3; apply Z.ltb_lt in H2, H4.
    unfold get, empty; cbn [module isUsed quietZoneSize].
    rewrite Hcell by lia; split; reflexivity.
  - unfold numEmptyModules; cbn [symbolSize isUsed quietZoneSize].
    rewrite (forM_pure _ (fun count _ => count + n)).
    + rewrite (fold_left_zsum (fun _ => n)), zsum_const.
      unfold len; rewrite length_upto; f_equal; lia.
    + intros count y Hy; apply In_upto in Hy.
      rewrite (forM_pure _ (fun count _ => count + 1)).
      * rewrite (fold_left_zsum (fun _ => 1)), zsum_const.
        unfold len; rewrite length_upto; f_equal; lia.
      * intros c x Hx; apply In_upto in Hx.
        rewrite Hcell by lia; reflexivity.
Qed.

Lemma set_cases s x y v :
  wellSized s ->
  if onGrid s x y then
    exists s',
      set s x y v = Ret s'
      /\ wellSized s'
      /\ symbolSize s' = symbolSize s /\ quietZoneSize s' = quietZoneSize s
      /\ get s' x y = Ret v
      /\ empty s' x y = Ret false
      /\ forall x' y', x' <> x \/ y' <> y ->
           get s' x' y' = get s x' y' /\ empty s' x' y' = empty s x' y'
  else set s x y v = Panic.
Proof.
  intros Hs; apply wellSized_squares in Hs as (Hq & Hn & Hsz & Hm & Hu).
  rewrite onGrid_shift; unfold set.
  rewrite (store_range _ _ _ _ v Hm), (store_range _ _ _ _ true Hu).
  set (q := quietZoneSize s) in *; set (N := symbolSize s + 2 * q) in *.
  destruct ((0 <=? x + q) && (x + q <? N) && (0 <=? y + q) && (y + q <? N))
    eqn:Hg; [| reflexivity].
  apply andb_prop in Hg as (Hg & H4); apply andb_prop in Hg as (Hg & H3).
  apply andb_prop in Hg as (H1 & H2).
  apply Z.leb_le in H1, H3; apply Z.ltb_lt in H2, H4.
  cbn [bind]; eexists; split; [reflexivity |].
  split.
  { apply wellSized_squares; cbn [module isUsed size symbolSize quietZoneSize].
    fold q; fold N.
    repeat (split; [assumption |]); split; apply square_modify; assumption. }
  split; [reflexivity |]; split; [reflexivity |].
  unfold get, empty; cbn [module isUsed quietZoneSize]; fold q.
  rewrite !(cell_modify N) by (auto; lia).
  rewrite !Z.eqb_refl; cbn [andb bind negb].
  split; [reflexivity |]; split; [reflexivity |].
  intros x' y' Hne.
  rewrite !(cell_modify N) by (auto; lia).
  replace ((x' + q =? x + q) && (y' + q =? y + q)) with false; [auto |].
  symmetry; apply andb_false_iff.
  destruct Hne; [left | right]; apply Z.eqb_neq; lia.
Qed.

(** [set] on a module of the grid writes the value and marks the module
    used, leaving every other module as it was; off the grid it indexes a
    plane out of range. *)
Theorem set_get s x y v :
  wellSized s ->
  if onGrid s x y then
    exists s',
      set s x y v = Ret s'
      /\ wellSized s'
      /\ symbolSize s' = symbolSize s /\ quietZoneSize s' = quietZoneSize s
      /\ get s' x y = Ret v
      /\ empty s' x y = Ret false
      /\ forall x' y', x' <> x \/ y' <> y ->
           get s' x' y' = get s x' y' /\ empty s' x' y' = empty s x' y'
  else set s x y v = Panic.
Proof. exact (set_cases s x y v). Qed.

(** [penalty4] divides by [numModules / 20], which is 0 for a symbol of
    fewer than five modules a side. *)
Lemma penalty4_small_symbol s :
  allocated s -> symbolSize s < 5 -> penalty4 s = Panic.
Proof.
  intros Hs Hn; unfold penalty4.
  rewrite penalty4_count by exact Hs; cbn [bind].
  assert (H0 : 0 <= symbolSize s) by apply Hs.
  assert (Hq : Z.quot (symbolSize s * symbolSize s) 20 = 0)
    by (apply Z.quot_small; nia).
  rewrite Hq; reflexivity.
Qed.

End SymbolGrid.

Lemma newSymbol_blank_witness :
  0 <= 21 /\ 0 <= 4
  /\ exists s,
       newSymbol 21 4 = Ret s
       /\ wellSized s
       /\ symbolSize s = 21 /\ quietZoneSize s = 4
       /\ (forall x y, onGrid s x y = true ->
             get s x y = Ret false /\ empty s x y = Ret true)
       /\ numEmptyModules s = Ret (21 * 21).
Proof.
  assert (H1 : 0 <= 21) by lia.
  assert (H2 : 0 <= 4) by lia.
  split; [exact H1 |]; split; [exact H2 |].
  exact (newSymbol_blank 21 4 H1 H2).
Defined.

Lemma set_get_witness :
  wellSized blank21
  /\ exists s',
       set blank21 0 0 true = Ret s'
       /\ wellSized s'
       /\ symbolSize s' = symbolSize blank21
       /\ quietZoneSize s' = quietZoneSize blank21
       /\ get s' 0 0 = Ret true
       /\ empty s' 0 0 = Ret false
       /\ forall x' y', x' <> 0 \/ y' <> 0 ->
            get s' x' y' = get blank21 x' y'
            /\ empty s' x' y' = empty blank21 x' y'.
Proof.
  assert (H1 : wellSized blank21)
    by (apply (wellSized_newSymbol 21 4); [lia | lia | reflexivity]).
  split; [exact H1 | exact (set_get blank21 0 0 true H1)].
Defined.

(** One module past the quiet zone is off the grid. *)
Example set_off_grid :
  set blank21 25 0 true = Panic /\ set blank21 (-5) 0 true = Panic
  /\ exists s, set blank21 24 (-4) true = Ret s.
Proof. split; [reflexivity |]; split; [reflexivity |]; eexists; reflexivity. Qed.

(** ** Patterns and inversion *)

Section SymbolPatterns.

Lemma onGrid_same s s' x y :
  symbolSize s' = symbolSize s -> quietZoneSize s' = quietZoneSize s ->
  onGrid s' x y = onGrid s x y.
Proof. unfold onGrid; intros -> ->; reflexivity. Qed.

Lemma set_on_grid s x y v :
  wellSized s -> onGrid s x y = true ->
  exists s',
    set s x y v = Ret s'
    /\ wellSized s'
    /\ symbolSize s' = symbolSize s /\ quietZoneSize s' = quietZoneSize s
    /\ get s' x y = Ret v
    /\ empty s' x y = Ret false
    /\ forall x' y', x' <> x \/ y' <> y ->
         get s' x' y' = get s x' y' /\ empty s' x' y' = empty s x' y'.
Proof.
  intros Hs Hg; pose proof (set_cases s x y v Hs) as H.
  rewrite Hg in H; exact H.
Qed.

(** The inner loop of [set2dPattern]: one row of the pattern, from column
    [lo] of the pattern on. *)
Lemma set_row x y :
  forall row lo s,
    wellSized s ->
    (forall i, 0 <= i < len row -> onGrid s (x + (lo + i)) y = true) ->
    exists s',
      forM (combine (upto lo (length row)) row)
           (fun m (ivalue : Z * bool) =>
              let (i, value) := ivalue in set m (x + i) y value)
           s = Ret s'
      /\ wellSized s'
      /\ symbolSize s' = symbolSize s /\ quietZoneSize s' = quietZoneSize s
      /\ forall x' y',
           if (y' =? y) && (x + lo <=? x') && (x' <? x + lo + len row)
           then get s' x' y' = Ret (nth (Z.to_nat (x' - x - lo)) row false)
                /\ empty s' x' y' = Ret false
           else get s' x' y' = get s x' y' /\ empty s' x' y' = empty s x' y'.
Proof.
  induction row as [| a row IH]; intros lo s Hs Hg.
  - exists s; cbn [length upto combine forM]; change (len (@nil bool)) with 0.
    repeat (split; [reflexivity || assumption |]).
    intros x' y'.
    destruct (Z.leb_spec (x + lo) x'), (Z.ltb_spec x' (x + lo + 0));
      rewrite ?andb_false_r; cbn [andb]; try lia; auto.
  - assert (Hlen : len (a :: row) = len row + 1)
      by (unfold len; simpl length; lia).
    assert (Hr0 : 0 <= len row) by (unfold len; lia).
    rewrite Hlen in *.
    simpl length; rewrite upto_S; cbn [combine forM].
    destruct (set_on_grid s (x + lo) y a Hs) as
        (s1 & Hset & Hs1 & Hn1 & Hq1 & Hget1 & Hemp1 & Hfr1).
    { specialize (Hg 0 ltac:(lia)); rewrite Z.add_0_r in Hg; exact Hg. }
    rewrite Hset; cbn [bind].
    destruct (IH (lo + 1) s1 Hs1) as (s' & Hrun & Hs' & Hn' & Hq' & Hall).
    { intros i Hi; rewrite (onGrid_same s s1) by assumption.
      replace (x + (lo + 1 + i)) with (x + (lo + (i + 1))) by lia.
      apply Hg; lia. }
    exists s'; split; [exact Hrun |]; split; [exact Hs' |].
    split; [congruence |]; split; [congruence |].
    intros x' y'; specialize (Hall x' y').
    destruct (Z.eq_dec y' y) as [E | Ny];
      [subst y'; rewrite Z.eqb_refl in *
      | replace (y' =? y) with false in *
          by (symmetry; apply Z.eqb_neq; exact Ny)];
      cbn [andb] in *.
    + destruct (Z.leb_spec (x + (lo + 1)) x') as [L1 | L1],
        (Z.ltb_spec x' (x + (lo + 1) + len row)) as [L2 | L2];
        cbn [andb] in Hall;
        destruct (Z.leb_spec (x + lo) x') as [L3 | L3],
          (Z.ltb_spec x' (x + lo + (len row + 1))) as [L4 | L4];
        cbn [andb]; try lia.
      * replace (Z.to_nat (x' - x - lo))
          with (S (Z.to_nat (x' - x - (lo + 1)))) by lia.
        exact Hall.
      * destruct Hall as [Hg' He']; rewrite Hg', He'.
        apply Hfr1; left; lia.
      * assert (x' = x + lo) by lia; subst x'.
        destruct Hall as [Hg' He']; rewrite Hg', He'.
        replace (x + lo - x - lo) with 0 by lia.
        split; assumption.
      * destruct Hall as [Hg' He']; rewrite Hg', He'.
        apply Hfr1; left; lia.
    + destruct Hall as [Hg' He']; rewrite Hg', He'.
      apply Hfr1; right; exact Ny.
Qed.

(** The pattern covers the module [(x', y')] when [(x' - x, y' - y)] is a
    position of it. *)
Lemma set_rows x y :
  forall v lo s,
    wellSized s ->
    (forall j i, 0 <= j < len v ->
       0 <= i < len (nth (Z.to_nat j) v []) ->
       onGrid s (x + i) (y + (lo + j)) = true) ->
    exists s',
      forM (combine (upto lo (length v)) v)
           (fun m (jrow : Z * list bool) =>
              let (j, row) := jrow in
              forM (combine (upto 0 (length row)) row)
                   (fun m (ivalue : Z * bool) =>
                      let (i, value) := ivalue in
                      set m (x + i) (y + j) value)
                   m)
           s = Ret s'
      /\ wellSized s'
      /\ symbolSize s' = symbolSize s /\ quietZoneSize s' = quietZoneSize s
      /\ forall x' y',
           if (0 <=? y' - y - lo) && (y' - y - lo <? len v)
              && (0 <=? x' - x)
              && (x' - x <? len (nth (Z.to_nat (y' - y - lo)) v []))
           then get s' x' y'
                = Ret (nth (Z.to_nat (x' - x))
                           (nth (Z.to_nat (y' - y - lo)) v []) false)
                /\ empty s' x' y' = Ret false
           else get s' x' y' = get s x' y' /\ empty s' x' y' = empty s x' y'.
Proof.
  induction v as [| row v IH]; intros lo s Hs Hg.
  - exists s; cbn [length upto combine forM]; change (len (@nil (list bool))) with 0.
    repeat (split; [reflexivity || assumption |]).
    intros x' y'.
    destruct (Z.leb_spec 0 (y' - y - lo)), (Z.ltb_spec (y' - y - lo) 0);
      cbn [andb]; try lia; auto.
  - assert (Hlen : len (row :: v) = len v + 1)
      by (unfold len; simpl length; lia).
    assert (Hv0 : 0 <= len v) by (unfold len; lia).
    rewrite Hlen in *.
    simpl length; rewrite upto_S; cbn [combine forM].
    destruct (set_row x (y + lo) row 0 s Hs)
      as (s1 & Hrow & Hs1 & Hn1 & Hq1 & Hall1).
    { intros i Hi; specialize (Hg 0 i ltac:(lia) Hi).
      rewrite Z.add_0_r in Hg; rewrite Z.add_0_l; exact Hg. }
    rewrite Hrow; cbn [bind].
    destruct (IH (lo + 1) s1 Hs1) as (s' & Hrun & Hs' & Hn' & Hq' & Hall).
    { intros j i Hj Hi; rewrite (onGrid_same s s1) by assumption.
      replace (y + (lo + 1 + j)) with (y + (lo + (j + 1))) by lia.
      apply Hg; [lia |].
      replace (Z.to_nat (j + 1)) with (S (Z.to_nat j)) by lia; exact Hi. }
    exists s'; split; [exact Hrun |]; split; [exact Hs' |].
    split; [congruence |]; split; [congruence |].
    intros x' y'; specialize (Hall x' y'); specialize (Hall1 x' y').
    rewrite Z.add_0_r, Z.sub_0_r in Hall1.
    destruct (Z.eq_dec y' (y + lo)) as [-> | Ny].
    + rewrite Z.eqb_refl in Hall1; cbn [andb] in Hall1.
      replace (y + lo - y - lo) with 0 by lia.
      replace (y + lo - y - (lo + 1)) with (-1) in Hall by lia.
      cbn [Z.leb Z.compare andb] in Hall.
      destruct Hall as [Hg' He']; rewrite Hg', He'.
      change (Z.to_nat 0) with O; cbn [nth].
      destruct (Z.ltb_spec 0 (len v + 1)); [| lia].
      cbn [Z.leb Z.compare andb].
      destruct (Z.leb_spec x x'), (Z.leb_spec 0 (x' - x)); try lia;
        destruct (Z.ltb_spec x' (x + len row)),
          (Z.ltb_spec (x' - x) (len row)); try lia;
        cbn [andb] in *; exact Hall1.
    + replace (y' =? y + lo) with false in Hall1
        by (symmetry; apply Z.eqb_neq; exact Ny).
      cbn [andb] in Hall1.
      destruct (Z.leb_spec 0 (y' - y - (lo + 1))) as [L1 | L1],
        (Z.ltb_spec (y' - y - (lo + 1)) (len v)) as [L2 | L2];
        cbn [andb] in Hall;
        destruct (Z.leb_spec 0 (y' - y - lo)) as [L3 | L3],
          (Z.ltb_spec (y' - y - lo) (len v + 1)) as [L4 | L4];
        cbn [andb]; try lia;
        try (destruct Hall as [Hg' He']; rewrite Hg', He'; exact Hall1).
      replace (Z.to_nat (y' - y - lo))
        with (S (Z.to_nat (y' - y - (lo + 1)))) by lia.
      cbn [nth].
      destruct ((0 <=? x' - x)
                && (x' - x <? len (nth (Z.to_nat (y' - y - (lo + 1))) v [])));
        [exact Hall |].
      destruct Hall as [Hg' He']; rewrite Hg', He'; exact Hall1.
Qed.

(** [set2dPattern] writes the pattern with its top-left corner at
    [(x, y)]: a module under the pattern reads its value and is used, every
    other module is as it was. *)
Theorem set2dPattern_get s x y v :
  wellSized s ->
  (forall j i, 0 <= j < len v ->
     0 <= i < len (nth (Z.to_nat j) v []) ->
     onGrid s (x + i) (y + j) = true) ->
  exists s',
    set2dPattern s x y v = Ret s'
    /\ wellSized s'
    /\ symbolSize s' = symbolSize s /\ quietZoneSize s' = quietZoneSize s
    /\ forall x' y',
         if (0 <=? y' - y) && (y' - y <? len v) && (0 <=? x' - x)
            && (x' - x <? len (nth (Z.to_nat (y' - y)) v []))
         then get s' x' y'
              = Ret (nth (Z.to_nat (x' - x)) (nth (Z.to_nat (y' - y)) v [])
                         false)
              /\ empty s' x' y' = Ret false
         else get s' x' y' = get s x' y' /\ empty s' x' y' = empty s x' y'.
Proof.
  intros Hs Hg.
  destruct (set_rows x y v 0 s Hs) as (s' & Hrun & Hs' & Hn & Hq & Hall).
  { intros j i Hj Hi; rewrite Z.add_0_l; apply Hg; assumption. }
  exists s'; split; [exact Hrun |]; split; [exact Hs' |].
  split; [exact Hn |]; split; [exact Hq |].
  intros x' y'; specialize (Hall x' y').
  rewrite !Z.sub_0_r in Hall; exact Hall.
Qed.

Lemma get_invert s x y :
  get (invert s) x y = (v <- get s x y ;; Ret (negb v)).
Proof.
  unfold get, invert, cell; cbn [module quietZoneSize].
  rewrite index_map.
  destruct (index (module s) (y + quietZoneSize s)) as [row |];
    cbn [option_map bind]; [| reflexivity].
  rewrite index_map.
  destruct (index row (x + quietZoneSize s)); reflexivity.
Qed.

(** A loop run on states seen through [g]. *)
Lemma forM_through {S A : Type} (g : S -> S) (body1 body2 : S -> A -> outcome S) :
  forall xs s,
    (forall s x, body2 (g s) x = (s' <- body1 s x ;; Ret (g s'))) ->
    forM xs body2 (g s) = (s' <- forM xs body1 s ;; Ret (g s')).
Proof.
  induction xs as [| x xs IH]; intros s H; cbn [forM bind]; [reflexivity |].
  rewrite H; destruct (body1 s x) as [s1 | | |]; cbn [bind]; try reflexivity.
  apply IH; exact H.
Qed.

Lemma penalty1_step_negb p l c v :
  penalty1_step (p, negb l, c) (negb v)
  = let '(p', l', c') := penalty1_step (p, l, c) v in (p', negb l', c').
Proof.
  unfold penalty1_step.
  replace (Bool.eqb (negb v) (negb l)) with (Bool.eqb v l)
    by (destruct v, l; reflexivity).
  destruct (Bool.eqb v l); cbn [negb]; [| reflexivity].
  destruct (c + 1 =? 6); [reflexivity |].
  destruct (c + 1 >? 6); reflexivity.
Qed.

Lemma bind_ext {A B : Type} (m m' : outcome A) (k k' : A -> outcome B) :
  m = m' -> (forall a, k a = k' a) -> bind m k = bind m' k'.
Proof. intros -> H; destruct m'; cbn [bind]; auto. Qed.

(** One line of [penalty1] on the inverted symbol, read through [rd]. *)
Lemma penalty1_line_invert (rd : Z -> outcome bool) (xs : list Z) p l :
  forM xs (fun st k => v <- (v <- rd k ;; Ret (negb v)) ;;
                       Ret (penalty1_step st v)) (p, negb l, 1)
  = (st <- forM xs (fun st k => v <- rd k ;; Ret (penalty1_step st v))
             (p, l, 1) ;;
     Ret (let '(p', l', c') := st in (p', negb l', c'))).
Proof.
  change (p, negb l, 1)
    with ((fun st : Z * bool * Z => let '(p', l', c') := st in (p', negb l', c'))
            (p, l, 1)).
  apply forM_through; intros [[p' l'] c'] k.
  destruct (rd k) as [v | | |]; cbn [bind]; try reflexivity.
  rewrite penalty1_step_negb.
  destruct (penalty1_step (p', l', c') v) as [[? ?] ?]; reflexivity.
Qed.

(** Rules P1 and P2 do not tell dark from light: inverting every module
    leaves both penalties as they are. *)
Theorem penalty12_invert s :
  penalty1 (invert s) = penalty1 s /\ penalty2 (invert s) = penalty2 s.
Proof.
  split.
  - unfold penalty1; cbn [symbolSize invert].
    apply bind_ext; [| intros p0]; apply forM_ext; intros p x _.
    + rewrite get_invert.
      destruct (get s x 0) as [l | | |]; cbn [bind]; try reflexivity.
      rewrite (forM_ext _ _
                 (fun st y => v <- (v <- get s x y ;; Ret (negb v)) ;;
                              Ret (penalty1_step st v)))
        by (intros; rewrite get_invert; reflexivity).
      rewrite (penalty1_line_invert (fun y => get s x y)).
      destruct (forM _ _ (p, l, 1)) as [[[? ?] ?] | | |]; reflexivity.
    + rewrite get_invert.
      destruct (get s 0 x) as [l | | |]; cbn [bind]; try reflexivity.
      rewrite (forM_ext _ _
                 (fun st y => v <- (v <- get s y x ;; Ret (negb v)) ;;
                              Ret (penalty1_step st v)))
        by (intros; rewrite get_invert; reflexivity).
      rewrite (penalty1_line_invert (fun y => get s y x)).
      destruct (forM _ _ (p, l, 1)) as [[[? ?] ?] | | |]; reflexivity.
  - unfold penalty2; cbn [symbolSize invert].
    apply bind_ext; [| reflexivity].
    apply forM_ext; intros p y _; apply forM_ext; intros p' x _.
    rewrite !get_invert.
    destruct (get s (x - 1) (y - 1)) as [a | | |]; cbn [bind]; try reflexivity.
    destruct (get s x (y - 1)) as [b | | |]; cbn [bind]; try reflexivity.
    destruct (get s (x - 1) y) as [c | | |]; cbn [bind]; try reflexivity.
    destruct (get s x y) as [d | | |]; cbn [bind]; try reflexivity.
    destruct a, b, c, d; reflexivity.
Qed.

End SymbolPatterns.

Lemma set2dPattern_get_witness :
  wellSized blank21
  /\ (forall j i, 0 <= j < len [[true; false]; [false; true]] ->
        0 <= i < len (nth (Z.to_nat j) [[true; false]; [false; true]] []) ->
        onGrid blank21 (1 + i) (2 + j) = true)
  /\ exists s',
       set2dPattern blank21 1 2 [[true; false]; [false; true]] = Ret s'
       /\ wellSized s'
       /\ symbolSize s' = symbolSize blank21
       /\ quietZoneSize s' = quietZoneSize blank21
       /\ forall x' y',
            if (0 <=? y' - 2) && (y' - 2 <? len [[true; false]; [false; true]])
               && (0 <=? x' - 1)
               && (x' - 1 <? len (nth (Z.to_nat (y' - 2))
                                      [[true; false]; [false; true]] []))
            then get s' x' y'
                 = Ret (nth (Z.to_nat (x' - 1))
                            (nth (Z.to_nat (y' - 2))
                                 [[true; false]; [false; true]] []) false)
                 /\ empty s' x' y' = Ret false
            else get s' x' y' = get blank21 x' y'
                 /\ empty s' x' y' = empty blank21 x' y'.
Proof.
  assert (H1 : wellSized blank21)
    by (apply (wellSized_newSymbol 21 4); [lia | lia | reflexivity]).
  assert (H2 : forall j i, 0 <= j < len [[true; false]; [false; true]] ->
             0 <= i < len (nth (Z.to_nat j) [[true; false]; [false; true]] []) ->
             onGrid blank21 (1 + i) (2 + j) = true).
  { intros j i Hj Hi.
    change (len [[true; false]; [false; true]]) with 2 in Hj.
    assert (Hi2 : 0 <= i < 2).
    { assert (C : j = 0 \/ j = 1) by lia.
      destruct C as [-> | ->]; exact Hi. }
    apply onGrid_intro; cbn [symbolSize quietZoneSize blank21]; lia. }
  split; [exact H1 |]; split; [exact H2 |].
  exact (set2dPattern_get blank21 1 2 [[true; false]; [false; true]] H1 H2).
Defined.

(** The pattern read back, and the module to its right still unused. *)
Example set2dPattern_corner :
  (s <- set2dPattern blank21 1 2 [[true; false]; [false; true]] ;;
   a <- get s 1 2 ;; b <- get s 2 2 ;; c <- get s 1 3 ;; e <- get s 2 3 ;;
   u <- empty s 3 2 ;; n <- numEmptyModules s ;;
   Ret ([a; b; c; e], u, n))
  = Ret ([true; false; false; true], true, 21 * 21 - 4).
Proof. vm_compute; reflexivity. Qed.

(** Rule P3 does tell dark from light: the finder-like sequence scores,
    its inverse does not. *)
Example penalty3_not_colour_blind :
  penalty3 (painted 21 4 (fun x y => (y =? 0) && (x <? 11)
                                     && negb ((x =? 1) || (x =? 5))
                                     && (x <? 7)))
  = Ret 40
  /\ penalty3 (invert (painted 21 4 (fun x y => (y =? 0) && (x <? 11)
                                     && negb ((x =? 1) || (x =? 5))
                                     && (x <? 7))))
     <> Ret 40.
Proof. split; vm_compute; [reflexivity | discriminate]. Qed.

(** ** The classifier *)

Section Classifier.

(** The bytes [classifyDataModes] puts in the numeric or the alphanumeric
    class are the ones [encodeAlphanumericCharacter] has a code for; the
    codes are below 45 and no two bytes share one. *)
Theorem alphanumeric_codes v w :
  byte v -> byte w ->
  match classify v with
  | dataModeByte =>
      encodeAlphanumericCharacter v
      = Err "encodeAlphanumericCharacter() with non alphanumeric char %v"%string
  | _ =>
      exists c,
        encodeAlphanumericCharacter v = Ret c /\ 0 <= c < 45
        /\ (encodeAlphanumericCharacter w = Ret c -> w = v)
  end.
Proof.
  intros Hv Hw.
  pose (ok := fun v w : Z =>
    match classify v, encodeAlphanumericCharacter v with
    | dataModeByte, Err _ => true
    | dataModeByte, _ => false
    | _, Ret c =>
        (0 <=? c) && (c <? 45)
        && match encodeAlphanumericCharacter w with
           | Ret c' => negb (c' =? c) || (w =? v)
           | _ => true
           end
    | _, _ => false
    end).
  assert (H : ok v w = true).
  { apply forall_bytes2; [vm_compute; reflexivity | exact Hv | exact Hw]. }
  unfold ok in H.
  assert (Herr : forall msg,
            encodeAlphanumericCharacter v = Err msg ->
            msg = "encodeAlphanumericCharacter() with non alphanumeric char %v"%string).
  { unfold encodeAlphanumericCharacter.
    repeat match goal with
           | |- context [if ?c then _ else _] => destruct c
           end; intros msg E; congruence. }
  destruct (classify v);
    destruct (encodeAlphanumericCharacter v) as [c | msg | |] eqn:E;
    try discriminate H;
    try (rewrite (Herr msg eq_refl); reflexivity);
    exists c; (split; [reflexivity |]);
    apply andb_prop in H as (H & Hinj); apply andb_prop in H as (H0 & H1);
    apply Z.leb_le in H0; apply Z.ltb_lt in H1; (split; [lia |]);
    intros Ew; rewrite Ew in Hinj;
    rewrite Z.eqb_refl in Hinj; cbn [negb orb] in Hinj;
    apply Z.eqb_eq in Hinj; exact Hinj.
Qed.

Lemma dataMode_eqb_eq a b : dataMode_eqb a b = true <-> a = b.
Proof.
  unfold dataMode_eqb; split; [| intros ->; apply Z.eqb_refl].
  destruct a, b; intros H; try reflexivity; discriminate H.
Qed.

Lemma classify_not_none v : classify v <> dataModeNone.
Proof.
  unfold classify.
  destruct ((v >=? 48) && (v <=? 57)); [discriminate |].
  match goal with |- (if ?c then _ else _) <> _ => destruct c end;
    discriminate.
Qed.

Lemma firstn_plus {A : Type} :
  forall p n (l : list A),
    firstn p l ++ firstn n (skipn p l) = firstn (p + n) l.
Proof.
  induction p as [| p IH]; intros n l; [reflexivity |].
  destruct l as [| a l]; [destruct n; reflexivity |].
  cbn [firstn skipn app Nat.add]; f_equal; apply IH.
Qed.

Lemma firstn_slice {A : Type} (l : list A) p q :
  0 <= p <= q ->
  firstn (Z.to_nat p) l ++ slice l p q = firstn (Z.to_nat q) l.
Proof.
  intros H; unfold slice.
  replace (Z.to_nat q) with (Z.to_nat p + Z.to_nat (q - p))%nat by lia.
  apply firstn_plus.
Qed.

Lemma slice_at (l : list Z) p q x :
  0 <= p -> q <= len l -> In x (slice l p q) ->
  exists k, p <= k < q /\ x = at_ l k.
Proof.
  intros Hp Hq Hx.
  destruct (Z.le_gt_cases q p) as [L | G].
  { unfold slice in Hx; replace (Z.to_nat (q - p)) with O in Hx by lia.
    contradiction. }
  replace q with (p + (q - p)) in Hx by lia.
  rewrite (slice_nth l p (q - p) 0) in Hx by lia.
  apply in_map_iff in Hx as (k & <- & Hk); apply in_seq in Hk.
  exists (p + Z.of_nat k); split; [lia |].
  unfold at_; f_equal; lia.
Qed.

Lemma slice_nonempty {A : Type} (l : list A) p q :
  0 <= p < q -> q <= len l -> slice l p q <> [].
Proof.
  intros Hp Hq E; apply (f_equal (@length A)) in E.
  unfold slice, len in *; rewrite length_firstn, length_skipn in E.
  simpl in E; lia.
Qed.

Lemma segAt_app_l act sg k :
  0 <= k < len act -> segAt (act ++ [sg]) k = segAt act k.
Proof. unfold segAt, len; intros H; apply app_nth1; lia. Qed.

Lemma segAt_last act sg : segAt (act ++ [sg]) (len act) = sg.
Proof.
  unfold segAt, len; rewrite Nat2Z.id, app_nth2, Nat.sub_diag by lia.
  reflexivity.
Qed.

Lemma segAt_before_last pre sg :
  segAt (pre ++ [sg]) (len (pre ++ [sg]) - 1) = sg.
Proof.
  replace (len (pre ++ [sg]) - 1) with (len pre)
    by (unfold len; rewrite length_app; simpl; lia).
  apply segAt_last.
Qed.

(** One more byte: the invariant of the classifier loop is kept. *)
Lemma classify_step_inv raw i v st :
  0 <= i < len raw -> at_ raw i = v ->
  classifiedUpTo raw i st ->
  classifiedUpTo raw (i + 1) (classify_step raw st (i, v)).
Proof.
  intros Hi Hv; destruct st as [[[act start] mode] highest].
  unfold classifiedUpTo, classify_step.
  intros (Hs & Hcat & Hhom & Hadj & Hlast & H0 & Hpos).
  set (newMode := classify v).
  assert (Hhigh :
            forall highest',
              (i = 0 -> highest' = dataModeNone) ->
              (0 < i ->
               (forall k, 0 <= k < i ->
                  modeValue (classify (at_ raw k)) <= modeValue highest')
               /\ exists k, 0 <= k < i /\ classify (at_ raw k) = highest') ->
              let h := if modeValue newMode >? modeValue highest'
                       then newMode else highest' in
              (forall k, 0 <= k < i + 1 ->
                 modeValue (classify (at_ raw k)) <= modeValue h)
              /\ exists k, 0 <= k < i + 1 /\ classify (at_ raw k) = h).
  { intros h' Hz Hp; cbv zeta.
    destruct (Z.eq_dec i 0) as [-> | Hne].
    - rewrite (Hz eq_refl).
      assert (modeValue newMode > modeValue dataModeNone).
      { pose proof (classify_not_none v); fold newMode in H.
        destruct newMode; simpl; try lia; contradiction. }
      destruct (Z.gtb_spec (modeValue newMode) (modeValue dataModeNone));
        [| lia].
      split.
      + intros k Hk; assert (k = 0) by lia; subst k; rewrite Hv.
        fold newMode; lia.
      + exists 0; split; [lia | rewrite Hv; reflexivity].
    - destruct (Hp ltac:(lia)) as (Hle & kmax & Hkmax & Emax).
      destruct (Z.gtb_spec (modeValue newMode) (modeValue h')).
      + split.
        * intros k Hk; destruct (Z.eq_dec k i) as [-> | Nk].
          -- rewrite Hv; fold newMode; lia.
          -- specialize (Hle k ltac:(lia)); lia.
        * exists i; split; [lia | rewrite Hv; reflexivity].
      + split.
        * intros k Hk; destruct (Z.eq_dec k i) as [-> | Nk].
          -- rewrite Hv; fold newMode; lia.
          -- apply Hle; lia.
        * exists kmax; split; [lia | exact Emax]. }
  specialize (Hhigh highest ltac:(intros E; apply H0; exact E)
                ltac:(intros P; apply Hpos; exact P)).
  cbv zeta in Hhigh; destruct Hhigh as (Hle' & Hex').
  destruct (dataMode_eqb newMode mode) eqn:Eq; cbn [negb].
  - (* the run goes on *)
    apply dataMode_eqb_eq in Eq.
    assert (Hi0 : 0 < i).
    { destruct (Z.eq_dec i 0) as [E | N]; [| lia].
      destruct (H0 E) as (_ & Em & _).
      exfalso; apply (classify_not_none v); fold newMode; congruence. }
    destruct (Hpos Hi0) as (Hsi & Hrun & _).
    split; [lia |]; split; [exact Hcat |]; split; [exact Hhom |].
    split; [exact Hadj |]; split; [exact Hlast |].
    split; [lia |]; intros _.
    split; [lia |]; split; [| split; assumption].
    intros k Hk; destruct (Z.eq_dec k i) as [-> | Nk].
    + rewrite Hv; exact Eq.
    + apply Hrun; lia.
  - assert (Hne : newMode <> mode)
      by (intros E; apply dataMode_eqb_eq in E; congruence).
    destruct (Z.gtb_spec i 0) as [Hi0 | Hi0].
    + (* a run ends at [i] *)
      destruct (Hpos ltac:(lia)) as (Hsi & Hrun & _).
      split; [lia |]; split.
      { rewrite map_app, concat_app; cbn [map concat seg_data].
        rewrite app_nil_r, Hcat; apply firstn_slice; lia. }
      split.
      { apply Forall_app; split; [exact Hhom |].
        constructor; [| constructor]; split; cbn [seg_data seg_dataMode].
        - apply slice_nonempty; lia.
        - apply Forall_forall; intros x Hx.
          apply slice_at in Hx as (k & Hk & ->); try lia.
          apply Hrun; exact Hk. }
      split.
      { intros k Hk0 Hk1.
        assert (Hla : len (act ++ [mkSegment mode (slice raw start i)])
                      = len act + 1)
          by (unfold len; rewrite length_app; simpl; lia).
        rewrite Hla in Hk1.
        destruct (Z.eq_dec (k + 1) (len act)) as [E | N].
        - rewrite E, segAt_last, segAt_app_l by lia; cbn [seg_dataMode].
          destruct (exists_last (l := act)) as (pre & sg & Ea).
          { intros En; subst act; change (len (@nil segment)) with 0 in E; lia. }
          replace k with (len act - 1) by lia.
          rewrite Ea, segAt_before_last.
          apply (Hlast pre sg Ea).
        - rewrite !segAt_app_l by lia; apply Hadj; lia. }
      split.
      { intros pre sg E; apply app_inj_tail in E as (_ & <-).
        cbn [seg_dataMode]; congruence. }
      split; [lia |]; intros _.
      split; [lia |]; split; [| split; assumption].
      intros k Hk; assert (k = i) by lia; subst k; rewrite Hv; reflexivity.
    + (* the first byte *)
      assert (i = 0) by lia; subst i.
      destruct (H0 eq_refl) as (-> & -> & ->).
      split; [lia |]; split; [exact Hcat |]; split; [exact Hhom |].
      split; [exact Hadj |]; split.
      { intros pre sg E; destruct pre; discriminate E. }
      split; [lia |]; intros _.
      split; [lia |]; split; [| split; assumption].
      intros k Hk; assert (k = 0) by lia; subst k; rewrite Hv; reflexivity.
Qed.

Lemma skipn_cons_at (raw : list Z) i v suf :
  0 <= i -> skipn (Z.to_nat i) raw = v :: suf ->
  i < len raw /\ at_ raw i = v /\ skipn (Z.to_nat (i + 1)) raw = suf.
Proof.
  intros Hi H.
  assert (Hlen : (Z.to_nat i < length raw)%nat).
  { apply (f_equal (@length Z)) in H; rewrite length_skipn in H.
    simpl in H; lia. }
  split; [unfold len; lia |]; split.
  - unfold at_.
    rewrite <- (firstn_skipn (Z.to_nat i) raw) at 1.
    rewrite app_nth2 by (rewrite length_firstn; lia).
    rewrite length_firstn, H.
    replace (Z.to_nat i - Nat.min (Z.to_nat i) (length raw))%nat with O by lia.
    reflexivity.
  - replace (Z.to_nat (i + 1)) with (1 + Z.to_nat i)%nat by lia.
    rewrite <- skipn_skipn, H; reflexivity.
Qed.

Lemma classify_fold raw :
  forall suf i st,
    0 <= i <= len raw -> skipn (Z.to_nat i) raw = suf ->
    classifiedUpTo raw i st ->
    classifiedUpTo raw (len raw)
      (fold_left (classify_step raw) (combine (upto i (length suf)) suf) st).
Proof.
  induction suf as [| v suf IH]; intros i st Hi Hsk Hst.
  - cbn [length upto combine fold_left map seq].
    replace (len raw) with i; [exact Hst |].
    apply (f_equal (@length Z)) in Hsk; rewrite length_skipn in Hsk.
    unfold len in *; simpl in Hsk; lia.
  - destruct (skipn_cons_at raw i v suf ltac:(lia) Hsk) as (Hlt & Hv & Hsk').
    simpl length; rewrite upto_S; cbn [combine fold_left].
    apply IH; [lia | exact Hsk' |].
    apply classify_step_inv; [lia | exact Hv | exact Hst].
Qed.

(** What [classifyDataModes] returns on an encoder that holds the input and
    no segment yet. *)
Lemma classifyDataModes_spec d :
  enc_data d <> [] -> actual d = [] ->
  let segs := actual (fst (classifyDataModes d)) in
  let highest := snd (classifyDataModes d) in
  concat (map seg_data segs) = enc_data d
  /\ Forall homogeneous segs
  /\ (forall k, 0 <= k -> k + 1 < len segs ->
        seg_dataMode (segAt segs k) <> seg_dataMode (segAt segs (k + 1)))
  /\ Forall (fun v => modeValue (classify v) <= modeValue highest)
            (enc_data d)
  /\ exists v, In v (enc_data d) /\ classify v = highest.
Proof.
  intros Hne Hact; unfold classifyDataModes.
  set (raw := enc_data d) in *.
  assert (Hlen : 0 < len raw)
    by (unfold len; destruct raw; [contradiction | simpl; lia]).
  pose proof (classify_fold raw raw 0 (actual d, 0, dataModeNone, dataModeNone)
                ltac:(lia) eq_refl) as H.
  rewrite Hact in *.
  destruct (fold_left _ _ _) as [[[act start] mode] highest].
  cbn [fst snd actual with_plan].
  destruct H as (Hs & Hcat & Hhom & Hadj & Hlast & _ & Hpos).
  { unfold classifiedUpTo; repeat split; try lia; try reflexivity.
    - constructor.
    - intros k Hk0 Hk1; change (len (@nil segment)) with 0 in Hk1; lia.
    - intros pre sg E; destruct pre; discriminate E. }
  destruct (Hpos Hlen) as (Hsl & Hrun & Hle & kmax & Hkmax & Emax).
  split; [| split; [| split; [| split]]].
  - rewrite map_app, concat_app; cbn [map concat seg_data].
    rewrite app_nil_r, Hcat, firstn_slice by lia.
    unfold len; rewrite Nat2Z.id; apply firstn_all.
  - apply Forall_app; split; [exact Hhom |].
    constructor; [| constructor]; split; cbn [seg_data seg_dataMode].
    + apply slice_nonempty; lia.
    + apply Forall_forall; intros x Hx.
      apply slice_at in Hx as (k & Hk & ->); try lia.
      apply Hrun; exact Hk.
  - intros k Hk0 Hk1.
    assert (Hla : len (act ++ [mkSegment mode (slice raw start (len raw))])
                  = len act + 1)
      by (unfold len; rewrite length_app; simpl; lia).
    rewrite Hla in Hk1.
    destruct (Z.eq_dec (k + 1) (len act)) as [E | N].
    + rewrite E, segAt_last, segAt_app_l by lia; cbn [seg_dataMode].
      destruct (exists_last (l := act)) as (pre & sg & Ea).
      { intros En; subst act; change (len (@nil segment)) with 0 in E; lia. }
      replace k with (len act - 1) by lia.
      rewrite Ea, segAt_before_last.
      apply (Hlast pre sg Ea).
    + rewrite !segAt_app_l by lia; apply Hadj; lia.
  - apply Forall_forall; intros x Hx.
    apply (In_nth _ _ 0) in Hx as (n & Hn & <-).
    specialize (Hle (Z.of_nat n) ltac:(unfold len; lia)).
    unfold at_ in Hle; rewrite Nat2Z.id in Hle; exact Hle.
  - exists (at_ raw kmax); split; [| exact Emax].
    unfold at_; apply nth_In; unfold len in *; lia.
Qed.

(** [classifyDataModes] cuts the input into its maximal runs of bytes of one
    class, in order, and returns the greatest class that occurs. *)
Theorem classifyDataModes_runs d :
  enc_data d <> [] -> actual d = [] ->
  let segs := actual (fst (classifyDataModes d)) in
  let highest := snd (classifyDataModes d) in
  concat (map seg_data segs) = enc_data d
  /\ Forall homogeneous segs
  /\ (forall k, 0 <= k -> k + 1 < len segs ->
        seg_dataMode (segAt segs k) <> seg_dataMode (segAt segs (k + 1)))
  /\ Forall (fun v => modeValue (classify v) <= modeValue highest)
            (enc_data d)
  /\ exists v, In v (enc_data d) /\ classify v = highest.
Proof. exact (classifyDataModes_spec d). Qed.

End Classifier.

Lemma alphanumeric_codes_witness :
  byte 65 /\ byte 66
  /\ exists c,
       encodeAlphanumericCharacter 65 = Ret c /\ 0 <= c < 45
       /\ (encodeAlphanumericCharacter 66 = Ret c -> 66 = 65).
Proof.
  assert (H1 : byte 65) by (unfold byte; lia).
  assert (H2 : byte 66) by (unfold byte; lia).
  split; [exact H1 |]; split; [exact H2 |].
  exact (alphanumeric_codes 65 66 H1 H2).
Defined.

Lemma classifyDataModes_runs_witness :
  enc_data (with_plan encoder1To9 [49; 50; 97] [] []) <> []
  /\ actual (with_plan encoder1To9 [49; 50; 97] [] []) = []
  /\ concat (map seg_data
               (actual (fst (classifyDataModes
                               (with_plan encoder1To9 [49; 50; 97] [] [])))))
     = [49; 50; 97].
Proof.
  assert (H1 : enc_data (with_plan encoder1To9 [49; 50; 97] [] []) <> [])
    by discriminate.
  assert (H2 : actual (with_plan encoder1To9 [49; 50; 97] [] []) = [])
    by reflexivity.
  split; [exact H1 |]; split; [exact H2 |].
  exact (proj1 (classifyDataModes_runs
                  (with_plan encoder1To9 [49; 50; 97] [] []) H1 H2)).
Defined.

(** "12a": a numeric run, then a byte run; the greatest class is byte. *)
Example classifyDataModes_12a :
  (let (d, highest) :=
     classifyDataModes (with_plan encoder1To9 [49; 50; 97] [] []) in
   (actual d, highest))
  = ([mkSegment dataModeNumeric [49; 50]; mkSegment dataModeByte [97]],
     dataModeByte).
Proof. reflexivity. Qed.

(** ** The segment plan *)

Section SegmentPlan.

Variable d : dataEncoder.

(** The inner loop of [optimiseDataModes] stops inside [d.actual], and
    the segments it passes are of classes no greater than [mode]. *)
Lemma coalesce_loop_range mode :
  forall fuel numChars j r,
    j <= len (actual d) ->
    coalesce_loop fuel d mode numChars j = Ret r ->
    j <= snd r <= len (actual d)
    /\ forall k, j <= k < snd r ->
         modeValue (seg_dataMode (segAt (actual d) k)) <= modeValue mode.
Proof.
  induction fuel as [| fuel IH]; intros numChars j r Hj;
    cbn [coalesce_loop];
    destruct (Z.ltb_spec j (len (actual d))) as [L | G];
    try discriminate;
    try (intros E; apply Ret_inj in E; subst r; cbn [snd];
         split; [lia | intros; lia]).
  destruct (Z.gtb_spec (modeValue (seg_dataMode (segAt (actual d) j)))
              (modeValue mode)) as [Hgt | Hle].
  { intros E; apply Ret_inj in E; subst r; cbn [snd].
    split; [lia | intros; lia]. }
  intros H.
  apply bind_Ret_inv in H as (c & _ & H).
  apply bind_Ret_inv in H as (s1 & _ & H).
  apply bind_Ret_inv in H as (s2 & _ & H).
  destruct (c <? s1 + s2).
  - apply IH in H as (Hr & Hk); [| lia].
    split; [lia |].
    intros k Hk'; destruct (Z.eq_dec k j) as [-> | N]; [lia |].
    apply Hk; lia.
  - apply Ret_inj in H; subst r; cbn [snd].
    split; [lia | intros; lia].
Qed.

Lemma map_segAt (f : segment -> list Z) i n :
  0 <= i -> 0 <= n -> i + n <= len (actual d) ->
  map (fun k => f (segAt (actual d) k)) (upto i (Z.to_nat n))
  = map f (firstn (Z.to_nat n) (skipn (Z.to_nat i) (actual d))).
Proof.
  intros Hi Hn Hlen.
  apply (nth_ext _ _ [] []).
  - rewrite !length_map, length_upto, length_firstn, length_skipn.
    unfold len in Hlen; lia.
  - rewrite length_map, length_upto; intros k Hk.
    rewrite nth_indep with (d' := f (segAt (actual d) 0))
      by (rewrite length_map, length_upto; exact Hk).
    rewrite (map_nth (fun k => f (segAt (actual d) k))), nth_upto by exact Hk.
    rewrite nth_indep with (d' := f (mkSegment dataModeNone []))
      by (rewrite length_map, length_firstn, length_skipn;
          unfold len in Hlen; lia).
    rewrite map_nth; f_equal.
    rewrite nth_firstn.
    destruct (Nat.ltb_spec k (Z.to_nat n)); [| lia].
    rewrite nth_skipn; unfold segAt; f_equal; lia.
Qed.

(** The outer loop: the segments it adds hold the bytes of the segments
    of [d.actual] from [i] on, in order, each under a class that is no
    smaller than the class of any of its bytes. *)
Lemma optimise_loop_plan :
  Forall homogeneous (actual d) ->
  forall fuel i opt r,
    0 <= i <= len (actual d) ->
    optimise_loop fuel d i opt = Ret r ->
    exists added,
      r = opt ++ added
      /\ concat (map seg_data added)
         = concat (map seg_data (skipn (Z.to_nat i) (actual d)))
      /\ Forall (fun sg =>
                   Forall (fun v => modeValue (classify v)
                                    <= modeValue (seg_dataMode sg))
                          (seg_data sg)) added.
Proof.
  intros Hhom; induction fuel as [| fuel IH]; intros i opt r Hi;
    cbn [optimise_loop];
    destruct (Z.ltb_spec i (len (actual d))) as [L | G];
    try discriminate.
  1,3: intros E; apply Ret_inj in E; subst r; exists [];
    rewrite app_nil_r, skipn_all2 by (unfold len in *; lia);
    repeat split; constructor.
  intros H; apply bind_Ret_inv in H as (cj & Hco & H).
  apply coalesce_loop_range in Hco as (Hj & Hdom); [| lia].
  set (j := snd cj) in *.
  apply IH in H as (added & -> & Hcat & Hall); [| lia].
  eexists (_ :: added); split; [rewrite <- app_assoc; reflexivity |].
  assert (Hseg : skipn (Z.to_nat i) (actual d)
                 = firstn (Z.to_nat (j - i)) (skipn (Z.to_nat i) (actual d))
                   ++ skipn (Z.to_nat j) (actual d)).
  { rewrite <- (firstn_skipn (Z.to_nat (j - i)) (skipn (Z.to_nat i) (actual d)))
      at 1.
    rewrite skipn_skipn; do 2 f_equal; lia. }
  split.
  - cbn [map concat seg_data]; rewrite Hcat, Hseg at 1.
    rewrite map_app, concat_app; f_equal.
    rewrite (map_segAt seg_data) by lia; reflexivity.
  - constructor; [| exact Hall]; cbn [seg_data seg_dataMode].
    apply Forall_forall; intros x Hx.
    apply in_concat in Hx as (l & Hl & Hx).
    apply in_map_iff in Hl as (k & <- & Hk); apply In_upto in Hk.
    assert (Hin : In (segAt (actual d) k) (actual d))
      by (unfold segAt; apply nth_In; unfold len in *; lia).
    rewrite Forall_forall in Hhom.
    destruct (Hhom _ Hin) as (_ & Hcls); rewrite Forall_forall in Hcls.
    rewrite (Hcls x Hx).
    destruct (Z.eq_dec k i) as [-> | N]; [lia |].
    apply Hdom; lia.
Qed.

End SegmentPlan.

Section EncoderPlan.

(** The plan [dataEncoder.encode] emits: its segments hold the input, byte
    for byte and in order, and each segment is of a class no smaller than
    the class of any of its bytes. *)
Theorem encode_plan_covers d raw d' encoded :
  encoder_encode d raw = Ret (d', encoded) ->
  concat (map seg_data (optimised d')) = raw
  /\ Forall (fun sg =>
               Forall (fun v => modeValue (classify v)
                                <= modeValue (seg_dataMode sg))
                      (seg_data sg)) (optimised d').
Proof.
  unfold encoder_encode.
  destruct (Z.eqb_spec (len raw) 0) as [E0 | N0]; [discriminate |].
  assert (Hne : raw <> []) by (intros ->; apply N0; reflexivity).
  pose proof (classifyDataModes_spec (with_plan d raw [] []) Hne eq_refl)
    as Hcls.
  destruct (classifyDataModes (with_plan d raw [] [])) as [dc highest] eqn:Ec.
  cbn [fst snd enc_data with_plan] in Hcls.
  destruct Hcls as (Hcat & Hhom & _ & Hhigh & _).
  assert (Hdc : enc_data dc = raw /\ optimised dc = []).
  { unfold classifyDataModes in Ec; cbn [enc_data with_plan actual optimised] in Ec.
    destruct (fold_left _ _ _) as [[[? ?] ?] ?].
    injection Ec as <- _; split; reflexivity. }
  destruct Hdc as (Hraw & Hopt0).
  intros H.
  apply bind_Ret_inv in H as (dopt & Hopt & H).
  apply bind_Ret_inv in H as (total & _ & H).
  apply bind_Ret_inv in H as (single & _ & H).
  apply bind_Ret_inv in H as (e0 & _ & H).
  apply bind_Ret_inv in H as (e1 & _ & H).
  apply Ret_inj in H; injection H as <- _.
  unfold optimiseDataModes in Hopt.
  apply bind_Ret_inv in Hopt as (opt & Hloop & Hd).
  apply Ret_inj in Hd; subst dopt.
  cbn [enc_data actual optimised with_plan].
  destruct (single <=? total); cbn [optimised with_plan].
  - cbn [map concat seg_data seg_dataMode]; rewrite app_nil_r, Hraw.
    split; [reflexivity |].
    constructor; [exact Hhigh | constructor].
  - apply (optimise_loop_plan dc Hhom) in Hloop
      as (added & -> & Hcat' & Hall); [| unfold len; lia].
    rewrite Hopt0; cbn [app].
    split; [| exact Hall].
    rewrite Hcat'; exact Hcat.
Qed.

End EncoderPlan.

Lemma encode_plan_covers_witness :
  exists d' encoded,
    encoder_encode encoder1To9
      (bytes_of_string "1234567890123456789abc"%string) = Ret (d', encoded)
    /\ concat (map seg_data (optimised d'))
       = bytes_of_string "1234567890123456789abc"%string
    /\ Forall (fun sg =>
                 Forall (fun v => modeValue (classify v)
                                  <= modeValue (seg_dataMode sg))
                        (seg_data sg)) (optimised d').
Proof.
  do 2 eexists; split; [vm_compute; reflexivity |].
  eapply (encode_plan_covers encoder1To9); vm_compute; reflexivity.
Defined.

(** ** Encoded lengths *)

Section EncodedLength.

Lemma push_len b v b' : push b v = Ret b' -> numBits b' = numBits b + 1.
Proof.
  unfold push; intros H; apply bind_Ret_inv in H as (b1 & H1 & H).
  apply Ret_inj in H; subst b'; cbn [numBits]; f_equal.
  destruct v; [| apply Ret_inj in H1; subst; reflexivity].
  unfold setCurrent in H1; destruct (index _ _); [| discriminate].
  apply Ret_inj in H1; subst; reflexivity.
Qed.

Lemma ensureCapacity_numBits b n : numBits (ensureCapacity b n) = numBits b.
Proof. unfold ensureCapacity; destruct (_ >=? _); reflexivity. Qed.

(** A loop whose every iteration adds [c] bits. *)
Lemma forM_adds {A : Type} (c : Z) (body : Bitset -> A -> outcome Bitset) :
  (forall b x b', body b x = Ret b' -> numBits b' = numBits b + c) ->
  forall xs b b',
    forM xs body b = Ret b' -> numBits b' = numBits b + c * len xs.
Proof.
  intros Hbody; induction xs as [| x xs IH]; intros b b' H; cbn [forM] in H.
  - apply Ret_inj in H; subst; change (len (@nil A)) with 0; lia.
  - apply bind_Ret_inv in H as (b1 & H1 & H).
    apply Hbody in H1; apply IH in H.
    unfold len in *; simpl length; lia.
Qed.

Lemma Append_len b other b' :
  Append b other = Ret b' ->
  numBits b' = numBits b + Z.max 0 (numBits other).
Proof.
  unfold Append; intros H.
  apply (forM_adds 1) in H.
  - rewrite ensureCapacity_numBits in H.
    unfold len in H; rewrite length_upto in H; lia.
  - intros s x s' Hs; apply bind_Ret_inv in Hs as (bo & _ & Hs).
    apply push_len in Hs; exact Hs.
Qed.

Lemma AppendUint32_len b value n b' :
  AppendUint32 b value n = Ret b' -> numBits b' = numBits b + Z.max 0 n.
Proof.
  unfold AppendUint32; destruct (n >? 32); [discriminate |]; intros H.
  apply (forM_adds 1) in H; [| intros s x s'; apply push_len].
  rewrite ensureCapacity_numBits in H.
  unfold len, downfrom in H; rewrite length_rev, length_upto in H; lia.
Qed.

Lemma AppendByte_len b value n b' :
  AppendByte b value n = Ret b' -> numBits b' = numBits b + Z.max 0 n.
Proof.
  unfold AppendByte; destruct (n >? 8); [discriminate |]; intros H.
  apply (forM_adds 1) in H; [| intros s x s'; apply push_len].
  rewrite ensureCapacity_numBits in H.
  unfold len, downfrom in H; rewrite length_rev, length_upto in H; lia.
Qed.

(** A loop over the groups of [k] of a slice whose iteration on a group of
    [g] bytes adds [cost g] bits. *)
Lemma forM_chunks_adds (k : nat) (cost : Z -> Z)
  (body : Bitset -> list Z -> outcome Bitset) :
  (0 < k)%nat ->
  (forall b g b', g <> [] -> body b g = Ret b' ->
                  numBits b' = numBits b + cost (len g)) ->
  forall fuel l b b',
    (length l <= fuel)%nat ->
    forM (chunks fuel k l) body b = Ret b' ->
    numBits b' = numBits b
                 + (cost (Z.of_nat k) * (len l / Z.of_nat k)
                    + if len l mod Z.of_nat k =? 0 then 0
                      else cost (len l mod Z.of_nat k)).
Proof.
  intros Hk Hbody; induction fuel as [| fuel IH]; intros l b b' Hl H.
  - destruct l; [| simpl in Hl; lia].
    cbn [chunks forM] in H; apply Ret_inj in H; subst b'.
    change (len (@nil Z)) with 0.
    rewrite Z.div_0_l, Z.mod_0_l by lia; cbn [Z.eqb]; lia.
  - destruct l as [| a l].
    { cbn [chunks forM] in H; apply Ret_inj in H; subst b'.
      change (len (@nil Z)) with 0.
      rewrite Z.div_0_l, Z.mod_0_l by lia; cbn [Z.eqb]; lia. }
    cbn [chunks forM] in H.
    apply bind_Ret_inv in H as (b1 & H1 & H).
    apply Hbody in H1;
      [| destruct k; [lia | discriminate]].
    apply IH in H;
      [| rewrite length_skipn; cbn [length] in *; lia].
    rewrite H, H1; clear H H1 IH.
    unfold len; rewrite length_firstn, length_skipn.
    set (n := length (a :: l)).
    assert (Hn : (0 < n)%nat) by (unfold n; simpl; lia).
    destruct (Nat.le_gt_cases k n) as [Hge | Hlt].
    + replace (Z.of_nat (Nat.min k n)) with (Z.of_nat k) by lia.
      replace (Z.of_nat (n - k)) with (Z.of_nat n + -1 * Z.of_nat k) by lia.
      rewrite Z.div_add, Z.mod_add by lia.
      rewrite Z.mul_add_distr_l; lia.
    + replace (Z.of_nat (Nat.min k n)) with (Z.of_nat n) by lia.
      replace (Z.of_nat (n - k)) with 0 by lia.
      rewrite Z.div_0_l, Z.mod_0_l by lia; cbn [Z.eqb].
      rewrite Z.div_small, Z.mod_small by lia.
      destruct (Z.eqb_spec (Z.of_nat n) 0); lia.
Qed.

Lemma encodeDataRaw_len d seg m enc enc' mi ccb L :
  modeIndicator d m = Ret mi -> charCountBits d m = Ret ccb ->
  0 <= numBits mi -> 0 <= ccb ->
  encodeDataRaw d seg m enc = Ret enc' ->
  encodedLength d m (len seg) = Ret L ->
  Len enc' = Len enc + L.
Proof.
  intros Hmi Hccb Hmi0 Hccb0; unfold encodeDataRaw, encodedLength, Len.
  rewrite Hmi, Hccb; cbn [bind].
  intros H HL.
  destruct (_ >? _); [discriminate |].
  apply Ret_inj in HL; subst L.
  apply bind_Ret_inv in H as (e1 & H1 & H).
  apply bind_Ret_inv in H as (e2 & H2 & H).
  apply Append_len in H1; apply AppendUint32_len in H2.
  assert (Hn0 : 0 <= len seg) by (unfold len; lia).
  rewrite !Z.quot_div_nonneg, !Z.rem_mod_nonneg by lia.
  destruct m.
  - apply Ret_inj in H; subst enc'; unfold Len; lia.
  - apply (forM_chunks_adds 3 (fun g => 1 + 3 * g)) in H; try lia.
    + rewrite H; unfold Len; change (Z.of_nat 3) with 3.
      destruct (Z.eqb_spec (len seg mod 3) 0); cbn [negb]; lia.
    + intros b g b' Hg Hb; apply AppendUint32_len in Hb.
      clear H; unfold len in *; lia.
  - apply (forM_chunks_adds 2 (fun g => if g >? 1 then 11 else 6)) in H;
      try lia.
    + rewrite H; unfold Len; change (Z.of_nat 2) with 2.
      change (2 >? 1) with true; cbv iota.
      pose proof (Z.mod_pos_bound (len seg) 2 ltac:(lia)).
      destruct (Z.eqb_spec (len seg mod 2) 0) as [E | N].
      * rewrite E; lia.
      * replace (len seg mod 2) with 1 by lia.
        change (1 >? 1) with false; cbv iota; lia.
    + intros b g b' Hg Hb.
      apply bind_Ret_inv in Hb as (value & _ & Hb).
      apply AppendUint32_len in Hb.
      clear H; destruct (len g >? 1); lia.
  - apply (forM_adds 8) in H; [unfold Len; lia |].
    intros b x b' Hb; apply AppendByte_len in Hb; lia.
Qed.

Lemma encodedLength_with_plan d r a o m n :
  encodedLength (with_plan d r a o) m n = encodedLength d m n.
Proof. destruct m; reflexivity. Qed.

Lemma encodeDataRaw_with_plan d r a o seg m enc :
  encodeDataRaw (with_plan d r a o) seg m enc = encodeDataRaw d seg m enc.
Proof. destruct m; reflexivity. Qed.

Lemma newDataEncoder_fields t d m :
  newDataEncoder t = Ret d ->
  m = dataModeNone
  \/ exists mi ccb,
       modeIndicator d m = Ret mi /\ charCountBits d m = Ret ccb
       /\ 0 <= numBits mi /\ 0 <= ccb.
Proof.
  intros H.
  destruct t; vm_compute in H; apply Ret_inj in H; subst d;
    (destruct m; [left; reflexivity | right ..]);
    do 2 eexists; (split; [reflexivity |]); (split; [reflexivity |]);
    split; vm_compute; discriminate.
Qed.

(** [encodedLength] is the number of bits [encodeDataRaw] appends for a
    segment of that class and length, where it has no objection to the
    length. *)
Theorem encodeDataRaw_length t d raw act opt seg m enc enc' L :
  newDataEncoder t = Ret d ->
  encodeDataRaw (with_plan d raw act opt) seg m enc = Ret enc' ->
  encodedLength (with_plan d raw act opt) m (len seg) = Ret L ->
  Len enc' = Len enc + L.
Proof.
  intros Hnew; rewrite encodeDataRaw_with_plan, encodedLength_with_plan.
  destruct (newDataEncoder_fields t d m Hnew)
    as [-> | (mi & ccb & Hmi & Hccb & H0 & H1)].
  - discriminate.
  - apply encodeDataRaw_len with (mi := mi) (ccb := ccb); assumption.
Qed.

(** The bits of a whole plan. *)
Lemma plan_len t d :
  newDataEncoder t = Ret d ->
  forall plan enc enc' acc T,
    forM plan
         (fun encoded s => encodeDataRaw d (seg_data s) (seg_dataMode s) encoded)
         enc = Ret enc' ->
    forM plan
         (fun total s =>
            length <- encodedLength d (seg_dataMode s) (len (seg_data s)) ;;
            Ret (total + length))
         acc = Ret T ->
    Len enc' - Len enc = T - acc.
Proof.
  intros Hnew; induction plan as [| sg plan IH]; intros enc enc' acc T He Ht;
    cbn [forM] in *.
  - apply Ret_inj in He, Ht; subst; lia.
  - apply bind_Ret_inv in He as (e1 & He1 & He).
    apply bind_Ret_inv in Ht as (t1 & Ht1 & Ht).
    apply bind_Ret_inv in Ht1 as (L & HL & Ht1).
    apply Ret_inj in Ht1; subst t1.
    specialize (IH _ _ _ _ He Ht).
    destruct (newDataEncoder_fields t d (seg_dataMode sg) Hnew)
      as [E | (mi & ccb & Hmi & Hccb & H0 & H1)].
    + rewrite E in HL; discriminate HL.
    + pose proof (encodeDataRaw_len _ _ _ _ _ _ _ _ Hmi Hccb H0 H1 He1 HL).
      lia.
Qed.

(** The bits [dataEncoder.encode] returns are as many as [encodedLength]
    counts for the segments of the plan it emitted. *)
Theorem encode_length t d raw d' encoded :
  newDataEncoder t = Ret d ->
  encoder_encode d raw = Ret (d', encoded) ->
  planLength d' (optimised d') = Ret (Len encoded).
Proof.
  intros Hnew; unfold encoder_encode.
  destruct (len raw =? 0); [discriminate |].
  destruct (classifyDataModes (with_plan d raw [] [])) as [dc highest] eqn:Ec.
  assert (Hdc : exists a o, dc = with_plan d raw a o).
  { unfold classifyDataModes in Ec;
      cbn [enc_data with_plan actual optimised] in Ec.
    destruct (fold_left _ _ _) as [[[? ?] ?] ?].
    injection Ec as <- _; do 2 eexists; destruct d; reflexivity. }
  destruct Hdc as (a & o & ->).
  intros H.
  apply bind_Ret_inv in H as (dopt & Hopt & H).
  unfold optimiseDataModes in Hopt.
  apply bind_Ret_inv in Hopt as (opt & _ & Hd).
  apply Ret_inj in Hd; subst dopt.
  cbn [enc_data actual optimised with_plan] in H.
  apply bind_Ret_inv in H as (total & Htot & H).
  apply bind_Ret_inv in H as (single & Hsingle & H).
  apply bind_Ret_inv in H as (e0 & He0 & H).
  apply bind_Ret_inv in H as (e1 & He1 & H).
  apply Ret_inj in H; injection H as <- <-.
  change (bitset.New []) with (Ret (mkBitset 0 [])) in He0.
  apply Ret_inj in He0; subst e0.
  unfold planLength.
  destruct (single <=? total); cbn [optimised with_plan] in *.
  - cbn [forM seg_data seg_dataMode bind] in *.
    rewrite !encodedLength_with_plan in *.
    rewrite Hsingle; cbn [bind]; f_equal.
    apply bind_Ret_inv in He1 as (e2 & He2 & He1).
    apply Ret_inj in He1; subst e2.
    rewrite !encodeDataRaw_with_plan in He2.
    destruct (newDataEncoder_fields t d highest Hnew)
      as [E | (mi & ccb & Hmi & Hccb & H0 & H1)].
    + rewrite E in Hsingle; discriminate Hsingle.
    + pose proof (encodeDataRaw_len _ _ _ _ _ _ _ _ Hmi Hccb H0 H1 He2
                    Hsingle) as Hl.
      change (Len (mkBitset 0 [])) with 0 in Hl; lia.
  - rewrite (forM_ext _ _
               (fun total s =>
                  length <- encodedLength d (seg_dataMode s)
                              (len (seg_data s)) ;;
                  Ret (total + length)))
      in Htot |- * by (intros; rewrite !encodedLength_with_plan; reflexivity).
    rewrite (forM_ext _ _
               (fun encoded s =>
                  encodeDataRaw d (seg_data s) (seg_dataMode s) encoded))
      in He1 by (intros; rewrite !encodeDataRaw_with_plan; reflexivity).
    rewrite Htot; f_equal.
    pose proof (plan_len t d Hnew _ _ _ _ _ He1 Htot) as Hl.
    change (Len (mkBitset 0 [])) with 0 in Hl; lia.
Qed.

End EncodedLength.

Lemma encodeDataRaw_length_witness :
  exists enc' L,
    newDataEncoder dataEncoderType1To9 = Ret encoder1To9
    /\ encodeDataRaw (with_plan encoder1To9 [49; 50; 51; 52] [] [])
         [49; 50; 51; 52] dataModeNumeric (mkBitset 0 []) = Ret enc'
    /\ encodedLength (with_plan encoder1To9 [49; 50; 51; 52] [] [])
         dataModeNumeric (len [49; 50; 51; 52]) = Ret L
    /\ Len enc' = Len (mkBitset 0 []) + L.
Proof.
  do 2 eexists.
  assert (H1 : newDataEncoder dataEncoderType1To9 = Ret encoder1To9)
    by reflexivity.
  split; [exact H1 |].
  split; [vm_compute; reflexivity |].
  split; [vm_compute; reflexivity |].
  eapply (encodeDataRaw_length dataEncoderType1To9 encoder1To9
            [49; 50; 51; 52] [] [] [49; 50; 51; 52] dataModeNumeric
            (mkBitset 0 []));
    [exact H1 | vm_compute; reflexivity | vm_compute; reflexivity].
Defined.

(** [encodeDataRaw] does not look at the length: 1024 digits go through
    with their count cut to ten bits, where [encodedLength] refuses them. *)
Example encodeDataRaw_long_segment :
  encodedLength encoder1To9 dataModeNumeric 1024
  = Err "length too long to be represented"%string
  /\ (enc <- encodeDataRaw encoder1To9 (repeat 48 1024) dataModeNumeric
               (mkBitset 0 []) ;;
      count <- forM (upto 4 10)
                 (fun acc j => c <- At enc j ;; Ret (2 * acc + Z.b2z c)) 0 ;;
      Ret (Len enc, count))
     = Ret (4 + 10 + 341 * 10 + 4, 0).
Proof. split; vm_compute; reflexivity. Qed.

Lemma encode_length_witness :
  exists d' encoded,
    newDataEncoder dataEncoderType1To9 = Ret encoder1To9
    /\ encoder_encode encoder1To9
         (bytes_of_string "1234567890123456789abc"%string) = Ret (d', encoded)
    /\ planLength d' (optimised d') = Ret (Len encoded).
Proof.
  do 2 eexists.
  assert (H1 : newDataEncoder dataEncoderType1To9 = Ret encoder1To9)
    by reflexivity.
  split; [exact H1 |].
  split; [vm_compute; reflexivity |].
  eapply (encode_length dataEncoderType1To9 encoder1To9
            (bytes_of_string "1234567890123456789abc"%string));
    [exact H1 | vm_compute; reflexivity].
Defined.

(** ** New: the choice of encoder *)

Section NewChoice.

Variable chooseQRCodeVersion :
  RecoveryLevel -> dataEncoder -> Z -> option qrCodeVersion.

(** The loop of [New] over encoder types: it stops at the first type whose
    encoder accepts the content and for whose output a version is offered. *)
Lemma New_loop_first content_ level_ :
  forall ts st st',
    st_chosenVersion st = None ->
    New_loop chooseQRCodeVersion ts content_ level_ st = Ret st' ->
    match st_chosenVersion st' with
    | None => True
    | Some v =>
        st_err st' = None
        /\ exists pre t post d e enc,
             ts = pre ++ t :: post
             /\ newDataEncoder t = Ret d
             /\ encoder_encode d (bytes_of_string content_) = Ret (e, enc)
             /\ chooseQRCodeVersion level_ e (Len enc) = Some v
             /\ st_encoder st' = Some e /\ st_encoded st' = Some enc
             /\ forall t' d' e' enc',
                  In t' pre -> newDataEncoder t' = Ret d' ->
                  encoder_encode d' (bytes_of_string content_) = Ret (e', enc') ->
                  chooseQRCodeVersion level_ e' (Len enc') = None
    end.
Proof.
  induction ts as [| t ts IH]; intros st st' Hst H; cbn [New_loop] in H.
  - apply Ret_inj in H; subst st'; rewrite Hst; exact I.
  - apply bind_Ret_inv in H as (d & Hd & H).
    destruct (encoder_encode d (bytes_of_string content_))
      as [[e enc] | msg | |] eqn:Eenc; try discriminate.
    + destruct (chooseQRCodeVersion level_ e (Len enc)) as [v |] eqn:Ech.
      * apply Ret_inj in H; subst st'; cbn.
        split; [reflexivity |].
        exists [], t, ts, d, e, enc; repeat split; auto.
        intros ? ? ? ? [].
      * apply IH in H; [| reflexivity].
        destruct (st_chosenVersion st') as [v |]; [| exact I].
        destruct H as (Herr & pre & t0 & post & d0 & e0 & enc0 & -> & Hd0 & He0
                       & Hc0 & Hse & Hsn & Hpre).
        split; [exact Herr |].
        exists (t :: pre), t0, post, d0, e0, enc0; repeat split; auto.
        intros t' d' e' enc' [<- | Hin] Hd' He'.
        -- rewrite Hd in Hd'; apply Ret_inj in Hd'; subst d'.
           rewrite Eenc in He'; apply Ret_inj in He'.
           injection He' as <- <-; exact Ech.
        -- eapply Hpre; eassumption.
    + apply IH in H; [| exact Hst].
      destruct (st_chosenVersion st') as [v |]; [| exact I].
      destruct H as (Herr & pre & t0 & post & d0 & e0 & enc0 & -> & Hd0 & He0
                     & Hc0 & Hse & Hsn & Hpre).
      split; [exact Herr |].
      exists (t :: pre), t0, post, d0, e0, enc0; repeat split; auto.
      intros t' d' e' enc' [<- | Hin] Hd' He'.
      * rewrite Hd in Hd'; apply Ret_inj in Hd'; subst d'.
        rewrite Eenc in He'; discriminate He'.
      * eapply Hpre; eassumption.
Qed.

(** What [New] returns: the bits of the first encoder type, in the order
    1-9, 10-26, 27-40, that accepts the content and for whose output
    [chooseQRCodeVersion] offers a version, with that version, margin 4 and
    no symbol yet. *)
Theorem New_first_fit content_ level_ q :
  New chooseQRCodeVersion content_ level_ = Ret q ->
  content q = content_ /\ q_level q = level_
  /\ versionNumber q = version (q_version q)
  /\ Margin q = 4 /\ q_symbol q = None /\ mask q = 0
  /\ exists pre t post d,
       [dataEncoderType1To9; dataEncoderType10To26; dataEncoderType27To40]
       = pre ++ t :: post
       /\ newDataEncoder t = Ret d
       /\ encoder_encode d (bytes_of_string content_)
          = Ret (encoder q, data q)
       /\ chooseQRCodeVersion level_ (encoder q) (Len (data q))
          = Some (q_version q)
       /\ forall t' d' e' enc',
            In t' pre -> newDataEncoder t' = Ret d' ->
            encoder_encode d' (bytes_of_string content_) = Ret (e', enc') ->
            chooseQRCodeVersion level_ e' (Len enc') = None.
Proof.
  unfold New; intros H.
  apply bind_Ret_inv in H as (st & Hloop & H).
  apply New_loop_first in Hloop; [| reflexivity].
  destruct (st_err st); [discriminate |].
  destruct (st_chosenVersion st) as [v |]; [| discriminate].
  destruct Hloop as (_ & pre & t & post & d & e & enc & Hts & Hd & He & Hc
                     & Hse & Hsn & Hpre).
  rewrite Hse, Hsn in H; apply Ret_inj in H; subst q.
  cbn [content q_level versionNumber q_version Margin q_symbol mask encoder
       data].
  repeat (split; [reflexivity |]).
  exists pre, t, post, d; repeat split; assumption.
Qed.

End NewChoice.

Lemma New_first_fit_witness :
  New (fun _ _ _ => Some version1M) "HELLO WORLD"%string Medium = Ret helloQR
  /\ Margin helloQR = 4 /\ q_symbol helloQR = None
  /\ exists pre t post d,
       [dataEncoderType1To9; dataEncoderType10To26; dataEncoderType27To40]
       = pre ++ t :: post
       /\ newDataEncoder t = Ret d
       /\ encoder_encode d (bytes_of_string "HELLO WORLD"%string)
          = Ret (encoder helloQR, data helloQR).
Proof.
  assert (H1 : New (fun _ _ _ => Some version1M) "HELLO WORLD"%string Medium
               = Ret helloQR) by (vm_compute; reflexivity).
  split; [exact H1 |].
  destruct (New_first_fit (fun _ _ _ => Some version1M)
              "HELLO WORLD"%string Medium helloQR H1)
    as (_ & _ & _ & Hm & Hs & _ & pre & t & post & d & Hts & Hd & He & _).
  split; [exact Hm |]; split; [exact Hs |].
  exists pre, t, post, d; split; [exact Hts |]; split; [exact Hd | exact He].
Defined.

(** A chooser that accepts only the third encoder range: "7" goes through
    the three encoders in turn; with none accepted the content is too
    long. *)
Example New_third_encoder :
  (q <- New (fun _ e _ => if minVersion e =? 27 then Some version1M else None)
          "7"%string Low ;;
   Ret (minVersion (encoder q), Len (data q)))
  = Ret (27, 4 + 14 + 4)
  /\ New (fun _ _ _ => None) "7"%string Low
     = Err "content too long to encode"%string.
Proof. split; vm_compute; reflexivity. Qed.

(** ** Terminator and padding *)

Section Padding.

(** [ByteAt] on eight bits that spell the byte [v]. *)
Lemma ByteAt_value b i v :
  covered b -> 0 <= i -> i + 8 <= numBits b -> byte v ->
  (forall t, 0 <= t < 8 -> At b (i + t) = Ret (Z.testbit v (7 - t))) ->
  ByteAt b i = Ret v.
Proof.
  intros Hb Hi Hn Hv Hbits.
  destruct (ByteAt_bits b i Hb ltac:(lia)) as (r & Hr & Hrange & Hb1).
  assert (Ha : available b i = 8) by (unfold available; lia).
  rewrite Ha in *; rewrite Hr; f_equal.
  apply byte_eq_bits;
    [unfold byte; change 256 with (2 ^ 8); exact Hrange | exact Hv |].
  intros t Ht.
  specialize (Hb1 (7 - t) ltac:(lia)).
  rewrite Hbits in Hb1 by lia.
  apply Ret_inj in Hb1.
  replace (8 - 1 - (7 - t)) with t in Hb1 by lia.
  replace (7 - (7 - t)) with t in Hb1 by lia.
  symmetry; exact Hb1.
Qed.

(** The two pad codewords, 0b11101100 and 0b00010001. *)
Lemma pad_codeword (i : Z) :
  i = 0 \/ i = 1 ->
  exists p,
    index [mkBitset 8 [236]; mkBitset 8 [17]] i = Some p
    /\ covered p /\ Len p = 8
    /\ forall t, 0 <= t < 8 ->
         At p t = Ret (Z.testbit (if i =? 0 then 236 else 17) (7 - t)).
Proof.
  intros [-> | ->]; eexists; (split; [reflexivity |]);
    (split; [unfold covered; simpl; lia |]); (split; [reflexivity |]);
    intros t Ht;
    assert (C : t = 0 \/ t = 1 \/ t = 2 \/ t = 3 \/ t = 4 \/ t = 5 \/ t = 6
                \/ t = 7) by lia;
    repeat (destruct C as [-> | C]; [reflexivity |]); subst t; reflexivity.
Qed.

(** The loop of [addPadding] on a buffer of whole codewords: pad codewords
    are appended, starting with the one of index [i] and alternating, until
    the buffer holds [N] bits. *)
Lemma addPadding_loop_spec N :
  N mod 8 = 0 ->
  forall fuel i b,
    clean b -> numBits b mod 8 = 0 -> numBits b <= N ->
    N - numBits b <= 8 * Z.of_nat fuel ->
    i = 0 \/ i = 1 ->
    exists b',
      addPadding_loop fuel N [mkBitset 8 [236]; mkBitset 8 [17]] i b = Ret b'
      /\ clean b'
      /\ numBits b' = N
      /\ (forall k, 0 <= k < numBits b -> At b' k = At b k)
      /\ forall j, 0 <= j -> numBits b + 8 * j + 8 <= N ->
           ByteAt b' (numBits b + 8 * j)
           = Ret (if Z.even (i + j) then 236 else 17).
Proof.
  intros HN; induction fuel as [| fuel IH]; intros i b Hb Hal Hle Hfuel Hi;
    cbn [addPadding_loop]; unfold Len;
    destruct (Z.geb_spec (N - numBits b) 8) as [G | L]; try lia.
  1,3: exists b; split; [reflexivity |]; split; [exact Hb |];
    (split; [pose proof (Z.div_mod N 8 ltac:(lia));
             pose proof (Z.div_mod (numBits b) 8 ltac:(lia)); lia |]);
    split; [auto | intros; lia].
  destruct (pad_codeword i Hi) as (p & Hp & Hpc & Hpl & Hpb).
  rewrite Hp.
  destruct (Append_spec b p Hb Hpc) as (b1 & Happ & Hc1 & Hl1 & Hold1 & Hnew1).
  rewrite Happ; cbn [bind]; unfold Len in *; rewrite Hpl in *.
  assert (Hb0 : 0 <= numBits b) by (destruct Hb as [[? ?] _]; lia).
  destruct (IH (1 - i) b1 Hc1) as (b' & Hrun & Hc' & Hn' & Hold' & Hpad');
    try lia.
  { rewrite Hl1, <- Zplus_mod_idemp_l, Hal; reflexivity. }
  exists b'; split; [exact Hrun |]; split; [exact Hc' |].
  split; [exact Hn' |]; split.
  - intros k Hk; rewrite Hold' by lia; apply Hold1; exact Hk.
  - intros j Hj0 Hj.
    destruct (Z.eq_dec j 0) as [-> | Nj].
    + rewrite Z.mul_0_r, !Z.add_0_r.
      apply ByteAt_value; try lia;
        [apply Hc' | destruct Hi as [-> | ->]; unfold byte; simpl; lia |].
      intros t Ht; rewrite Hold', Hnew1, Hpb by lia.
      destruct Hi as [-> | ->]; reflexivity.
    + replace (numBits b + 8 * j) with (numBits b1 + 8 * (j - 1)) by lia.
      rewrite Hpad' by lia; do 2 f_equal.
      destruct Hi as [-> | ->].
      * replace (1 - 0 + (j - 1)) with (0 + j) by lia; reflexivity.
      * replace (1 + j) with (Z.succ (Z.succ (1 - 1 + (j - 1)))) by lia.
        rewrite Z.even_succ_succ; reflexivity.
Qed.

Lemma numDataBits_whole v : numDataBits v mod 8 = 0.
Proof. unfold numDataBits; rewrite Z.mul_comm; apply Z.mod_mul; lia. Qed.

Lemma pad_to_codeword v n :
  0 <= n ->
  0 <= numBitsToPadToCodeword v n < 8
  /\ n + numBitsToPadToCodeword v n = 8 * ((n + 7) / 8).
Proof.
  intros Hn; unfold numBitsToPadToCodeword.
  pose proof (Z.mod_pos_bound n 8 ltac:(lia)) as Hm.
  pose proof (Z.div_mod n 8 ltac:(lia)) as Hd.
  rewrite (Z.rem_mod_nonneg n 8) by lia.
  rewrite Z.rem_mod_nonneg by lia.
  destruct (Z.eq_dec (n mod 8) 0) as [E | N].
  - rewrite E; change ((8 - 0) mod 8) with 0.
    split; [lia |].
    assert ((n + 7) / 8 = n / 8)
      by (symmetry; apply Z.div_unique with (r := 7); lia).
    lia.
  - rewrite Z.mod_small by lia.
    split; [lia |].
    assert ((n + 7) / 8 = n / 8 + 1)
      by (symmetry; apply Z.div_unique with (r := n mod 8 - 1); lia).
    lia.
Qed.

(** [addPadding] on a buffer that does not exceed the capacity of the
    version: zero bits up to the next codeword boundary, then the pad
    codewords 236 and 17 in turn, up to [numDataBits]. *)
Lemma addPadding_spec q :
  clean (data q) -> Len (data q) <= numDataBits (q_version q) ->
  exists q',
    addPadding q = Ret q'
    /\ q' = with_data q (data q')
    /\ clean (data q')
    /\ Len (data q') = numDataBits (q_version q)
    /\ (forall i, 0 <= i < Len (data q) -> At (data q') i = At (data q) i)
    /\ (forall i, Len (data q) <= i < 8 * ((Len (data q) + 7) / 8) ->
          At (data q') i = Ret false)
    /\ forall j, 0 <= j ->
         8 * ((Len (data q) + 7) / 8) + 8 * j + 8 <= numDataBits (q_version q) ->
         ByteAt (data q') (8 * ((Len (data q) + 7) / 8) + 8 * j)
         = Ret (if Z.even j then 236 else 17).
Proof.
  intros Hb Hle; unfold addPadding.
  set (N := numDataBits (q_version q)) in *.
  assert (HN : N mod 8 = 0) by apply numDataBits_whole.
  assert (Hb0 : 0 <= Len (data q))
    by (destruct Hb as [[? ?] _]; unfold Len; lia).
  destruct (pad_to_codeword (q_version q) (Len (data q)) Hb0) as (Hpad & Hz).
  set (z := 8 * ((Len (data q) + 7) / 8)) in *.
  destruct (Z.eqb_spec (Len (data q)) N) as [E | NE].
  - exists q; split; [reflexivity |].
    split; [symmetry; apply with_data_same |]; split; [exact Hb |].
    split; [exact E |]; split; [auto |].
    assert (z = N).
    { pose proof (Z.div_mod N 8 ltac:(lia)).
      unfold z; rewrite E.
      assert ((N + 7) / 8 = N / 8)
        by (symmetry; apply Z.div_unique with (r := 7); lia).
      lia. }
    split; intros; lia.
  - destruct (AppendNumBools_spec (data q)
                (numBitsToPadToCodeword (q_version q) (Len (data q))) false Hb)
      as (b1 & Hrun1 & Hc1 & Hl1 & Hold1 & Hnew1).
    rewrite Hrun1; cbn [bind].
    change (bitset.New [true; true; true; false; true; true; false; false])
      with (Ret (mkBitset 8 [236])).
    change (bitset.New [false; false; false; true; false; false; false; true])
      with (Ret (mkBitset 8 [17])).
    cbn [bind].
    rewrite Z.max_r in Hl1 by lia.
    assert (Hl1z : numBits b1 = z) by (unfold Len in *; lia).
    assert (HzN : z <= N).
    { pose proof (Z.div_mod N 8 ltac:(lia)).
      assert ((Len (data q) + 7) / 8 <= N / 8)
        by (apply Z.div_le_lower_bound; [lia |];
            pose proof (Z.div_mod (Len (data q) + 7) 8 ltac:(lia));
            pose proof (Z.mod_pos_bound (Len (data q) + 7) 8 ltac:(lia));
            lia).
      unfold z; lia. }
    destruct (addPadding_loop_spec N HN (Z.to_nat N) 0 b1 Hc1)
      as (b' & Hrun & Hc' & Hn' & Hold' & Hpad'); try lia.
    { rewrite Hl1z; unfold z; rewrite Z.mul_comm; apply Z.mod_mul; lia. }
    rewrite Hrun; cbn [bind]; unfold Len at 1.
    rewrite Hn', Z.eqb_refl; cbn [negb].
    eexists; split; [reflexivity |].
    cbn [with_data data].
    split; [reflexivity |]; split; [exact Hc' |]; split; [exact Hn' |].
    unfold Len in *; split; [| split].
    + intros i Hi; rewrite Hold' by lia; apply Hold1; exact Hi.
    + intros i Hi; rewrite Hold' by lia.
      replace i with (numBits (data q) + (i - numBits (data q))) by lia.
      apply Hnew1; lia.
    + intros j Hj0 Hj; rewrite <- Hl1z.
      rewrite Hpad' by lia; reflexivity.
Qed.

Variable buildRegularSymbol :
  qrCodeVersion -> Z -> Bitset -> Z -> outcome symbol.

(** The data buffer after [encode]: the bits it held, then zero bits (the
    terminator, of at most four bits, and the fill to a codeword boundary),
    then the pad codewords 236 and 17 in turn, [numDataBits] bits in all. *)
Theorem encode_data_padded q q' :
  clean (data q) -> Len (data q) <= numDataBits (q_version q) ->
  encode buildRegularSymbol q = Ret q' ->
  let N := numDataBits (q_version q) in
  let z := 8 * ((Len (data q)
                 + numTerminatorBitsRequired (q_version q) (Len (data q))
                 + 7) / 8) in
  Len (data q') = N
  /\ (forall i, 0 <= i < Len (data q) -> At (data q') i = At (data q) i)
  /\ (forall i, Len (data q) <= i < z -> At (data q') i = Ret false)
  /\ forall j, 0 <= j -> z + 8 * j + 8 <= N ->
       ByteAt (data q') (z + 8 * j) = Ret (if Z.even j then 236 else 17).
Proof.
  intros Hb Hle H; cbv zeta; unfold encode in H.
  apply bind_Ret_inv in H as (qa & Ha & H).
  apply bind_Ret_inv in H as (qb & Hpadq & H).
  apply bind_Ret_inv in H as (encoded & _ & H).
  apply bind_Ret_inv in H as (r & _ & H).
  apply Ret_inj in H; subst q'; cbn [with_symbol data].
  unfold addTerminatorBits in Ha.
  set (nt := numTerminatorBitsRequired (q_version q) (Len (data q))) in *.
  assert (Hnt : nt <= numDataBits (q_version q) - Len (data q) /\ nt <= 4)
    by (unfold nt, numTerminatorBitsRequired; lia).
  assert (Hb0 : 0 <= Len (data q))
    by (destruct Hb as [[? ?] _]; unfold Len; lia).
  assert (Hnt0 : 0 <= nt) by (unfold nt, numTerminatorBitsRequired; lia).
  destruct (AppendNumBools_spec (data q) nt false Hb)
    as (b1 & Hrun1 & Hc1 & Hl1 & Hold1 & Hnew1).
  rewrite Hrun1 in Ha; cbn [bind] in Ha; apply Ret_inj in Ha; subst qa.
  rewrite Z.max_r in Hl1 by lia.
  destruct (addPadding_spec (with_data q b1))
    as (q2 & Hrun2 & _ & _ & Hl2 & Hold2 & Hzero2 & Hpad2);
    cbn [with_data data q_version] in *; try assumption; try lia.
  rewrite Hrun2 in Hpadq; apply Ret_inj in Hpadq; subst qb.
  rewrite Hl1 in *.
  split; [exact Hl2 |]; split; [| split].
  - intros i Hi; rewrite Hold2 by lia; apply Hold1; exact Hi.
  - intros i Hi.
    destruct (Z.lt_ge_cases i (Len (data q) + nt)) as [L | G].
    + rewrite Hold2 by lia.
      replace i with (Len (data q) + (i - Len (data q))) by lia.
      apply Hnew1; lia.
    + apply Hzero2; lia.
  - exact Hpad2.
Qed.

End Padding.

Lemma encode_data_padded_witness :
  clean (data helloQR)
  /\ Len (data helloQR) <= numDataBits (q_version helloQR)
  /\ encode sampleBuildSymbol helloQR = Ret helloQREncoded
  /\ Len (data helloQREncoded) = numDataBits (q_version helloQR)
  /\ (forall i, 0 <= i < Len (data helloQR) ->
        At (data helloQREncoded) i = At (data helloQR) i)
  /\ (forall i,
        Len (data helloQR) <= i
        < 8 * ((Len (data helloQR)
                + numTerminatorBitsRequired (q_version helloQR)
                    (Len (data helloQR)) + 7) / 8) ->
        At (data helloQREncoded) i = Ret false)
  /\ forall j, 0 <= j ->
       8 * ((Len (data helloQR)
             + numTerminatorBitsRequired (q_version helloQR)
                 (Len (data helloQR)) + 7) / 8) + 8 * j + 8
       <= numDataBits (q_version helloQR) ->
       ByteAt (data helloQREncoded)
         (8 * ((Len (data helloQR)
                + numTerminatorBitsRequired (q_version helloQR)
                    (Len (data helloQR)) + 7) / 8) + 8 * j)
       = Ret (if Z.even j then 236 else 17).
Proof.
  assert (H1 : clean (data helloQR)) by (apply cleanb_clean; reflexivity).
  assert (H2 : Len (data helloQR) <= numDataBits (q_version helloQR))
    by (vm_compute; discriminate).
  assert (H3 : encode sampleBuildSymbol helloQR = Ret helloQREncoded)
    by (vm_compute; reflexivity).
  split; [exact H1 |]; split; [exact H2 |]; split; [exact H3 |].
  exact (encode_data_padded sampleBuildSymbol helloQR helloQREncoded H1 H2 H3).
Defined.
